(** * A verification model of the edge-log routing layer

    Shallow embedding of [src/framework/router/application.ts]: the
    [Route] matcher, the decorator-built registry, request dispatch,
    response encoding, the GraphQL adapter, content-type inference and
    the [CookieJar].

    The ECMAScript built-ins the file calls ([String.prototype.split],
    [trim], [toLowerCase], [encodeURIComponent], [decodeURIComponent],
    [RegExp], property assignment on ordinary objects, [for ... in]) are
    modelled as executable functions next to the code that calls them.
    [JSON.parse], [JSON.stringify] and the [graphql] executor stay
    parameters of the sections that use them. *)

From Stdlib Require Import Ascii String.
From Stdlib Require Import List NArith ZArith Bool Lia Permutation.
Import ListNotations.

Set Implicit Arguments.
Set Warnings "-register-all".

(** ** Outcomes of a call: a value, or a thrown exception *)

Inductive exn : Type :=
| TypeError
| URIError
| SyntaxError
| Thrown (tag : N).   (* anything a handler throws itself *)

Inductive outcome (A : Type) : Type :=
| Ok (a : A)
| Throw (e : exn).

Arguments Ok {A} a.
Arguments Throw {A} e.

Definition bind {A B} (m : outcome A) (f : A -> outcome B) : outcome B :=
  match m with
  | Ok a => f a
  | Throw e => Throw e
  end.

Notation "'do' x <- m ; k" := (bind m (fun x => k))
  (at level 10, x name, m at level 100, k at level 200).
Notation "'do' ' p <- m ; k" := (bind m (fun x => let 'p := x in k))
  (at level 10, p pattern, m at level 100, k at level 200).

Fixpoint mapM {A B} (f : A -> outcome B) (l : list A) : outcome (list B) :=
  match l with
  | [] => Ok []
  | a :: l' => do b <- f a; do bs <- mapM f l'; Ok (b :: bs)
  end.

(** ** Strings

    A string is the sequence of its code points.  Every operation the
    source applies ([split] on an ASCII separator, [trim],
    [lastIndexOf], [substr], concatenation) cuts between code points, so
    the UTF-16 layout of the engine is not observable here. *)

Module JSString.

Definition str : Type := list N.

Definition js (s : string) : str := map N_of_ascii (list_ascii_of_string s).
Arguments js s%_string.

Definition str_eq_dec : forall a b : str, {a = b} + {a <> b} :=
  list_eq_dec N.eq_dec.

Definition eqb (a b : str) : bool := if str_eq_dec a b then true else false.

(** [String.prototype.toLowerCase] on Basic Latin and Latin-1 Supplement
    (the case mappings above U+00FF are not tabulated; an HTTP method is
    an ASCII token). *)
Definition to_lower (c : N) : N :=
  if ((65 <=? c) && (c <=? 90)
      || (192 <=? c) && (c <=? 222) && negb (c =? 215))%N
  then (c + 32)%N else c.

Definition toLowerCase (s : str) : str := map to_lower s.

(** [s.split(sep)] for a one-character separator: never empty, the empty
    string gives one empty segment. *)
Fixpoint split (sep : N) (s : str) : list str :=
  match s with
  | [] => [[]]
  | c :: s' =>
      if (c =? sep)%N then [] :: split sep s'
      else match split sep s' with
           | seg :: segs => (c :: seg) :: segs
           | [] => [[c]]
           end
  end.

(** [arr.join(sep)] *)
Fixpoint join (sep : N) (l : list str) : str :=
  match l with
  | [] => []
  | [s] => s
  | s :: l' => s ++ sep :: join sep l'
  end.

(** ECMAScript WhiteSpace and LineTerminator code points *)
Definition is_white_space (c : N) : bool :=
  ((9 <=? c) && (c <=? 13) || (c =? 32) || (c =? 160) || (c =? 5760)
   || (8192 <=? c) && (c <=? 8202) || (c =? 8232) || (c =? 8233)
   || (c =? 8239) || (c =? 8287) || (c =? 12288) || (c =? 65279))%N.

Fixpoint trimStart (s : str) : str :=
  match s with
  | [] => []
  | c :: s' => if is_white_space c then trimStart s' else s
  end.

Definition trimEnd (s : str) : str := rev (trimStart (rev s)).

Definition trim (s : str) : str := trimEnd (trimStart s).

(** [s.lastIndexOf(c)]: the index of the last occurrence, or -1 *)
Fixpoint lastIndexOf_from (c : N) (i : Z) (last : Z) (s : str) : Z :=
  match s with
  | [] => last
  | x :: s' => lastIndexOf_from c (i + 1) (if (x =? c)%N then i else last) s'
  end.

Definition lastIndexOf (c : N) (s : str) : Z := lastIndexOf_from c 0 (-1) s.

(** [s.substr(start)]; a negative start counts from the end *)
Definition substr (start : Z) (s : str) : str :=
  if (start <? 0)%Z
  then skipn (Z.to_nat (Z.max (Z.of_nat (length s) + start) 0)) s
  else skipn (Z.to_nat start) s.

(** [String(undefined)] *)
Definition string_of_undefined : str := js "undefined".

End JSString.

Import JSString.

(** ** [encodeURIComponent] and [decodeURIComponent] *)

Module URI.

(** uriUnreserved: letters, digits and [- _ . ! ~ * ' ( )] *)
Definition unreserved (c : N) : bool :=
  ((65 <=? c) && (c <=? 90) || (97 <=? c) && (c <=? 122)
   || (48 <=? c) && (c <=? 57)
   || (c =? 45) || (c =? 95) || (c =? 46) || (c =? 33) || (c =? 126)
   || (c =? 42) || (c =? 39) || (c =? 40) || (c =? 41))%N.

Definition hex_digit (d : N) : N := (if d <? 10 then 48 + d else 55 + d)%N.

Definition hex_val (c : N) : option N :=
  if ((48 <=? c) && (c <=? 57))%N then Some (c - 48)%N
  else if ((65 <=? c) && (c <=? 70))%N then Some (c - 55)%N
  else if ((97 <=? c) && (c <=? 102))%N then Some (c - 87)%N
  else None.

Definition percent : N := 37.

(** [%XX] for one octet *)
Definition escape (b : N) : str :=
  [percent; hex_digit (b / 16); hex_digit (b mod 16)]%N.

(** The UTF-8 octets of a code point; a lone surrogate has none. *)
Definition utf8 (c : N) : option (list N) :=
  (if c <? 128 then Some [c]
   else if c <? 2048 then Some [192 + c / 64; 128 + c mod 64]
   else if c <? 65536 then
     if (55296 <=? c) && (c <=? 57343) then None
     else Some [224 + c / 4096; 128 + (c / 64) mod 64; 128 + c mod 64]
   else if c <? 1114112 then
     Some [240 + c / 262144; 128 + (c / 4096) mod 64;
           128 + (c / 64) mod 64; 128 + c mod 64]
   else None)%N.

Definition encode_char (c : N) : outcome str :=
  if unreserved c then Ok [c]
  else match utf8 c with
       | Some octets => Ok (concat (map escape octets))
       | None => Throw URIError
       end.

Definition encodeURIComponent (s : str) : outcome str :=
  do parts <- mapM encode_char s; Ok (concat parts).

(** Decoding runs in two passes with the same failures as the single
    pass of the standard: every [%] must start an escape, and every
    escaped octet above 0x7F must start or continue a well-formed UTF-8
    sequence made of escapes only. *)
Inductive token : Type :=
| Raw (c : N)
| Octet (b : N).

Fixpoint unescape (s : str) : option (list token) :=
  match s with
  | [] => Some []
  | c :: s1 =>
      if (c =? percent)%N then
        match s1 with
        | h1 :: h2 :: s2 =>
            match hex_val h1, hex_val h2, unescape s2 with
            | Some d1, Some d2, Some ts => Some (Octet (16 * d1 + d2) :: ts)
            | _, _, _ => None
            end
        | _ => None
        end
      else option_map (cons (Raw c)) (unescape s1)
  end.

Definition continuation (b : N) : bool := ((128 <=? b) && (b <=? 191))%N.

Fixpoint assemble (ts : list token) : option str :=
  match ts with
  | [] => Some []
  | Raw c :: ts1 => option_map (cons c) (assemble ts1)
  | Octet b :: ts1 =>
      (if b <? 128 then option_map (cons b) (assemble ts1)
       else if (192 <=? b) && (b <=? 223) then
         match ts1 with
         | Octet b1 :: ts2 =>
             let c := (b - 192) * 64 + (b1 - 128) in
             if continuation b1 && (128 <=? c)
             then option_map (cons c) (assemble ts2) else None
         | _ => None
         end
       else if (224 <=? b) && (b <=? 239) then
         match ts1 with
         | Octet b1 :: Octet b2 :: ts3 =>
             let c := (b - 224) * 4096 + (b1 - 128) * 64 + (b2 - 128) in
             if continuation b1 && continuation b2 && (2048 <=? c)
                && negb ((55296 <=? c) && (c <=? 57343))
             then option_map (cons c) (assemble ts3) else None
         | _ => None
         end
       else if (240 <=? b) && (b <=? 247) then
         match ts1 with
         | Octet b1 :: Octet b2 :: Octet b3 :: ts4 =>
             let c := (b - 240) * 262144 + (b1 - 128) * 4096
                      + (b2 - 128) * 64 + (b3 - 128) in
             if continuation b1 && continuation b2 && continuation b3
                && (65536 <=? c) && (c <? 1114112)
             then option_map (cons c) (assemble ts4) else None
         | _ => None
         end
       else None)%N
  end.

Definition decodeURIComponent (s : str) : outcome str :=
  match unescape s with
  | Some ts => match assemble ts with
               | Some r => Ok r
               | None => Throw URIError
               end
  | None => Throw URIError
  end.

End URI.

Fixpoint foldM {A B} (f : A -> B -> outcome A) (l : list B) (a : A)
  : outcome A :=
  match l with
  | [] => Ok a
  | b :: l' => do a' <- f a b; foldM f l' a'
  end.

(** ** Ordinary objects used as maps

    The own enumerable string-keyed properties in creation order. *)

Section Object.
Variable V : Type.

Definition obj : Type := list (str * V).

Fixpoint obj_get (o : obj) (k : str) : option V :=
  match o with
  | [] => None
  | (k', v) :: o' => if eqb k' k then Some v else obj_get o' k
  end.

(** Writing an own data property: an existing key keeps its place, a new
    key is created last. *)
Fixpoint obj_set (o : obj) (k : str) (v : V) : obj :=
  match o with
  | [] => [(k, v)]
  | (k', v') :: o' =>
      if eqb k' k then (k', v) :: o' else (k', v') :: obj_set o' k v
  end.

End Object.

(** ** CookieJar (source lines 255-284)

    A jar is an ordinary object used as a map: its own enumerable
    properties in creation order, a value being a string or
    [undefined].  Its prototype chain is [CookieJar.prototype] (which
    gets an enumerable [toString] by assignment on line 272) and
    [Object.prototype]. *)

Module Cookie.

Definition CookieJar : Type := obj (option str).

Definition get (jar : CookieJar) (k : str) : option (option str) :=
  obj_get jar k.

Definition has (jar : CookieJar) (k : str) : bool :=
  match get jar k with Some _ => true | None => false end.

(** [jar[k] = v] as [Object.assign] performs it.  Every property the
    chain already has under another name is a writable data property, so
    the write lands on the jar itself, except for [__proto__]: that one
    is an accessor of [Object.prototype] whose setter ignores a value
    that is neither an object nor [null]. *)
Definition set_property (jar : CookieJar) (k : str) (v : option str)
  : CookieJar :=
  if eqb k (js "__proto__") then jar else obj_set jar k v.

Definition semicolon : N := 59.
Definition equals : N := 61.

(** [const [key, val] = c.trim().split("=").map(decodeURIComponent)] *)
Definition parse_pair (c : str) : outcome (str * option str) :=
  do parts <- mapM URI.decodeURIComponent (split equals (trim c));
  match parts with
  | [] => Ok (string_of_undefined, None)
  | [key] => Ok (key, None)
  | key :: val :: _ => Ok (key, Some val)
  end.

(** [new CookieJar(cookie)]: the reduction over the segments, threading
    [this] *)
Definition reduce_step (res : CookieJar) (c : str) : outcome CookieJar :=
  do '(key, val) <- parse_pair c;
  Ok (set_property res key val).

Definition CookieJar_new (cookie : str) : outcome CookieJar :=
  foldM reduce_step (split semicolon cookie) [].

(** *** Enumeration order of [for (const key in this)] *)

Definition is_digit (c : N) : bool := ((48 <=? c) && (c <=? 57))%N.

Definition digits_value (k : str) : N :=
  fold_left (fun acc d => 10 * acc + (d - 48))%N k 0%N.

(** An array index is the canonical decimal form of an integer below
    2^32 - 1. *)
Definition array_index (k : str) : option N :=
  match k with
  | [] => None
  | d :: k' =>
      if forallb is_digit k
         && ((negb (d =? 48)%N) || match k' with [] => true | _ => false end)
         && (length k <=? 10)%nat
         && (digits_value k <=? 4294967294)%N
      then Some (digits_value k) else None
  end.

Fixpoint insert_index (e : N * str) (l : list (N * str)) : list (N * str) :=
  match l with
  | [] => [e]
  | x :: l' => if (fst e <=? fst x)%N then e :: l else x :: insert_index e l'
  end.

Definition sort_index (l : list (N * str)) : list (N * str) :=
  fold_right insert_index [] l.

Definition index_keys (keys : list str) : list (N * str) :=
  flat_map (fun k => match array_index k with
                     | Some i => [(i, k)]
                     | None => []
                     end) keys.

Definition is_index (k : str) : bool :=
  match array_index k with Some _ => true | None => false end.

(** Own keys: array indices in ascending order, then the other strings in
    creation order. *)
Definition own_keys (jar : CookieJar) : list str :=
  let keys := map fst jar in
  map snd (sort_index (index_keys keys))
  ++ filter (fun k => negb (is_index k)) keys.

(** Then the enumerable properties of the prototypes that the jar does
    not shadow: only [toString]. *)
Definition for_in_keys (jar : CookieJar) : list str :=
  own_keys jar ++ (if has jar (js "toString") then [] else [js "toString"]).

(** [(this as Object).hasOwnProperty(key)]: the method is looked up on
    the jar first. *)
Definition hasOwnProperty (this : CookieJar) (key : str) : outcome bool :=
  match get this (js "hasOwnProperty") with
  | Some _ => Throw TypeError
  | None => Ok (has this key)
  end.

(** [this[key]] converted to a string by [encodeURIComponent] *)
Definition property_string (this : CookieJar) (key : str) : str :=
  match get this key with
  | Some (Some v) => v
  | _ => string_of_undefined
  end.

(** The function assigned to [CookieJar.prototype.toString] *)
Definition toString_step (this : CookieJar) (pairs : list str) (key : str)
  : outcome (list str) :=
  do own <- hasOwnProperty this key;
  if own : bool then
    do k <- URI.encodeURIComponent key;
    do v <- URI.encodeURIComponent (property_string this key);
    Ok (pairs ++ [k ++ equals :: v])
  else Ok pairs.

Definition toString_body (this : CookieJar) : outcome str :=
  do pairs <- foldM (toString_step this) (for_in_keys this) [];
  Ok (join semicolon pairs).

(** [jar.toString()]: an own [toString] property is a string or
    [undefined], and calling it throws. *)
Definition toString (jar : CookieJar) : outcome str :=
  match get jar (js "toString") with
  | Some _ => Throw TypeError
  | None => toString_body jar
  end.

End Cookie.

Import Cookie.

(** ** Regular expressions

    [new RegExp(source)] without flags, and [exec], for the pattern
    language routes are written in: literals, [.], character classes,
    the class escapes [\d \w \s] and their complements, control and
    identity escapes, [^] and [$], groups (capturing and [(?:...)]),
    alternation and the quantifiers [* + ? {n} {n,} {n,m}] with their
    lazy forms.  Look-around, back-references, word boundaries, named
    groups and numeric escapes are outside this fragment.

    Matching follows the continuation-passing matchers by which the
    standard defines it (backtracking, leftmost alternative first).  The
    subject of a route's pattern is a URL path, which the URL parser
    leaves percent-encoded, so matching per code point and per code unit
    agree on it. *)

Module RegExp.

Inductive regex : Type :=
| Empty
| Char (c : N)
| Any
| Class (negated : bool) (ranges : list (N * N))
| Bol
| Eol
| Seq (r1 r2 : regex)
| Alt (r1 r2 : regex)
| Group (i : nat) (r : regex)
| Repeat (min : nat) (max : option nat) (greedy : bool) (r : regex).

(** *** Compiling a pattern source *)

Inductive qstate : Type :=
| Plain        (* an atom, may take a quantifier *)
| Quantified   (* greedily quantified, may take the lazy mark *)
| Fixed.       (* an assertion or a lazily quantified atom *)

Record frame : Type := Frame {
  capture : option nat;            (* the number of the group being read *)
  alts : list regex;               (* finished alternatives, last first *)
  terms : list (regex * qstate)    (* the current alternative, last first *)
}.

Inductive class_atom : Type :=
| CChar (c : N)
| CDash
| CSet (ranges : list (N * N)).

Inductive mode : Type :=
| Normal
| Escape
| Open
| OpenQ
| Bracket
| InClass (negated : bool) (atoms : list class_atom)
| ClassEscape (negated : bool) (atoms : list class_atom)
| BraceMin (digits : option nat)
| BraceMax (min : nat) (digits : option nat).

Record pstate : Type := PState {
  md : mode;
  inner : frame;
  outer : list frame;
  ngroups : nat
}.

Definition seq_of (ts : list regex) : regex := fold_right Seq Empty ts.

Fixpoint alt_of (l : list regex) : regex :=
  match l with
  | [] => Empty
  | [r] => r
  | r :: l' => Alt r (alt_of l')
  end.

Definition close_alt (f : frame) : list regex :=
  seq_of (rev (map fst (terms f))) :: alts f.

Definition frame_regex (f : frame) : regex := alt_of (rev (close_alt f)).

Definition max_code_point : N := 1114111.

Fixpoint complement_from (lo : N) (rs : list (N * N)) : list (N * N) :=
  match rs with
  | [] => [(lo, max_code_point)]
  | (a, b) :: rs' =>
      (if (lo <? a)%N then [(lo, a - 1)%N] else [])
      ++ complement_from (b + 1)%N rs'
  end.

Definition digit_ranges : list (N * N) := [(48, 57)]%N.
Definition word_ranges : list (N * N) :=
  [(48, 57); (65, 90); (95, 95); (97, 122)]%N.
Definition space_ranges : list (N * N) :=
  [(9, 13); (32, 32); (160, 160); (5760, 5760); (8192, 8202); (8232, 8233);
   (8239, 8239); (8287, 8287); (12288, 12288); (65279, 65279)]%N.

Definition alnum (c : N) : bool :=
  ((48 <=? c) && (c <=? 57) || (65 <=? c) && (c <=? 90)
   || (97 <=? c) && (c <=? 122) || (c =? 95))%N.

(** The ranges denoted by the character after a backslash, inside or
    outside a class; [in_class] makes [\b] a backspace. *)
Definition escape_ranges (in_class : bool) (c : N) : option (list (N * N)) :=
  (if c =? 100 then Some digit_ranges
   else if c =? 68 then Some (complement_from 0 digit_ranges)
   else if c =? 119 then Some word_ranges
   else if c =? 87 then Some (complement_from 0 word_ranges)
   else if c =? 115 then Some space_ranges
   else if c =? 83 then Some (complement_from 0 space_ranges)
   else if c =? 116 then Some [(9, 9)]
   else if c =? 110 then Some [(10, 10)]
   else if c =? 118 then Some [(11, 11)]
   else if c =? 102 then Some [(12, 12)]
   else if c =? 114 then Some [(13, 13)]
   else if (c =? 98) && in_class then Some [(8, 8)]
   else if (c <? 128) && negb (alnum c) then Some [(c, c)]
   else None)%N.

Definition atom_of_ranges (rs : list (N * N)) : regex :=
  match rs with
  | [(a, b)] => if (a =? b)%N then Char a else Class false rs
  | _ => Class false rs
  end.

Definition class_atom_of_ranges (rs : list (N * N)) : class_atom :=
  match rs with
  | [(a, b)] => if (a =? b)%N then CChar a else CSet rs
  | _ => CSet rs
  end.

Definition single (a : class_atom) : option N :=
  match a with
  | CChar c => Some c
  | CDash => Some 45%N
  | CSet _ => None
  end.

Definition atom_ranges (a : class_atom) : list (N * N) :=
  match a with
  | CChar c => [(c, c)]
  | CDash => [(45, 45)]%N
  | CSet rs => rs
  end.

(** The ranges of a class from its atoms in source order; [a-b] with
    [a > b] is a syntax error. *)
Fixpoint class_ranges (atoms : list class_atom) : option (list (N * N)) :=
  match atoms with
  | [] => Some []
  | a :: rest =>
      match rest with
      | CDash :: b :: rest' =>
          match single a, single b with
          | Some x, Some y =>
              if (x <=? y)%N
              then option_map (cons (x, y)) (class_ranges rest')
              else None
          | _, _ =>
              option_map (app (atom_ranges a ++ atom_ranges CDash
                               ++ atom_ranges b))
                         (class_ranges rest')
          end
      | _ => option_map (app (atom_ranges a)) (class_ranges rest)
      end
  end.

Definition with_mode (st : pstate) (m : mode) : pstate :=
  PState m (inner st) (outer st) (ngroups st).

Definition push_term (st : pstate) (r : regex) (q : qstate) : pstate :=
  let f := inner st in
  PState Normal (Frame (capture f) (alts f) ((r, q) :: terms f))
         (outer st) (ngroups st).

Definition quantify (st : pstate) (min : nat) (max : option nat)
  : option pstate :=
  let f := inner st in
  match terms f with
  | (r, Plain) :: ts =>
      Some (PState Normal
              (Frame (capture f) (alts f)
                     ((Repeat min max true r, Quantified) :: ts))
              (outer st) (ngroups st))
  | _ => None
  end.

Definition question (st : pstate) : option pstate :=
  let f := inner st in
  match terms f with
  | (_, Plain) :: _ => quantify st 0 (Some 1)
  | (Repeat min max _ r, Quantified) :: ts =>
      Some (PState Normal
              (Frame (capture f) (alts f)
                     ((Repeat min max false r, Fixed) :: ts))
              (outer st) (ngroups st))
  | _ => None
  end.

Definition open_group (st : pstate) (capturing : bool) : pstate :=
  if capturing
  then PState Normal (Frame (Some (S (ngroups st))) [] [])
              (inner st :: outer st) (S (ngroups st))
  else PState Normal (Frame None [] []) (inner st :: outer st) (ngroups st).

Definition close_group (st : pstate) : option pstate :=
  match outer st with
  | [] => None
  | f :: fs =>
      let r := frame_regex (inner st) in
      let t := match capture (inner st) with
               | Some i => Group i r
               | None => r
               end in
      Some (PState Normal (Frame (capture f) (alts f) ((t, Plain) :: terms f))
                   fs (ngroups st))
  end.

Definition next_alternative (st : pstate) : pstate :=
  let f := inner st in
  PState Normal (Frame (capture f) (close_alt f) []) (outer st) (ngroups st).

Definition digit_of (c : N) : option nat :=
  if ((48 <=? c) && (c <=? 57))%N then Some (N.to_nat (c - 48)) else None.

Definition more_digits (d : option nat) (v : nat) : option nat :=
  match d with
  | None => Some v
  | Some n => Some (10 * n + v)
  end.

Definition step_normal (st : pstate) (c : N) : option pstate :=
  (if c =? 92 then Some (with_mode st Escape)
   else if c =? 40 then Some (with_mode st Open)
   else if c =? 41 then close_group st
   else if c =? 91 then Some (with_mode st Bracket)
   else if c =? 124 then Some (next_alternative st)
   else if c =? 42 then quantify st 0 None
   else if c =? 43 then quantify st 1 None
   else if c =? 63 then question st
   else if c =? 123 then Some (with_mode st (BraceMin None))
   else if c =? 94 then Some (push_term st Bol Fixed)
   else if c =? 36 then Some (push_term st Eol Fixed)
   else if c =? 46 then Some (push_term st Any Plain)
   else Some (push_term st (Char c) Plain))%N.

Definition step_class (st : pstate) (negated : bool)
           (atoms : list class_atom) (c : N) : option pstate :=
  (if c =? 93 then
     match class_ranges (rev atoms) with
     | Some rs => Some (push_term st (Class negated rs) Plain)
     | None => None
     end
   else if c =? 92 then Some (with_mode st (ClassEscape negated atoms))
   else if c =? 45 then Some (with_mode st (InClass negated (CDash :: atoms)))
   else Some (with_mode st (InClass negated (CChar c :: atoms))))%N.

(** One source character *)
Definition step (st : pstate) (c : N) : option pstate :=
  match md st with
  | Normal => step_normal st c
  | Escape =>
      match escape_ranges false c with
      | Some rs => Some (push_term st (atom_of_ranges rs) Plain)
      | None => None
      end
  | Open =>
      if (c =? 63)%N then Some (with_mode st OpenQ)
      else step_normal (open_group st true) c
  | OpenQ =>
      if (c =? 58)%N then Some (open_group st false) else None
  | Bracket =>
      if (c =? 94)%N then Some (with_mode st (InClass true []))
      else step_class st false [] c
  | InClass negated atoms => step_class st negated atoms c
  | ClassEscape negated atoms =>
      match escape_ranges true c with
      | Some rs =>
          Some (with_mode st
                  (InClass negated (class_atom_of_ranges rs :: atoms)))
      | None => None
      end
  | BraceMin d =>
      match digit_of c with
      | Some v => Some (with_mode st (BraceMin (more_digits d v)))
      | None =>
          match d with
          | Some n =>
              if (c =? 44)%N then Some (with_mode st (BraceMax n None))
              else if (c =? 125)%N then quantify st n (Some n)
              else None
          | None => None
          end
      end
  | BraceMax n d =>
      match digit_of c with
      | Some v => Some (with_mode st (BraceMax n (more_digits d v)))
      | None =>
          if (c =? 125)%N then
            match d with
            | None => quantify st n None
            | Some m => if (n <=? m)%nat then quantify st n (Some m) else None
            end
          else None
      end
  end.

Fixpoint run (s : str) (st : pstate) : option pstate :=
  match s with
  | [] => Some st
  | c :: s' => match step st c with
               | Some st' => run s' st'
               | None => None
               end
  end.

Definition initial : pstate := PState Normal (Frame None [] []) [] 0.

Definition finish (st : pstate) : option (regex * nat) :=
  match md st, outer st with
  | Normal, [] => Some (frame_regex (inner st), ngroups st)
  | _, _ => None
  end.

Record RegExp : Type := {
  source : str;
  program : regex;
  group_count : nat
}.

(** [new RegExp(source)]; [None] when the source is not a pattern of the
    fragment (for an ill-formed source the constructor throws a
    SyntaxError). *)
Definition RegExp_new (src : str) : option RegExp :=
  match run src initial with
  | Some st =>
      match finish st with
      | Some (r, n) => Some {| source := src; program := r; group_count := n |}
      | None => None
      end
  | None => None
  end.

(** *** Matching *)

Record mstate : Type := MState {
  pos : nat;                        (* endIndex *)
  caps : list (nat * (nat * nat))   (* group number, start, end: newest first *)
}.

Definition cont : Type := mstate -> option mstate.

Fixpoint groups_of (r : regex) : list nat :=
  match r with
  | Seq r1 r2 | Alt r1 r2 => groups_of r1 ++ groups_of r2
  | Group i r' => i :: groups_of r'
  | Repeat _ _ _ r' => groups_of r'
  | _ => []
  end.

Definition clear (gs : list nat) (x : mstate) : mstate :=
  MState (pos x)
         (filter (fun e => negb (existsb (Nat.eqb (fst e)) gs)) (caps x)).

Definition in_ranges (c : N) (rs : list (N * N)) : bool :=
  existsb (fun r => (fst r <=? c) && (c <=? snd r))%N rs.

Definition line_terminator (c : N) : bool :=
  ((c =? 10) || (c =? 13) || (c =? 8232) || (c =? 8233))%N.

Definition pred_max (max : option nat) : option nat := option_map pred max.

Definition exhausted (max : option nat) : bool :=
  match max with Some 0 => true | _ => false end.

Section Matcher.
Variable input : str.

Definition consume (test : N -> bool) (x : mstate) (c : cont)
  : option mstate :=
  match nth_error input (pos x) with
  | Some a => if test a then c (MState (S (pos x)) (caps x)) else None
  | None => None
  end.

(** RepeatMatcher once the minimum is met.  An iteration that consumes
    nothing is rejected, so at most [n] iterations can follow when [n]
    characters remain; with none left the only outcome is to stop. *)
Fixpoint repeat_star (n : nat) (m : mstate -> cont -> option mstate)
         (gs : list nat) (max : option nat) (greedy : bool)
         (x : mstate) (c : cont) : option mstate :=
  if exhausted max then c x
  else
    match n with
    | 0 => c x
    | S n' =>
        let d := fun y =>
                   if pos y =? pos x then None
                   else repeat_star n' m gs (pred_max max) greedy y c in
        if greedy
        then match m (clear gs x) d with
             | Some z => Some z
             | None => c x
             end
        else match c x with
             | Some z => Some z
             | None => m (clear gs x) d
             end
    end.

(** RepeatMatcher while iterations are still owed *)
Fixpoint repeat_min (min : nat) (m : mstate -> cont -> option mstate)
         (gs : list nat) (max : option nat) (greedy : bool)
         (x : mstate) (c : cont) : option mstate :=
  match min with
  | 0 => repeat_star (length input - pos x) m gs max greedy x c
  | S min' =>
      if exhausted max then c x
      else m (clear gs x)
             (fun y => repeat_min min' m gs (pred_max max) greedy y c)
  end.

Fixpoint matcher (r : regex) (x : mstate) (c : cont) : option mstate :=
  match r with
  | Empty => c x
  | Char ch => consume (N.eqb ch) x c
  | Any => consume (fun a => negb (line_terminator a)) x c
  | Class negated rs => consume (fun a => xorb negated (in_ranges a rs)) x c
  | Bol => if pos x =? 0 then c x else None
  | Eol => if pos x =? length input then c x else None
  | Seq r1 r2 => matcher r1 x (fun y => matcher r2 y c)
  | Alt r1 r2 =>
      match matcher r1 x c with
      | Some z => Some z
      | None => matcher r2 x c
      end
  | Group i r' =>
      matcher r' x (fun y => c (MState (pos y) ((i, (pos x, pos y)) :: caps y)))
  | Repeat min max greedy r' =>
      repeat_min min (matcher r') (groups_of r') max greedy x c
  end.

(** The first start index, from [i] on and among [n + 1] of them, at
    which the pattern matches *)
Fixpoint search (r : regex) (n : nat) (i : nat) : option (nat * mstate) :=
  match matcher r (MState i []) Some with
  | Some y => Some (i, y)
  | None => match n with
            | 0 => None
            | S n' => search r n' (S i)
            end
  end.

End Matcher.

Definition substring (s : str) (from to : nat) : str :=
  firstn (to - from) (skipn from s).

Fixpoint capture_of (cs : list (nat * (nat * nat))) (i : nat)
  : option (nat * nat) :=
  match cs with
  | [] => None
  | (j, span) :: cs' => if Nat.eqb j i then Some span else capture_of cs' i
  end.

(** The array [exec] returns: its [index] and its elements, the matched
    text first, then one entry per capturing group ([None] for a group
    that did not take part, which the array holds as [undefined]). *)
Record MatchArray : Type := {
  index : nat;
  elements : list (option str)
}.

Definition exec (re : RegExp) (s : str) : option MatchArray :=
  match search s (program re) (length s) 0 with
  | Some (i, y) =>
      Some {| index := i;
              elements :=
                Some (substring s i (pos y))
                :: map (fun g => option_map
                                   (fun span => substring s (fst span) (snd span))
                                   (capture_of (caps y) g))
                       (seq 1 (group_count re)) |}
  | None => None
  end.

(** [match.slice(1)] *)
Definition slice1 (m : MatchArray) : list (option str) := tl (elements m).

End RegExp.

Import RegExp.

(** ** JavaScript values that travel as JSON *)

Inductive value : Type :=
| VUndefined
| VNull
| VBool (b : bool)
| VNumber (binary64 : N)   (* the bits of the double; no arithmetic is done *)
| VString (s : str)
| VArray (l : list value)
| VObject (props : obj value).

(** [v.name] for a name no prototype defines: [undefined] unless [v] is
    an object holding it; reading a property of [undefined] or [null]
    throws. *)
Definition property (v : value) (name : str) : outcome value :=
  match v with
  | VUndefined | VNull => Throw TypeError
  | VObject props =>
      match obj_get props name with
      | Some x => Ok x
      | None => Ok VUndefined
      end
  | _ => Ok VUndefined
  end.

(** ** The router (source lines 7-253) *)

Inductive ContentType : Type :=
| application_json
| application_javascript
| application_octet_stream
| text_plain
| text_css
| text_html.

Definition ContentType_str (t : ContentType) : str :=
  match t with
  | application_json => js "application/json"
  | application_javascript => js "application/javascript"
  | application_octet_stream => js "application/octet-stream"
  | text_plain => js "text/plain"
  | text_css => js "text/css"
  | text_html => js "text/html"
  end.

Inductive header_value : Type :=
| HUndefined
| HString (s : str)
| HCookieJar (jar : CookieJar).

Definition HTTPHeaders : Type := obj header_value.

Inductive ReadableStream : Type :=
| Stream (id : N).

(** A response descriptor: every key is optional, a present key is
    [Some]. *)
Record HTTPResponse : Type := {
  status : option Z;
  headers : option HTTPHeaders;
  json : option value;
  text : option str;
  html : option str;
  stream : option ReadableStream
}.

(** The transport layer: the standard [Request] with its URL already
    parsed, and the standard [Response] as the record of what its
    constructor is given. *)
Record URL : Type := {
  pathname : str;
  searchParams : list (str * str)
}.

Record Request : Type := {
  request_method : str;
  request_url : URL;
  request_headers : list (str * str);   (* names in lower case *)
  request_body : str
}.

Inductive body : Type :=
| BodyUndefined
| BodyString (s : str)
| BodyStream (s : ReadableStream).

Record Response : Type := {
  response_body : body;
  response_status : Z;
  response_headers : obj str
}.

(** [params.get(name)] and [headers.get(name)]: the first value, or
    [null] *)
Definition lookup (l : list (str * str)) (name : str) : option str :=
  obj_get l name.

(** [x || y] on a string or [null] *)
Definition or_else (x : option str) (y : str) : str :=
  match x with
  | Some ((_ :: _) as s) => s
  | _ => y
  end.

(** [x || undefined] *)
Definition or_undefined (x : option str) : option str :=
  match x with
  | Some ((_ :: _) as s) => Some s
  | _ => None
  end.

Record HTTPRequest : Type := {
  method : str;
  url : URL;
  query : list (str * str);
  request_headers_of : list (str * str);
  cookie : CookieJar;
  request : Request
}.

Definition HTTPRequest_new (request : Request) : outcome HTTPRequest :=
  do jar <- CookieJar_new
              (or_else (lookup (request_headers request) (js "cookie")) []);
  Ok {| method := request_method request;
        url := request_url request;
        query := searchParams (request_url request);
        request_headers_of := request_headers request;
        cookie := jar;
        request := request |}.

Definition HTTPRequest_text (r : HTTPRequest) : outcome str :=
  Ok (request_body (request r)).

Record Route : Type := {
  route_method : str;
  pattern : RegExp;
  handler : str
}.

Definition Route_new (method : str) (pattern : RegExp) (handler : str)
  : Route :=
  {| route_method := toLowerCase method;
     pattern := pattern;
     handler := handler |}.

Definition Route_match (this : Route) (request : HTTPRequest)
  : option MatchArray :=
  if negb (eqb (toLowerCase (method request)) (route_method this))
  then None
  else exec (pattern this) (pathname (url request)).

(** [Application.method(name)(pattern)(target, property)]: [target] is
    the registry the decorated prototype owns, if it owns one; the
    result is the registry it owns afterwards.  [None] when the pattern
    has no regular expression (the decorator then throws). *)
Definition Application_method (name : str) (pattern : str)
           (target : option (list Route)) (property : str)
  : option (list Route) :=
  match RegExp_new (js "^" ++ pattern ++ js "$") with
  | Some re =>
      let own := match target with
                 | Some routes => routes
                 | None => []
                 end in
      Some (own ++ [Route_new name re property])
  | None => None
  end.

Definition Application_get := Application_method (js "get").
Definition Application_post := Application_method (js "post").
Definition Application_put := Application_method (js "put").
Definition Application_delete := Application_method (js "delete").
Definition Application_options := Application_method (js "options").

Definition dot : N := 46.

Definition contentTypeMap : obj ContentType :=
  [(js "json", application_json);
   (js "js", application_javascript);
   (js "html", text_html);
   (js "css", text_css);
   (js "txt", text_html)].

Definition inferContentType (fileName : str) : ContentType :=
  let dotIndex := lastIndexOf dot fileName in
  if negb (dotIndex =? -1)%Z then
    let suffix := substr (dotIndex + 1) fileName in
    match obj_get contentTypeMap suffix with   (* hasOwnProperty, then read *)
    | Some t => t
    | None => application_octet_stream
    end
  else application_octet_stream.

Definition handleNotFound (request : HTTPRequest) : HTTPResponse :=
  {| status := Some 404%Z; headers := None; json := None;
     text := Some (js "404 not found"); html := None; stream := None |}.

Definition handleInternalError (request : HTTPRequest) : HTTPResponse :=
  {| status := Some 500%Z; headers := None; json := None;
     text := Some (js "500 internal error"); html := None; stream := None |}.

(** [headers[key]!.toString()] *)
Definition header_string (v : header_value) : outcome str :=
  match v with
  | HUndefined => Throw TypeError
  | HString s => Ok s
  | HCookieJar jar => Cookie.toString jar
  end.

(** The body of the loop [for (key in headers)] of [encodeResponse] *)
Definition encode_header (encodedHeaders : obj str)
           (entry : str * header_value) : outcome (obj str) :=
  match snd entry with
  | HUndefined => Ok encodedHeaders
  | v => do s <- header_string v;
         Ok (obj_set encodedHeaders (fst entry) s)
  end.

(** What a running request leaves behind besides its result *)
Inductive event : Type :=
| Invoked (handler : str) (captures : list (option str))
| Logged (e : exn).

(** A handler, awaited: the descriptor it resolves to, or what it throws
    (a synchronous throw and a rejected promise reach the same [catch]). *)
Definition RequestHandler : Type :=
  HTTPRequest -> list (option str) -> outcome HTTPResponse.

(** An instance of a concrete application: the registry its prototype
    chain gives under [ROUTE_NAME] (none when no class of the chain was
    decorated), and the properties handlers are looked up in.
    [handleNotFound] and [handleInternalError] are the ones the base
    class defines. *)
Record Application : Type := {
  routes : option (list Route);
  methods : str -> option RequestHandler
}.

(** The prototype a decorator is handed and an instance is created from,
    as far as registries go: the registry it owns under [ROUTE_NAME], if
    it owns one, and what the prototypes above it own, nearest first. *)
Record Prototype : Type := {
  own_registry : option (list Route);
  parent_registries : list (option (list Route))
}.

(** A property read through a chain of prototypes: the nearest one that
    owns it answers. *)
Fixpoint inherited (chain : list (option (list Route)))
  : option (list Route) :=
  match chain with
  | [] => None
  | Some registry :: _ => Some registry
  | None :: up => inherited up
  end.

(** [proto[Application.ROUTE_NAME]] (line 169) *)
Definition registry_of (target : Prototype) : option (list Route) :=
  inherited (own_registry target :: parent_registries target).

(** A decorator [@Application.method(name)(pattern)] on the method
    [property] of the class whose prototype is [target]: lines 59-65 test
    and write [target]'s own property. *)
Definition decorate (name pattern property : str) (target : Prototype)
  : option Prototype :=
  match Application_method name pattern (own_registry target) property with
  | Some registry =>
      Some {| own_registry := Some registry;
              parent_registries := parent_registries target |}
  | None => None
  end.

(** [new C()] for the class [C] whose prototype is [target] *)
Definition instance (target : Prototype)
           (methods : str -> option RequestHandler) : Application :=
  {| routes := registry_of target; methods := methods |}.

Section Router.

(** [JSON.stringify]: a string, [undefined], or an exception *)
Variable JSON_stringify : value -> outcome (option str).

(** The chain [if ("json" in responseObj) ... else if ...] of
    [encodeResponse]: the body, and the headers object after the
    assignment of the content type (the assignment writes into the
    descriptor's own headers object when it has one) *)
Definition encode_body (responseObj : HTTPResponse) (headers : HTTPHeaders)
  : outcome (body * HTTPHeaders) :=
  match json responseObj, text responseObj, html responseObj,
        stream responseObj with
  | Some j, _, _, _ =>
      do s <- JSON_stringify j;
      Ok (match s with Some s' => BodyString s' | None => BodyUndefined end,
          obj_set headers (js "content-type")
                  (HString (js "application/json")))
  | None, Some t, _, _ =>
      Ok (BodyString t,
          obj_set headers (js "content-type") (HString (js "text/plain")))
  | None, None, Some h, _ =>
      Ok (BodyString h,
          obj_set headers (js "content-type") (HString (js "text/html")))
  | None, None, None, Some st => Ok (BodyStream st, headers)
  | None, None, None, None => Ok (BodyString [], headers)
  end.

Definition encodeResponse (responseObj : HTTPResponse) : outcome Response :=
  let headers : HTTPHeaders :=
    match headers responseObj with
    | Some h => h
    | None => []
    end in
  let status :=
    match status responseObj with
    | Some n => n
    | None => 200%Z
    end in
  do '(response, headers) <- encode_body responseObj headers;
  do encodedHeaders <- foldM encode_header headers [];
  Ok {| response_body := response;
        response_status := status;
        response_headers := encodedHeaders |}.

(** The loop of [handleRequest] from a given route on.  The trace lists
    the handler calls made and the errors written to the console. *)
Fixpoint dispatch (this : Application) (parsedRequest : HTTPRequest)
         (routes : list Route) : list event * outcome Response :=
  match routes with
  | [] => ([], encodeResponse (handleNotFound parsedRequest))
  | route :: rest =>
      match Route_match route parsedRequest with
      | Some m =>
          match methods this (handler route) with
          | None => ([], Throw TypeError)
          | Some handler_fn =>
              let call := Invoked (handler route) (slice1 m) in
              match (do response <- handler_fn parsedRequest (slice1 m);
                     encodeResponse response) with
              | Ok r => ([call], Ok r)
              | Throw e =>
                  ([call; Logged e],
                   encodeResponse (handleInternalError parsedRequest))
              end
          end
      | None => dispatch this parsedRequest rest
      end
  end.

Definition handleRequest (this : Application) (request : Request)
  : list event * outcome Response :=
  match HTTPRequest_new request with
  | Throw e => ([], Throw e)
  | Ok parsedRequest =>
      match routes this with
      | None => ([], Throw TypeError)
      | Some registry => dispatch this parsedRequest registry
      end
  end.

(** *** The GraphQL adapter *)

Variable JSON_parse : str -> outcome value.

Variable GraphQLSchema : Type.

(** [graphql(schema, source, rootValue, contextValue, variableValues,
    operationName)] *)
Variable graphql :
  GraphQLSchema -> value -> value -> value -> value -> value -> outcome value.

Definition HTTPRequest_json (r : HTTPRequest) : outcome value :=
  JSON_parse (request_body (request r)).

Definition value_of_string (s : option str) : value :=
  match s with
  | Some s' => VString s'
  | None => VUndefined
  end.

Definition getGraphQLQuery (request : HTTPRequest) : outcome value :=
  let m := toLowerCase (method request) in
  if eqb m (js "get") then
    let params := query request in
    let query := lookup params (js "query") in
    let operationName := or_undefined (lookup params (js "operationName")) in
    let variables := or_undefined (lookup params (js "variables")) in
    match query with
    | None => Ok VNull
    | Some q =>
        match (match variables with
               | Some v => JSON_parse v
               | None => Ok VUndefined
               end) with
        | Ok vars =>
            Ok (VObject [(js "query", VString q);
                         (js "operationName", value_of_string operationName);
                         (js "variables", vars)])
        | Throw _ => Ok VNull
        end
    end
  else if eqb m (js "post") then
    match lookup (request_headers_of request) (js "content-type") with
    | Some ct =>
        if eqb ct (js "application/json") then HTTPRequest_json request
        else if eqb ct (js "application/graphql") then
          do t <- HTTPRequest_text request;
          Ok (VObject [(js "query", VString t)])
        else Ok VNull
    | None => Ok VNull
    end
  else Ok VNull.

Definition handleGraphQLRequest (schema : GraphQLSchema)
           (request : HTTPRequest) : outcome HTTPResponse :=
  do graphQLRequest <- getGraphQLQuery request;
  match graphQLRequest with
  | VNull =>
      Ok {| status := Some 400%Z; headers := None; json := None;
            text := Some (js "400 bad request"); html := None;
            stream := None |}
  | _ =>
      do q <- property graphQLRequest (js "query");
      do vars <- property graphQLRequest (js "variables");
      do op <- property graphQLRequest (js "operationName");
      do result <- graphql schema q VUndefined VUndefined vars op;
      Ok {| status := None; headers := None; json := Some result;
            text := None; html := None; stream := None |}
  end.

End Router.

(** ** Notions the properties are stated with *)

Module Spec.

(** [a] is [b] up to the case of its ASCII letters. *)
Definition ascii_letter (c : N) : bool :=
  ((65 <=? c) && (c <=? 90) || (97 <=? c) && (c <=? 122))%N.

Definition same_letter (x y : N) : Prop :=
  x = y \/ (ascii_letter x = true /\ ascii_letter y = true
            /\ (x = y + 32 \/ y = x + 32)%N).

Definition letter_case_of (a b : str) : Prop := Forall2 same_letter a b.

(** A code point [encodeURIComponent] accepts: a Unicode scalar value
    (a lone surrogate makes it throw). *)
Definition scalar (c : N) : bool :=
  ((c <? 1114112) && negb ((55296 <=? c) && (c <=? 57343)))%N.

(** What [encodeURIComponent] writes: unreserved characters and percent
    signs. *)
Definition plain (c : N) : Prop :=
  URI.unreserved c = true \/ c = URI.percent.

(** The tokens [encodeURIComponent] leaves for one code point *)
Definition tokens_of (c : N) : list URI.token :=
  if URI.unreserved c then [URI.Raw c]
  else match URI.utf8 c with
       | Some octets => map URI.Octet octets
       | None => []
       end.

(** A well-formed cookie string: Unicode scalar values only, and every
    segment between semicolons holds exactly one equals sign (so it reads
    [key=value] with no equals sign in the key or in the value). *)
Definition well_formed_cookie (cookie : str) : bool :=
  forallb scalar cookie
  && forallb (fun seg => count_occ N.eq_dec seg Cookie.equals =? 1)
             (split Cookie.semicolon cookie).

Definition proto : str := js "__proto__".

(** One assignment of the constructor's reduction *)
Definition assign (jar : CookieJar) (kv : str * option str) : CookieJar :=
  set_property jar (fst kv) (snd kv).

(** What the constructor leaves in a jar built from a well-formed
    cookie string: keys and values of scalar values, no value
    [undefined], no key [__proto__]. *)
Definition good_entry (kv : str * option str) : Prop :=
  fst kv <> proto
  /\ Forall (fun c => scalar c = true) (fst kv)
  /\ exists v, snd kv = Some v /\ Forall (fun c => scalar c = true) v.

(** [p] is the text [toString] writes for the key [k] of [jar]. *)
Definition pair_of (jar : CookieJar) (k p : str) : Prop :=
  exists v ek ev,
    Cookie.get jar k = Some (Some v)
    /\ URI.encodeURIComponent k = Ok ek
    /\ URI.encodeURIComponent v = Ok ev
    /\ p = ek ++ Cookie.equals :: ev.

Definition value_in (jar : CookieJar) (k : str) : option str :=
  match Cookie.get jar k with
  | Some v => v
  | None => None
  end.

(** The value of the last entry under a key *)
Definition last_entry {V} (entries : list (str * V)) (k : str) : option V :=
  obj_get (rev entries) k.

(** A matcher that can only succeed through its continuation *)
Definition calls_continuation (m : mstate -> cont -> option mstate) : Prop :=
  forall x k z, m x k = Some z -> exists y, k y = Some z.

(** A matcher that, started inside the subject, consults its
    continuation only at positions between its own and the end *)
Definition local_matcher (input : str)
           (m : mstate -> cont -> option mstate) : Prop :=
  forall x k1 k2,
    pos x <= length input ->
    (forall y, pos x <= pos y <= length input -> k1 y = k2 y) ->
    m x k1 = m x k2.

(** The compiler's state after the same source behind a leading [^]:
    the assertion starts the first alternative of the outermost
    frame. *)
Fixpoint map_last {A} (g : A -> A) (l : list A) : list A :=
  match l with
  | [] => []
  | [a] => [g a]
  | a :: l' => a :: map_last g l'
  end.

Definition anchor_frame (f : frame) : frame :=
  match alts f with
  | [] => Frame (capture f) [] (terms f ++ [(Bol, Fixed)])
  | _ => Frame (capture f) (map_last (Seq Bol) (alts f)) (terms f)
  end.

Definition anchor_state (st : pstate) : pstate :=
  match outer st with
  | [] => PState (md st) (anchor_frame (inner st)) [] (ngroups st)
  | _ => PState (md st) (inner st) (map_last anchor_frame (outer st))
                (ngroups st)
  end.

(** The whole of [s] matches [r]: the matcher of [r], started at the
    first character, can reach the end of [s]. *)
Definition at_end (s : str) : cont :=
  fun y => if pos y =? length s then Some y else None.

Definition full_match (r : regex) (s : str) : Prop :=
  matcher s r (MState 0 []) (at_end s) <> None.

(** The handler calls of a trace, in order *)
Definition invocations (trace : list event)
  : list (str * list (option str)) :=
  flat_map (fun ev => match ev with
                      | Invoked h args => [(h, args)]
                      | Logged _ => []
                      end) trace.

(** A well-formed object has no key twice. *)
Definition distinct_keys {V} (o : obj V) : Prop := NoDup (map fst o).

Definition content_type : str := js "content-type".

(** [responseObj["headers"] || {}] *)
Definition descriptor_headers (resp : HTTPResponse) : HTTPHeaders :=
  match headers resp with Some h => h | None => [] end.

(** The field of a resolved GraphQL request *)
Definition field (g : value) (name : str) : value :=
  match g with
  | VObject props =>
      match obj_get props name with
      | Some x => x
      | None => VUndefined
      end
  | _ => VUndefined
  end.

Definition bad_request : HTTPResponse :=
  {| status := Some 400%Z; headers := None; json := None;
     text := Some (js "400 bad request"); html := None; stream := None |}.

Definition json_response (result : value) : HTTPResponse :=
  {| status := None; headers := None; json := Some result;
     text := None; html := None; stream := None |}.

Definition text_response (t : str) (h : option HTTPHeaders) : HTTPResponse :=
  {| status := None; headers := h; json := None;
     text := Some t; html := None; stream := None |}.

(** *** Concrete applications and requests *)

Definition get_request (path : str) (params : list (str * str)) : Request :=
  {| request_method := js "GET";
     request_url := {| pathname := path; searchParams := params |};
     request_headers := [];
     request_body := [] |}.

Definition post_request (method path : str) : Request :=
  {| request_method := method;
     request_url := {| pathname := path; searchParams := [] |};
     request_headers := [];
     request_body := [] |}.

(** [@get("/a|/b") either] and [@get("/items/([0-9]+)") item] *)
Definition either_route : option (list Route) :=
  Application_get (js "/a|/b") None (js "either").

Definition item_route : option (list Route) :=
  Application_get (js "/items/([0-9]+)") None (js "item").

(** Three routes declared in this order on one class:
    [@get("/.*") h0], [@get("/a") h1], [@get("/(a)") h2]. *)
Definition three_routes : option (list Route) :=
  match Application_get (js "/.*") None (js "h0") with
  | Some r0 =>
      match Application_get (js "/a") (Some r0) (js "h1") with
      | Some r1 => Application_get (js "/(a)") (Some r1) (js "h2")
      | None => None
      end
  | None => None
  end.

(** Every handler answers with its own name as text. *)
Definition three_routes_app : Application :=
  {| routes := three_routes;
     methods := fun name => Some (fun _ _ => Ok (text_response name None)) |}.

(** One route, [@get("/boom") boom], whose handler throws. *)
Definition failing_app : Application :=
  {| routes := Application_get (js "/boom") None (js "boom");
     methods := fun name => Some (fun _ _ => Throw (Thrown 7)) |}.

(** A [JSON.stringify] that gives up on everything; the examples that
    use it never reach it. *)
Definition no_stringify (v : value) : outcome (option str) := Throw TypeError.

(** A [JSON.parse] that accepts nothing, and an executor that answers
    [null]: enough for the examples that run the GraphQL adapter. *)
Definition no_parse (s : str) : outcome value := Throw SyntaxError.

Definition null_executor (schema : unit) (source root context variables
                                          operationName : value)
  : outcome value := Ok VNull.

(** [{ text: "hi", headers: { "content-type": "text/html" } }] *)
Definition text_as_html : HTTPResponse :=
  text_response (js "hi") (Some [(content_type, HString (js "text/html"))]).

(** *** Notions and examples of the further properties *)

(** The first route of a registry that matches a request, with its
    match *)
Fixpoint first_match (req : HTTPRequest) (registry : list Route)
  : option (Route * MatchArray) :=
  match registry with
  | [] => None
  | R :: rest =>
      match Route_match R req with
      | Some m => Some (R, m)
      | None => first_match req rest
      end
  end.

(** The transport response of a [text] descriptor without headers *)
Definition plain_text (status : Z) (t : str) : Response :=
  {| response_body := BodyString t;
     response_status := status;
     response_headers := [(js "content-type", js "text/plain")] |}.

(** One route, [@get("/echo") echo], whose handler sends the request's
    cookie jar back as [set-cookie]. *)
Definition echo_cookie_app : Application :=
  {| routes := Application_get (js "/echo") None (js "echo");
     methods := fun name =>
       Some (fun req _ =>
               Ok {| status := None;
                     headers := Some [(js "set-cookie",
                                       HCookieJar (cookie req))];
                     json := None; text := Some (js "ok");
                     html := None; stream := None |}) |}.

(** A GET request with a cookie header *)
Definition cookie_request (path header : str) : Request :=
  {| request_method := js "GET";
     request_url := {| pathname := path; searchParams := [] |};
     request_headers := [(js "cookie", header)];
     request_body := [] |}.

(** One route, [@get("/items/([0-9]+)") item]; the handler answers with
    its own name. *)
Definition item_app : Application :=
  {| routes := item_route;
     methods := fun name => Some (fun _ _ => Ok (text_response name None)) |}.




(** The transport response of a [json] descriptor without status and
    headers, given what [JSON.stringify] returned *)
Definition json_text (s : option str) : Response :=
  {| response_body := match s with
                      | Some x => BodyString x
                      | None => BodyUndefined
                      end;
     response_status := 200;
     response_headers := [(js "content-type", js "application/json")] |}.

(** A POST request with a content type and a body *)
Definition body_request (contentType content : str) : Request :=
  {| request_method := js "POST";
     request_url := {| pathname := js "/graphql"; searchParams := [] |};
     request_headers := [(js "content-type", contentType)];
     request_body := content |}.

(** An executor that fails on every request *)
Definition failing_executor (schema : unit) (source root context variables
                                             operationName : value)
  : outcome value := Throw (Thrown 3).

(** What [toString] writes: the characters [encodeURIComponent] leaves,
    and the two separators *)
Definition cookie_char (c : N) : Prop :=
  plain c \/ c = Cookie.equals \/ c = Cookie.semicolon.

(** [String(v)] for the value of a jar *)
Definition shown (v : option str) : str :=
  match v with
  | Some s => s
  | None => string_of_undefined
  end.

(** An entry [toString] can write and the constructor can store: no key
    [__proto__], Unicode scalar values only; the value may be
    [undefined]. *)
Definition fair_entry (kv : str * option str) : Prop :=
  fst kv <> proto
  /\ Forall (fun c => scalar c = true) (fst kv)
  /\ Forall (fun c => scalar c = true) (shown (snd kv)).

(** [p] is the text [toString] writes for the key [k] of [jar]. *)
Definition written (jar : CookieJar) (k p : str) : Prop :=
  exists ek ev,
    URI.encodeURIComponent k = Ok ek
    /\ URI.encodeURIComponent (property_string jar k) = Ok ev
    /\ p = ek ++ Cookie.equals :: ev.

(** [class Items extends Application { @get("/items/([0-9]+)") item }]
    and [class Sub extends Items], before [Sub] declares a route: the
    prototype of [Sub] owns no registry, that of [Items] owns one. *)
Definition sub_prototype : Prototype :=
  {| own_registry := None; parent_registries := [item_route] |}.

(** Every property is a handler that answers with its own name. *)
Definition name_handlers (name : str) : option RequestHandler :=
  Some (fun _ _ => Ok (text_response name None)).

(** [class Api extends Application {
       @post("/graphql") api(r) { return this.handleGraphQLRequest(schema, r) } }]
    with a [JSON.parse] that accepts nothing and an executor that
    answers [null] *)
Definition graphql_app : Application :=
  {| routes := Application_post (js "/graphql") None (js "api");
     methods := fun name =>
       Some (fun req _ =>
               handleGraphQLRequest no_parse null_executor tt req) |}.

(** [r] matches a prefix of [s], matches somewhere in [s], matches a
    suffix of [s]. *)
Definition starts_with (r : regex) (s : str) : Prop :=
  matcher s r (MState 0 []) Some <> None.

Definition occurs (r : regex) (s : str) : Prop :=
  exists i, i <= length s /\ matcher s r (MState i []) Some <> None.

Definition ends_with (r : regex) (s : str) : Prop :=
  exists i, i <= length s /\ matcher s r (MState i []) (at_end s) <> None.

End Spec.

Import Spec.

(** * Properties *)

Unset Implicit Arguments.

(** Prove a conjunction of closed equations by evaluation. *)
Ltac evaluate :=
  repeat match goal with |- _ /\ _ => split end;
  vm_compute; reflexivity.

(** Settle every comparison of the goal that the context decides. *)
Ltac settle :=
  repeat match goal with
         | |- context [(?a <? ?b)%N] =>
             first [ rewrite (proj2 (N.ltb_lt a b)) by lia
                   | rewrite (proj2 (N.ltb_ge a b)) by lia ]
         | |- context [(?a <=? ?b)%N] =>
             first [ rewrite (proj2 (N.leb_le a b)) by lia
                   | rewrite (proj2 (N.leb_gt a b)) by lia ]
         | |- context [(?a =? ?b)%N] =>
             first [ rewrite (proj2 (N.eqb_eq a b)) by lia
                   | rewrite (proj2 (N.eqb_neq a b)) by lia ]
         end.

Module StringFacts.

Lemma eqb_eq a b : eqb a b = true <-> a = b.
Proof. unfold eqb; destruct (str_eq_dec a b); split; congruence. Qed.

Lemma eqb_refl a : eqb a a = true.
Proof. now apply eqb_eq. Qed.

Lemma eqb_neq a b : eqb a b = false <-> a <> b.
Proof. unfold eqb; destruct (str_eq_dec a b); split; congruence. Qed.

Lemma lastIndexOf_from_last c ext :
  ~ In c ext ->
  forall prefix i last,
    lastIndexOf_from c i last (prefix ++ c :: ext)
    = (i + Z.of_nat (length prefix))%Z.
Proof.
  intros Hext.
  assert (Hkeep : forall i last, lastIndexOf_from c i last ext = last).
  { induction ext as [|x ext IH]; intros i last; simpl; [reflexivity|].
    destruct (N.eqb_spec x c) as [->|_].
    - exfalso; apply Hext; now left.
    - apply IH; intro; apply Hext; now right. }
  induction prefix as [|x prefix IH]; intros i last; simpl.
  - rewrite N.eqb_refl, Hkeep; lia.
  - rewrite IH; lia.
Qed.

Lemma lastIndexOf_none c s :
  ~ In c s -> forall i last, lastIndexOf_from c i last s = last.
Proof.
  induction s as [|x s IH]; intros Hs i last; simpl; [reflexivity|].
  destruct (N.eqb_spec x c) as [->|_].
  - exfalso; apply Hs; now left.
  - apply IH; intro; apply Hs; now right.
Qed.

Lemma substr_after prefix (c : N) ext :
  substr (Z.of_nat (length prefix) + 1) (prefix ++ c :: ext) = ext.
Proof.
  unfold substr.
  destruct (Z.ltb_spec (Z.of_nat (length prefix) + 1) 0) as [H|_]; [lia|].
  replace (Z.to_nat (Z.of_nat (length prefix) + 1)) with (length prefix + 1)
    by lia.
  rewrite skipn_app, skipn_all2 by lia.
  replace (length prefix + 1 - length prefix) with 1 by lia.
  reflexivity.
Qed.

End StringFacts.

Module ContentTypeFacts.
Import StringFacts.

(** *** Content-type inference *)

Lemma inferContentType_suffix prefix ext :
  ~ In dot ext ->
  inferContentType (prefix ++ dot :: ext)
  = match obj_get contentTypeMap ext with
    | Some t => t
    | None => application_octet_stream
    end.
Proof.
  intros Hext. unfold inferContentType, lastIndexOf.
  rewrite lastIndexOf_from_last by assumption.
  destruct (Z.eqb_spec (0 + Z.of_nat (length prefix)) (-1)) as [H|_]; [lia|].
  simpl negb. cbv iota.
  replace (0 + Z.of_nat (length prefix) + 1)%Z
    with (Z.of_nat (length prefix) + 1)%Z by lia.
  now rewrite substr_after.
Qed.

Lemma contentTypeMap_miss ext :
  ext <> js "json" -> ext <> js "js" -> ext <> js "html" ->
  ext <> js "css" -> ext <> js "txt" ->
  obj_get contentTypeMap ext = None.
Proof.
  intros H1 H2 H3 H4 H5. unfold contentTypeMap. simpl.
  repeat match goal with
         | |- context [eqb ?a ext] =>
             let E := fresh in
             destruct (eqb a ext) eqn:E;
             [apply eqb_eq in E; congruence|]
         end.
  reflexivity.
Qed.

(** C10.  A file name is [prefix.ext] with no dot in [ext] (so [ext] is
    what follows the last dot).  With [ext = txt] the answer is
    [text/html]; with [ext] outside the table [json, js, html, css, txt]
    the answer is [application/octet-stream], whatever [ext] is, names
    of inherited properties included. *)
Theorem inferContentType_txt_and_unknown :
  forall prefix ext : str,
    ~ In dot ext ->
    (ext = js "txt" -> inferContentType (prefix ++ dot :: ext) = text_html)
    /\ (ext <> js "json" -> ext <> js "js" -> ext <> js "html" ->
        ext <> js "css" -> ext <> js "txt" ->
        inferContentType (prefix ++ dot :: ext) = application_octet_stream).
Proof.
  intros prefix ext Hext. split.
  - intros ->. now rewrite inferContentType_suffix.
  - intros. rewrite inferContentType_suffix by assumption.
    now rewrite contentTypeMap_miss.
Qed.

(** X10.  A file name without a dot has no extension to look up. *)
Theorem inferContentType_without_dot :
  forall fileName : str,
    ~ In dot fileName ->
    inferContentType fileName = application_octet_stream.
Proof.
  intros fileName H. unfold inferContentType, lastIndexOf.
  now rewrite lastIndexOf_none.
Qed.

Lemma inferContentType_without_dot_witness :
  inferContentType (js "noext") = application_octet_stream.
Proof.
  apply inferContentType_without_dot. vm_compute. intuition discriminate.
Defined.

Lemma inferContentType_txt_and_unknown_witness :
  inferContentType (js "notes.txt") = text_html
  /\ inferContentType (js "a.toString") = application_octet_stream.
Proof.
  split.
  - apply (inferContentType_txt_and_unknown (js "notes") (js "txt")).
    + vm_compute. intuition discriminate.
    + reflexivity.
  - apply (inferContentType_txt_and_unknown (js "a") (js "toString"));
      vm_compute; try intuition discriminate.
Defined.

End ContentTypeFacts.

Module RouteFacts.
Import StringFacts.

Lemma ascii_letter_range c :
  ascii_letter c = true -> (65 <= c <= 90 \/ 97 <= c <= 122)%N.
Proof.
  unfold ascii_letter. intros H.
  apply orb_prop in H as [H|H]; apply andb_prop in H as [H1 H2];
    apply N.leb_le in H1, H2; lia.
Qed.

Lemma same_letter_to_lower x y : same_letter x y -> to_lower x = to_lower y.
Proof.
  intros [->|(Hx & Hy & H)]; [reflexivity|].
  apply ascii_letter_range in Hx, Hy.
  unfold to_lower.
  destruct H as [-> | ->].
  - assert (65 <= y <= 90)%N by lia. settle. reflexivity.
  - assert (65 <= x <= 90)%N by lia. settle. reflexivity.
Qed.

Lemma letter_case_toLowerCase a b :
  letter_case_of a b -> toLowerCase a = toLowerCase b.
Proof.
  induction 1 as [|x y a b Hxy _ IH]; simpl; [reflexivity|].
  now rewrite (same_letter_to_lower _ _ Hxy), IH.
Qed.

Lemma Route_match_method m re h (req : HTTPRequest) :
  Route_match (Route_new m re h) req
  = if eqb (toLowerCase (method req)) (toLowerCase m)
    then exec re (pathname (url req)) else None.
Proof.
  unfold Route_match, Route_new; simpl.
  now destruct (eqb (toLowerCase (method req)) (toLowerCase m)).
Qed.

(** C5.  A route built with method [POST] in any letter case passes a
    request whose method is [POST] in any letter case on to the pattern
    ([post], [POST] and [PoSt] among them), and rejects a [GET]
    request. *)
Theorem method_check_ignores_case :
  forall (m : str) (re : RegExp) (h : str) (req : HTTPRequest),
    letter_case_of m (js "POST") ->
    (letter_case_of (method req) (js "POST") ->
     Route_match (Route_new m re h) req = exec re (pathname (url req)))
    /\ (method req = js "post" \/ method req = js "POST"
        \/ method req = js "PoSt" ->
        Route_match (Route_new m re h) req = exec re (pathname (url req)))
    /\ (method req = js "GET" -> Route_match (Route_new m re h) req = None).
Proof.
  intros m re h req Hm.
  apply letter_case_toLowerCase in Hm.
  rewrite Route_match_method, Hm.
  split; [|split].
  - intros Hr. apply letter_case_toLowerCase in Hr. now rewrite Hr, eqb_refl.
  - intros [-> | [-> | ->]]; reflexivity.
  - intros ->. reflexivity.
Qed.

Lemma method_check_ignores_case_witness :
  exists (re : RegExp) (req : HTTPRequest),
    RegExp_new (js "^/x$") = Some re
    /\ HTTPRequest_new (post_request (js "PoSt") (js "/x")) = Ok req
    /\ Route_match (Route_new (js "pOsT") re (js "h")) req
       = exec re (pathname (url req)).
Proof.
  do 2 eexists.
  split; [vm_compute; reflexivity|].
  split; [vm_compute; reflexivity|].
  apply (method_check_ignores_case (js "pOsT")).
  - repeat constructor;
      right; (split; [reflexivity|]); (split; [reflexivity|]);
      first [left; reflexivity | right; reflexivity].
  - right; right. reflexivity.
Defined.

End RouteFacts.

Module ObjectFacts.
Import StringFacts.

Section Obj.
Context {V : Type}.
Implicit Types (o : obj V) (k : str) (v : V).

Lemma obj_get_set_same o k v : obj_get (obj_set o k v) k = Some v.
Proof.
  induction o as [|[k' v'] o IH]; simpl.
  - now rewrite eqb_refl.
  - destruct (eqb k' k) eqn:E; simpl; rewrite E; auto.
Qed.

Lemma obj_get_set_other o k k' v :
  k <> k' -> obj_get (obj_set o k v) k' = obj_get o k'.
Proof.
  intros Hk. induction o as [|[k0 v0] o IH]; simpl.
  - apply eqb_neq in Hk. now rewrite Hk.
  - destruct (eqb k0 k) eqn:E; simpl.
    + apply eqb_eq in E; subst k0.
      apply eqb_neq in Hk. now rewrite Hk.
    + now rewrite IH.
Qed.

Lemma obj_get_None o k : obj_get o k = None <-> ~ In k (map fst o).
Proof.
  induction o as [|[k' v'] o IH]; simpl.
  - tauto.
  - destruct (eqb k' k) eqn:E.
    + apply eqb_eq in E. split; [discriminate|tauto].
    + apply eqb_neq in E. rewrite IH. tauto.
Qed.

Lemma obj_get_In o k v : obj_get o k = Some v -> In (k, v) o.
Proof.
  induction o as [|[k' v'] o IH]; simpl; [discriminate|].
  destruct (eqb k' k) eqn:E.
  - apply eqb_eq in E. intros [= ->]. left; congruence.
  - auto.
Qed.

Lemma In_obj_get o k v : distinct_keys o -> In (k, v) o -> obj_get o k = Some v.
Proof.
  unfold distinct_keys.
  induction o as [|[k' v'] o IH]; simpl; [tauto|].
  intros Hnd [[= -> ->]|Hin].
  - now rewrite eqb_refl.
  - inversion_clear Hnd as [|? ? Hk' Hnd'].
    destruct (eqb k' k) eqn:E.
    + apply eqb_eq in E; subst k'. exfalso; apply Hk'.
      now apply (in_map fst) in Hin.
    + auto.
Qed.

Lemma obj_set_keys o k v :
  forall k', In k' (map fst (obj_set o k v)) <-> k' = k \/ In k' (map fst o).
Proof.
  induction o as [|[k0 v0] o IH]; intros k'; simpl.
  - intuition.
  - destruct (eqb k0 k) eqn:E; simpl.
    + apply eqb_eq in E; subst. intuition.
    + rewrite IH. intuition.
Qed.

Lemma obj_set_distinct o k v :
  distinct_keys o -> distinct_keys (obj_set o k v).
Proof.
  unfold distinct_keys.
  induction o as [|[k0 v0] o IH]; simpl; intros Hnd.
  - constructor; [tauto|constructor].
  - inversion_clear Hnd as [|? ? Hk0 Hnd'].
    destruct (eqb k0 k) eqn:E; simpl.
    + now constructor.
    + constructor; [|auto].
      rewrite obj_set_keys. apply eqb_neq in E. intuition.
Qed.

End Obj.

End ObjectFacts.

Module DispatchFacts.
Import StringFacts ObjectFacts.

Section Dispatch.
Variable JSON_stringify : value -> outcome (option str).

Lemma dispatch_skip app req before rest :
  Forall (fun r => Route_match r req = None) before ->
  dispatch JSON_stringify app req (before ++ rest)
  = dispatch JSON_stringify app req rest.
Proof.
  induction 1 as [|r before Hr _ IH]; simpl; [reflexivity|].
  now rewrite Hr.
Qed.

Lemma encode_internal_error req :
  encodeResponse JSON_stringify (handleInternalError req)
  = Ok {| response_body := BodyString (js "500 internal error");
          response_status := 500;
          response_headers := [(js "content-type", js "text/plain")] |}.
Proof. reflexivity. Qed.

Lemma dispatch_first app req route rest m h :
  Route_match route req = Some m ->
  methods app (handler route) = Some h ->
  dispatch JSON_stringify app req (route :: rest)
  = match (do response <- h req (slice1 m);
           encodeResponse JSON_stringify response) with
    | Ok r => ([Invoked (handler route) (slice1 m)], Ok r)
    | Throw e =>
        ([Invoked (handler route) (slice1 m); Logged e],
         encodeResponse JSON_stringify (handleInternalError req))
    end.
Proof. intros Hm Hh. simpl. now rewrite Hm, Hh. Qed.

End Dispatch.

(** C2.  When the route a request is dispatched to (the first one that
    matches it) has a handler that throws [e], [handleRequest] calls that
    handler, logs [e], and returns (does not throw) the response with
    status 500, body [500 internal error] and content type
    [text/plain]; the response does not depend on [e]. *)
Theorem handler_error_gives_500 :
  forall (JSON_stringify : value -> outcome (option str))
         (app : Application) (raw : Request) (req : HTTPRequest)
         (before after : list Route) (route : Route) (m : MatchArray)
         (h : RequestHandler) (e : exn),
    HTTPRequest_new raw = Ok req ->
    routes app = Some (before ++ route :: after) ->
    Forall (fun r => Route_match r req = None) before ->
    Route_match route req = Some m ->
    methods app (handler route) = Some h ->
    h req (slice1 m) = Throw e ->
    handleRequest JSON_stringify app raw
    = ([Invoked (handler route) (slice1 m); Logged e],
       Ok {| response_body := BodyString (js "500 internal error");
             response_status := 500;
             response_headers := [(js "content-type", js "text/plain")] |}).
Proof.
  intros S app raw req before after route m h e Hreq Hroutes Hbefore Hm Hh He.
  unfold handleRequest. rewrite Hreq, Hroutes.
  rewrite dispatch_skip by assumption.
  rewrite (@dispatch_first S app req route after m h Hm Hh), He. simpl bind.
  now rewrite encode_internal_error.
Qed.

(** C1, as the code has it.  When [R1] is the first route of the
    registry that matches the request and its handler exists, the one
    handler call [handleRequest] makes is to [R1]'s handler, with the
    groups [R1] captured; so no route registered after [R1] has its
    handler called, unless it names the same handler. *)
Theorem first_matching_route_is_dispatched :
  forall (JSON_stringify : value -> outcome (option str))
         (app : Application) (raw : Request) (req : HTTPRequest)
         (before after : list Route) (R1 : Route) (m : MatchArray)
         (h : RequestHandler),
    HTTPRequest_new raw = Ok req ->
    routes app = Some (before ++ R1 :: after) ->
    Forall (fun r => Route_match r req = None) before ->
    Route_match R1 req = Some m ->
    methods app (handler R1) = Some h ->
    invocations (fst (handleRequest JSON_stringify app raw))
    = [(handler R1, slice1 m)]
    /\ forall R2 args,
         In R2 after -> handler R2 <> handler R1 ->
         ~ In (Invoked (handler R2) args)
              (fst (handleRequest JSON_stringify app raw)).
Proof.
  intros S app raw req before after R1 m h Hreq Hroutes Hbefore Hm Hh.
  unfold handleRequest. rewrite Hreq, Hroutes.
  rewrite dispatch_skip by assumption.
  rewrite (@dispatch_first S app req R1 after m h Hm Hh).
  destruct (do response <- h req (slice1 m); encodeResponse S response);
    simpl; (split; [reflexivity|]);
    intros R2 args _ Hne Hin; intuition congruence.
Qed.

(** X4.  A request no route matches gets the default not-found response:
    status 404, body [404 not found], content type [text/plain]; no
    handler is called. *)
Theorem no_matching_route_gives_404 :
  forall (JSON_stringify : value -> outcome (option str))
         (app : Application) (raw : Request) (req : HTTPRequest)
         (registry : list Route),
    HTTPRequest_new raw = Ok req ->
    routes app = Some registry ->
    Forall (fun r => Route_match r req = None) registry ->
    handleRequest JSON_stringify app raw
    = ([], Ok {| response_body := BodyString (js "404 not found");
                 response_status := 404;
                 response_headers := [(js "content-type", js "text/plain")] |}).
Proof.
  intros S app raw req registry Hreq Hroutes Hnone.
  unfold handleRequest. rewrite Hreq, Hroutes.
  rewrite <- (app_nil_r registry), dispatch_skip by assumption.
  reflexivity.
Qed.

Lemma no_matching_route_gives_404_witness :
  fst (handleRequest no_stringify failing_app
                     (get_request (js "/nowhere") [])) = [].
Proof.
  eassert (H : _).
  { eapply (no_matching_route_gives_404 no_stringify failing_app
              (get_request (js "/nowhere") []));
      [vm_compute; reflexivity | vm_compute; reflexivity
      | repeat constructor]. }
  exact (f_equal fst H).
Defined.



(** X6.  An error raised while the request is wrapped (a cookie header
    with a malformed escape) is thrown by [handleRequest] itself: no
    route is tried, nothing is logged, no response is built. *)
Theorem malformed_cookie_header_is_thrown :
  forall (JSON_stringify : value -> outcome (option str))
         (app : Application) (raw : Request) (e : exn),
    CookieJar_new (or_else (lookup (request_headers raw) (js "cookie")) [])
    = Throw e ->
    handleRequest JSON_stringify app raw = ([], Throw e).
Proof.
  intros S app raw e H. unfold handleRequest, HTTPRequest_new.
  now rewrite H.
Qed.

Lemma malformed_cookie_header_is_thrown_witness :
  handleRequest no_stringify failing_app
    {| request_method := js "GET";
       request_url := {| pathname := js "/boom"; searchParams := [] |};
       request_headers := [(js "cookie", js "a=%")];
       request_body := [] |}
  = ([], Throw URIError).
Proof.
  apply malformed_cookie_header_is_thrown. vm_compute. reflexivity.
Defined.

Lemma handler_error_gives_500_witness :
  handleRequest no_stringify failing_app (get_request (js "/boom") [])
  = ([Invoked (js "boom") []; Logged (Thrown 7)],
     Ok {| response_body := BodyString (js "500 internal error");
           response_status := 500;
           response_headers := [(js "content-type", js "text/plain")] |}).
Proof.
  eassert (H : _).
  { eapply (@handler_error_gives_500 no_stringify failing_app
              (get_request (js "/boom") []) _ [] [] _ _ _ (Thrown 7));
      [reflexivity | reflexivity | constructor | reflexivity
      | reflexivity | reflexivity]. }
  exact H.
Defined.

Lemma first_matching_route_is_dispatched_witness :
  invocations
    (fst (handleRequest no_stringify three_routes_app
                        (get_request (js "/a") [])))
  = [(js "h0", [])].
Proof.
  eassert (H : _).
  { eapply (@first_matching_route_is_dispatched no_stringify
              three_routes_app (get_request (js "/a") []) _ []);
      [reflexivity | reflexivity | constructor | reflexivity | reflexivity]. }
  exact (proj1 H).
Defined.

(** C1 as stated fails: with three routes that all match [GET /a], the
    second is registered before the third and both match, yet the
    handler called is the first route's, not the second's. *)
Lemma earlier_of_two_matching_routes_not_invoked :
  exists (req : HTTPRequest) (R0 R1 R2 : Route) (m1 m2 : MatchArray),
    HTTPRequest_new (get_request (js "/a") []) = Ok req
    /\ routes three_routes_app = Some [R0; R1; R2]
    /\ Route_match R1 req = Some m1
    /\ Route_match R2 req = Some m2
    /\ methods three_routes_app (handler R1) <> None
    /\ forall JSON_stringify args,
         ~ In (Invoked (handler R1) args)
              (fst (handleRequest JSON_stringify three_routes_app
                                  (get_request (js "/a") []))).
Proof.
  do 6 eexists.
  split; [reflexivity|].
  split; [reflexivity|].
  split; [reflexivity|].
  split; [reflexivity|].
  split; [discriminate|].
  intros S args. vm_compute. intros [H|[]]. discriminate H.
Qed.

End DispatchFacts.

Module EncodeFacts.
Import StringFacts ObjectFacts.

Lemma encode_fold_other l :
  forall acc enc k,
    ~ In k (map fst l) ->
    foldM encode_header l acc = Ok enc ->
    obj_get enc k = obj_get acc k.
Proof.
  induction l as [|[k0 v0] l IH]; intros acc enc k Hk; simpl.
  - now intros [= ->].
  - simpl in Hk. unfold encode_header at 1; simpl.
    destruct v0 as [|s|jar]; simpl.
    + apply IH; tauto.
    + intros H. rewrite (IH _ _ _ (fun X => Hk (or_intror X)) H).
      apply obj_get_set_other. tauto.
    + destruct (Cookie.toString jar) as [s|e]; simpl; [|discriminate].
      intros H. rewrite (IH _ _ _ (fun X => Hk (or_intror X)) H).
      apply obj_get_set_other. tauto.
Qed.

Lemma encode_fold_string l :
  forall acc enc k s,
    distinct_keys l ->
    foldM encode_header l acc = Ok enc ->
    obj_get l k = Some (HString s) ->
    obj_get enc k = Some s.
Proof.
  unfold distinct_keys.
  induction l as [|[k0 v0] l IH]; intros acc enc k s Hnd; simpl.
  - discriminate.
  - inversion_clear Hnd as [|? ? Hk0 Hnd'].
    destruct (eqb k0 k) eqn:E.
    + apply eqb_eq in E; subst k0. intros H [= ->].
      unfold encode_header in H at 1; simpl in H.
      rewrite (encode_fold_other _ _ _ _ Hk0 H).
      apply obj_get_set_same.
    + unfold encode_header at 1; simpl.
      destruct v0 as [|s0|jar]; simpl; eauto.
      destruct (Cookie.toString jar) as [s0|e]; simpl; [eauto|discriminate].
Qed.

Section Encode.
Variable JSON_stringify : value -> outcome (option str).

Lemma encodeResponse_inv resp r :
  encodeResponse JSON_stringify resp = Ok r ->
  exists b h1,
    encode_body JSON_stringify resp (descriptor_headers resp) = Ok (b, h1)
    /\ foldM encode_header h1 [] = Ok (response_headers r).
Proof.
  unfold encodeResponse, descriptor_headers. cbv zeta.
  destruct (encode_body _ _ _) as [[b h1]|e]; simpl; [|discriminate].
  destruct (foldM encode_header h1 []) as [enc|e] eqn:E; simpl;
    [|discriminate].
  intros [= <-]. exists b, h1. now rewrite E.
Qed.

End Encode.

(** X7.  The status of the transport response is the descriptor's, and
    200 when the descriptor gives none. *)
Theorem status_defaults_to_200 :
  forall (JSON_stringify : value -> outcome (option str))
         (resp : HTTPResponse) (r : Response),
    encodeResponse JSON_stringify resp = Ok r ->
    response_status r = match status resp with
                        | Some n => n
                        | None => 200%Z
                        end.
Proof.
  intros S resp r. unfold encodeResponse. cbv zeta.
  destruct (encode_body _ _ _) as [[b h1]|e]; simpl; [|discriminate].
  destruct (foldM encode_header h1 []) as [enc|e]; simpl; [|discriminate].
  now intros [= <-].
Qed.

Lemma status_defaults_to_200_witness :
  response_status
    {| response_body := BodyString (js "hi");
       response_status := 200;
       response_headers := [(content_type, js "text/plain")] |}
  = 200%Z.
Proof.
  apply (status_defaults_to_200 no_stringify text_as_html). reflexivity.
Defined.

(** C3, as the code has it.  In a response descriptor whose headers
    object is well formed, a [json], [text] or [html] body (looked for in
    this order) fixes the content type of the transport response to
    [application/json], [text/plain] or [text/html], whatever content
    type the headers object supplies; a supplied content type reaches
    the transport response only with a [stream] body or with no body. *)
Theorem body_variant_fixes_content_type :
  forall (JSON_stringify : value -> outcome (option str))
         (resp : HTTPResponse) (r : Response),
    (forall h, headers resp = Some h -> distinct_keys h) ->
    encodeResponse JSON_stringify resp = Ok r ->
    (json resp <> None ->
     obj_get (response_headers r) content_type = Some (js "application/json"))
    /\ (json resp = None -> text resp <> None ->
        obj_get (response_headers r) content_type = Some (js "text/plain"))
    /\ (json resp = None -> text resp = None -> html resp <> None ->
        obj_get (response_headers r) content_type = Some (js "text/html"))
    /\ (json resp = None -> text resp = None -> html resp = None ->
        forall h s,
          headers resp = Some h ->
          obj_get h content_type = Some (HString s) ->
          obj_get (response_headers r) content_type = Some s).
Proof.
  intros S resp r Hwf Henc.
  assert (Hd : distinct_keys (descriptor_headers resp)).
  { unfold descriptor_headers.
    destruct (headers resp) as [h|]; [now apply Hwf|constructor]. }
  destruct (encodeResponse_inv S resp r Henc) as (b & h1 & Hb & HH).
  unfold encode_body in Hb.
  assert (Hset : forall d,
             obj_set (descriptor_headers resp) (js "content-type") (HString d)
             = h1 ->
             obj_get (response_headers r) content_type = Some d).
  { intros d <-.
    eapply encode_fold_string; [|exact HH|apply obj_get_set_same].
    now apply obj_set_distinct. }
  repeat split.
  - intros Hj. destruct (json resp) as [j|]; [|congruence].
    destruct (S j) as [s|e]; simpl in Hb; [|discriminate].
    apply Hset. congruence.
  - intros Hj Ht. rewrite Hj in Hb.
    destruct (text resp) as [t|]; [|congruence].
    apply Hset. congruence.
  - intros Hj Ht Hh. rewrite Hj, Ht in Hb.
    destruct (html resp) as [t|]; [|congruence].
    apply Hset. congruence.
  - intros Hj Ht Hh h s Hhd Hct. rewrite Hj, Ht, Hh in Hb.
    unfold descriptor_headers in *. rewrite Hhd in *.
    assert (h1 = h) as -> by (destruct (stream resp); congruence).
    eapply encode_fold_string; eauto.
Qed.

Lemma body_variant_fixes_content_type_witness :
  obj_get (response_headers
             {| response_body := BodyString (js "hi");
                response_status := 200;
                response_headers := [(content_type, js "text/plain")] |})
          content_type
  = Some (js "text/plain").
Proof.
  refine (proj1 (proj2
    (body_variant_fixes_content_type no_stringify text_as_html _ _ _)) _ _).
  - intros h [= <-]. repeat constructor. simpl. tauto.
  - reflexivity.
  - reflexivity.
  - discriminate.
Defined.

(** C3 as stated fails: a [text] body with an explicit content type
    [text/html] is sent as [text/plain]. *)
Lemma explicit_content_type_is_overwritten :
  exists h,
    headers text_as_html = Some h
    /\ obj_get h content_type = Some (HString (js "text/html"))
    /\ text text_as_html = Some (js "hi")
    /\ encodeResponse no_stringify text_as_html
       = Ok {| response_body := BodyString (js "hi");
               response_status := 200;
               response_headers := [(content_type, js "text/plain")] |}.
Proof. eexists. repeat split. Qed.

End EncodeFacts.

Module GraphQLFacts.
Import StringFacts.

Section Adapter.
Variable JSON_parse : str -> outcome value.
Variable GraphQLSchema : Type.
Variable graphql :
  GraphQLSchema -> value -> value -> value -> value -> value -> outcome value.

Lemma property_field g name :
  g <> VNull -> g <> VUndefined -> property g name = Ok (field g name).
Proof.
  intros Hn Hu. destruct g; simpl; try congruence.
  now destruct (obj_get props name).
Qed.

Lemma handle_null schema req :
  getGraphQLQuery JSON_parse req = Ok VNull ->
  handleGraphQLRequest JSON_parse graphql schema req = Ok bad_request.
Proof. intros H. unfold handleGraphQLRequest. now rewrite H. Qed.

Lemma handle_query schema req g :
  getGraphQLQuery JSON_parse req = Ok g ->
  g <> VNull -> g <> VUndefined ->
  handleGraphQLRequest JSON_parse graphql schema req
  = do result <- graphql schema (field g (js "query")) VUndefined VUndefined
                         (field g (js "variables"))
                         (field g (js "operationName"));
    Ok (json_response result).
Proof.
  intros H Hn Hu. unfold handleGraphQLRequest. rewrite H. simpl bind.
  destruct g; try congruence; simpl; try reflexivity.
  repeat match goal with
         | |- context [obj_get ?p ?n] => destruct (obj_get p n); simpl
         end; reflexivity.
Qed.

Lemma handle_400_only_for_null schema req resp :
  handleGraphQLRequest JSON_parse graphql schema req = Ok resp ->
  status resp = Some 400%Z ->
  getGraphQLQuery JSON_parse req = Ok VNull.
Proof.
  unfold handleGraphQLRequest.
  destruct (getGraphQLQuery JSON_parse req) as [g|e]; simpl; [|discriminate].
  destruct g; try reflexivity; simpl;
    try discriminate;
    match goal with
    | |- context [graphql ?a ?b ?c ?d ?e ?f] =>
        destruct (graphql a b c d e f); simpl; try discriminate;
        intros [= <-]; discriminate
    | |- context [obj_get ?p ?n] => idtac
    end.
  repeat match goal with
         | |- context [obj_get ?p ?n] => destruct (obj_get p n); simpl
         end;
    match goal with
    | |- context [graphql ?a ?b ?c ?d ?e ?f] =>
        destruct (graphql a b c d e f); simpl; try discriminate;
        intros [= <-]; discriminate
    end.
Qed.

End Adapter.

(** C6, as the code has it.  For a GET request, [getGraphQLQuery] gives
    no query when the [query] parameter is absent, and when the
    [variables] parameter is a non-empty string that [JSON.parse]
    rejects (an empty one is not parsed at all).  [handleGraphQLRequest]
    answers [400 bad request] as plain text when [getGraphQLQuery] gives
    no query, and only then answers with status 400; given a query it
    hands the query's fields to the executor and wraps the result as the
    [json] body. *)
Theorem graphql_adapter_resolution :
  forall (JSON_parse : str -> outcome value) (GraphQLSchema : Type)
         (graphql : GraphQLSchema -> value -> value -> value -> value ->
                    value -> outcome value)
         (schema : GraphQLSchema) (req : HTTPRequest),
    (toLowerCase (method req) = js "get" ->
     lookup (query req) (js "query") = None ->
     getGraphQLQuery JSON_parse req = Ok VNull)
    /\ (toLowerCase (method req) = js "get" ->
        forall v e,
          lookup (query req) (js "variables") = Some v ->
          v <> [] ->
          JSON_parse v = Throw e ->
          getGraphQLQuery JSON_parse req = Ok VNull)
    /\ (getGraphQLQuery JSON_parse req = Ok VNull ->
        handleGraphQLRequest JSON_parse graphql schema req = Ok bad_request)
    /\ (forall resp,
          handleGraphQLRequest JSON_parse graphql schema req = Ok resp ->
          status resp = Some 400%Z ->
          getGraphQLQuery JSON_parse req = Ok VNull)
    /\ (forall g,
          getGraphQLQuery JSON_parse req = Ok g ->
          g <> VNull -> g <> VUndefined ->
          handleGraphQLRequest JSON_parse graphql schema req
          = do result <- graphql schema (field g (js "query"))
                                 VUndefined VUndefined
                                 (field g (js "variables"))
                                 (field g (js "operationName"));
            Ok (json_response result)).
Proof.
  intros P G graphql schema req. repeat split.
  - intros Hget Hq. unfold getGraphQLQuery. rewrite Hget. simpl.
    now rewrite Hq.
  - intros Hget v e Hv Hne Hp. unfold getGraphQLQuery. rewrite Hget. simpl.
    destruct (lookup (query req) (js "query")) as [q|]; [|reflexivity].
    rewrite Hv. destruct v as [|c v]; [congruence|]. simpl.
    now rewrite Hp.
  - apply handle_null.
  - apply handle_400_only_for_null.
  - apply handle_query.
Qed.

(** X8.  A POST request resolves by its content type: the parsed body for
    [application/json], the body text as the query for
    [application/graphql], no query for any other or no content type;
    a method other than GET and POST resolves to no query. *)
Theorem graphql_post_resolution :
  forall (JSON_parse : str -> outcome value) (req : HTTPRequest),
    (toLowerCase (method req) = js "post" ->
     lookup (request_headers_of req) (js "content-type")
     = Some (js "application/json") ->
     getGraphQLQuery JSON_parse req
     = JSON_parse (request_body (request req)))
    /\ (toLowerCase (method req) = js "post" ->
        lookup (request_headers_of req) (js "content-type")
        = Some (js "application/graphql") ->
        getGraphQLQuery JSON_parse req
        = Ok (VObject [(js "query", VString (request_body (request req)))]))
    /\ (toLowerCase (method req) = js "post" ->
        (forall ct,
            lookup (request_headers_of req) (js "content-type") = Some ct ->
            ct <> js "application/json" /\ ct <> js "application/graphql") ->
        getGraphQLQuery JSON_parse req = Ok VNull)
    /\ (toLowerCase (method req) <> js "get" ->
        toLowerCase (method req) <> js "post" ->
        getGraphQLQuery JSON_parse req = Ok VNull).
Proof.
  intros P req. unfold getGraphQLQuery. repeat split.
  - intros -> ->. reflexivity.
  - intros -> ->. reflexivity.
  - intros -> H. simpl.
    destruct (lookup (request_headers_of req) (js "content-type")) as [ct|];
      [|reflexivity].
    destruct (H ct eq_refl) as [H1 H2].
    apply eqb_neq in H1, H2. now rewrite H1, H2.
  - intros H1 H2. apply eqb_neq in H1, H2. now rewrite H1, H2.
Qed.

Lemma graphql_post_resolution_witness :
  exists req,
    HTTPRequest_new
      {| request_method := js "POST";
         request_url := {| pathname := js "/graphql"; searchParams := [] |};
         request_headers := [(js "content-type", js "application/graphql")];
         request_body := js "{ hello }" |} = Ok req
    /\ getGraphQLQuery no_parse req
       = Ok (VObject [(js "query", VString (js "{ hello }"))]).
Proof.
  eexists. split; [vm_compute; reflexivity|].
  match goal with
  | |- getGraphQLQuery _ ?r = _ =>
      apply (proj1 (proj2 (graphql_post_resolution no_parse r)));
        reflexivity
  end.
Defined.

Lemma graphql_adapter_resolution_witness :
  exists req,
    HTTPRequest_new
      (get_request (js "/graphql") [(js "variables", js "{oops")]) = Ok req
    /\ getGraphQLQuery no_parse req = Ok VNull
    /\ handleGraphQLRequest no_parse null_executor tt req = Ok bad_request.
Proof.
  eexists. split; [reflexivity|].
  match goal with
  | |- getGraphQLQuery _ ?r = _ /\ _ =>
      pose proof (graphql_adapter_resolution no_parse unit null_executor tt r)
        as (H1 & _ & H3 & _)
  end.
  assert (H := H1 eq_refl eq_refl).
  split; [exact H | exact (H3 H)].
Defined.

(** C6 as stated fails: a GET request with a query and an empty
    [variables] parameter, which is not JSON, still resolves to a query,
    whatever [JSON.parse] does. *)
Lemma empty_variables_are_not_parsed :
  exists req,
    HTTPRequest_new
      (get_request (js "/graphql")
                   [(js "query", js "{ hello }"); (js "variables", [])])
    = Ok req
    /\ toLowerCase (method req) = js "get"
    /\ lookup (query req) (js "variables") = Some []
    /\ forall JSON_parse,
         getGraphQLQuery JSON_parse req
         = Ok (VObject [(js "query", VString (js "{ hello }"));
                        (js "operationName", VUndefined);
                        (js "variables", VUndefined)]).
Proof. eexists. repeat split. Qed.

End GraphQLFacts.

Module URIFacts.
Import URI.

#[local] Arguments N.add : simpl never.
#[local] Arguments N.sub : simpl never.
#[local] Arguments N.mul : simpl never.
#[local] Arguments N.div : simpl never.
#[local] Arguments N.modulo : simpl never.

Lemma below_16 d :
  (d < 16)%N ->
  In d [0; 1; 2; 3; 4; 5; 6; 7; 8; 9; 10; 11; 12; 13; 14; 15]%N.
Proof.
  intros H.
  replace d with (N.of_nat (N.to_nat d)) by apply N2Nat.id.
  assert (Hn : N.to_nat d < 16) by lia.
  revert Hn. generalize (N.to_nat d). intros n Hn.
  do 16 (destruct n as [|n]; [simpl; tauto|]). lia.
Qed.

Lemma hex_val_digit d : (d < 16)%N -> hex_val (hex_digit d) = Some d.
Proof.
  intros H. apply below_16 in H. simpl in H.
  repeat (destruct H as [<-|H]; [reflexivity|]). contradiction.
Qed.

Lemma hex_digit_unreserved d : (d < 16)%N -> unreserved (hex_digit d) = true.
Proof.
  intros H. apply below_16 in H. simpl in H.
  repeat (destruct H as [<-|H]; [reflexivity|]). contradiction.
Qed.

Lemma unescape_raw c rest :
  c <> percent ->
  unescape (c :: rest) = option_map (cons (Raw c)) (unescape rest).
Proof.
  intros Hc. simpl. destruct (N.eqb_spec c percent); [contradiction|reflexivity].
Qed.

Lemma unescape_escape b rest :
  (b < 256)%N ->
  unescape (escape b ++ rest) = option_map (cons (Octet b)) (unescape rest).
Proof.
  intros Hb. unfold escape. simpl.
  assert (b / 16 < 16)%N by (apply N.Div0.div_lt_upper_bound; lia).
  assert (b mod 16 < 16)%N by (apply N.mod_lt; lia).
  rewrite !hex_val_digit by assumption.
  rewrite <- (N.div_mod' b 16).
  now destruct (unescape rest).
Qed.

Lemma unreserved_not_percent c : unreserved c = true -> c <> percent.
Proof. intros H ->. discriminate H. Qed.

(** The octets of a code point, with the quotients named *)
Lemma utf8_cases c :
  scalar c = true ->
  (c < 128 /\ utf8 c = Some [c])%N
  \/ (exists a b, c = 64 * a + b /\ 2 <= a < 32 /\ b < 64
                  /\ utf8 c = Some [192 + a; 128 + b])%N
  \/ (exists a b d, c = 4096 * a + 64 * b + d /\ a < 16 /\ b < 64 /\ d < 64
                    /\ 2048 <= c /\ ~ (55296 <= c <= 57343)
                    /\ utf8 c = Some [224 + a; 128 + b; 128 + d])%N
  \/ (exists a b d e,
         c = 262144 * a + 4096 * b + 64 * d + e
         /\ a < 8 /\ b < 64 /\ d < 64 /\ e < 64 /\ 65536 <= c < 1114112
         /\ utf8 c = Some [240 + a; 128 + b; 128 + d; 128 + e])%N.
Proof.
  unfold scalar. intros Hs.
  apply andb_prop in Hs as [Hmax Hsur].
  apply N.ltb_lt in Hmax.
  assert (Hs' : ~ (55296 <= c <= 57343)%N).
  { intros [F1 F2]. apply N.leb_le in F1, F2. rewrite F1, F2 in Hsur.
    discriminate. }
  assert (D2 : (c / 4096 = c / 64 / 64)%N)
    by (rewrite N.Div0.div_div; reflexivity).
  assert (D3 : (c / 262144 = c / 64 / 64 / 64)%N)
    by (rewrite !N.Div0.div_div; reflexivity).
  unfold utf8. rewrite D2, D3. clear D2 D3.
  pose proof (N.div_mod' c 64) as E1.
  pose proof (N.mod_lt c 64 ltac:(lia)) as B1.
  pose proof (N.div_mod' (c / 64) 64) as E2.
  pose proof (N.mod_lt (c / 64) 64 ltac:(lia)) as B2.
  pose proof (N.div_mod' (c / 64 / 64) 64) as E3.
  pose proof (N.mod_lt (c / 64 / 64) 64 ltac:(lia)) as B3.
  set (r1 := (c mod 64)%N) in *.
  set (q1 := (c / 64)%N) in *.
  set (r2 := (q1 mod 64)%N) in *.
  set (q2 := (q1 / 64)%N) in *.
  set (r3 := (q2 mod 64)%N) in *.
  set (q3 := (q2 / 64)%N) in *.
  clearbody q3 r3 q2 r2 q1 r1.
  destruct (N.ltb_spec c 128); [left; split; [lia|reflexivity]|].
  destruct (N.ltb_spec c 2048).
  { right; left. exists q1, r1. repeat split; try lia. }
  destruct (N.ltb_spec c 65536).
  { right; right; left. exists q2, r2, r1.
    destruct ((55296 <=? c) && (c <=? 57343))%N eqn:E.
    - apply andb_prop in E as [F1 F2]. apply N.leb_le in F1, F2. lia.
    - repeat split; try lia. }
  right; right; right. exists q3, r3, r2, r1.
  rewrite (proj2 (N.ltb_lt c 1114112)) by lia.
  repeat split; try lia.
Qed.

Lemma utf8_octets c octets :
  scalar c = true ->
  utf8 c = Some octets -> Forall (fun b => (b < 256)%N) octets.
Proof.
  intros Hs.
  destruct (utf8_cases c Hs)
    as [(H & ->) | [(a & b & -> & Ha & Hb & ->)
       | [(a & b & d & -> & Ha & Hb & Hd & _ & _ & ->)
       | (a & b & d & e & -> & Ha & Hb & Hd & He & _ & ->)]]];
    intros [= <-]; repeat constructor; lia.
Qed.

Lemma unescape_octets octets rest :
  Forall (fun b => (b < 256)%N) octets ->
  unescape (concat (map escape octets) ++ rest)
  = option_map (app (map Octet octets)) (unescape rest).
Proof.
  induction 1 as [|b octets Hb _ IH].
  - simpl. now destruct (unescape rest).
  - change (concat (map escape (b :: octets)))
      with (escape b ++ concat (map escape octets)).
    rewrite <- app_assoc, unescape_escape, IH by assumption.
    now destruct (unescape rest).
Qed.

Lemma encode_char_scalar c e : encode_char c = Ok e -> scalar c = true.
Proof.
  unfold encode_char. destruct (unreserved c) eqn:Eu.
  - intros _. unfold unreserved in Eu. unfold scalar.
    destruct (N.ltb_spec c 128).
    + settle. reflexivity.
    + exfalso. revert Eu. settle. discriminate.
  - unfold utf8, scalar.
    destruct (N.ltb_spec c 128); [settle; reflexivity|].
    destruct (N.ltb_spec c 2048); [settle; reflexivity|].
    destruct (N.ltb_spec c 65536).
    + destruct ((55296 <=? c) && (c <=? 57343))%N; [discriminate|].
      settle. reflexivity.
    + destruct (N.ltb_spec c 1114112); [|discriminate].
      settle. reflexivity.
Qed.

Lemma scalar_encode_char c : scalar c = true -> exists e, encode_char c = Ok e.
Proof.
  intros Hs. unfold encode_char.
  destruct (unreserved c); [eauto|].
  destruct (utf8_cases c Hs)
    as [(H & ->) | [(a & b & _ & _ & _ & ->)
       | [(a & b & d & _ & _ & _ & _ & _ & _ & ->)
       | (a & b & d & e & _ & _ & _ & _ & _ & _ & ->)]]]; eauto.
Qed.

Lemma unescape_encode_char c e rest :
  encode_char c = Ok e ->
  unescape (e ++ rest) = option_map (app (tokens_of c)) (unescape rest).
Proof.
  intros He. pose proof (encode_char_scalar c e He) as Hs. revert He.
  unfold encode_char, tokens_of.
  destruct (unreserved c) eqn:Eu.
  - intros [= <-]. simpl app at 1.
    rewrite unescape_raw by now apply unreserved_not_percent.
    now destruct (unescape rest).
  - destruct (utf8 c) as [octets|] eqn:E8; [|discriminate].
    intros [= <-]. apply unescape_octets. eapply utf8_octets; eauto.
Qed.

Lemma assemble_tokens_of c ts :
  scalar c = true ->
  assemble (tokens_of c ++ ts) = option_map (cons c) (assemble ts).
Proof.
  intros Hs. unfold tokens_of.
  destruct (unreserved c); [reflexivity|].
  destruct (utf8_cases c Hs)
    as [(H & ->) | [(a & b & Hc & Ha & Hb & ->)
       | [(a & b & d & Hc & Ha & Hb & Hd & Hlo & Hsur & ->)
       | (a & b & d & e & Hc & Ha & Hb & Hd & He & Hr & ->)]]];
    simpl map; simpl app; cbv beta iota delta [assemble]; fold assemble;
    unfold continuation.
  - settle. reflexivity.
  - settle. simpl.
    replace ((192 + a - 192) * 64 + (128 + b - 128))%N with c by lia.
    reflexivity.
  - settle.
    replace ((224 + a - 224) * 4096 + (128 + b - 128) * 64 + (128 + d - 128))%N
      with c by lia.
    settle. simpl.
    destruct ((55296 <=? c) && (c <=? 57343))%N eqn:E; [|reflexivity].
    apply andb_prop in E as [F1 F2]. apply N.leb_le in F1, F2. lia.
  - settle.
    replace ((240 + a - 240) * 262144 + (128 + b - 128) * 4096
             + (128 + d - 128) * 64 + (128 + e - 128))%N with c by lia.
    settle. reflexivity.
Qed.


(** Turn the boolean facts of the context into arithmetic ones. *)
Ltac unbool :=
  repeat match goal with
         | H : (_ && _) = true |- _ => apply andb_prop in H as [? ?]
         | H : negb _ = true |- _ => apply negb_true_iff in H
         | H : (_ <=? _)%N = true |- _ => apply N.leb_le in H
         | H : (_ <? _)%N = true |- _ => apply N.ltb_lt in H
         | H : (_ =? _)%N = true |- _ => apply N.eqb_eq in H
         | H : (_ <=? _)%N = false |- _ => apply N.leb_gt in H
         | H : (_ <? _)%N = false |- _ => apply N.ltb_ge in H
         | H : (_ =? _)%N = false |- _ => apply N.eqb_neq in H
         end.

Lemma scalar_intro c :
  (c < 1114112)%N -> ~ (55296 <= c <= 57343)%N -> scalar c = true.
Proof.
  intros H1 H2. unfold scalar. rewrite (proj2 (N.ltb_lt _ _) H1). simpl.
  destruct (N.leb_spec 55296 c); [|reflexivity].
  destruct (N.leb_spec c 57343); [lia|reflexivity].
Qed.

Lemma mapM_Forall2 {A B} (f : A -> outcome B) l r :
  mapM f l = Ok r <-> Forall2 (fun a b => f a = Ok b) l r.
Proof.
  revert r. induction l as [|a l IH]; intros r; simpl.
  - split; [intros [= <-]; constructor|inversion 1; reflexivity].
  - destruct (f a) as [b|e] eqn:Ea; simpl.
    + destruct (mapM f l) as [bs|e] eqn:El; simpl.
      * split.
        -- intros [= <-]. constructor; [assumption|now apply IH].
        -- inversion 1; subst. f_equal. f_equal; [congruence|].
           apply IH in H4. congruence.
      * split; [discriminate|].
        inversion 1; subst. apply IH in H4. discriminate.
    + split; [discriminate|]. inversion 1; congruence.
Qed.

Lemma unescape_parts s parts rest :
  Forall2 (fun c e => encode_char c = Ok e) s parts ->
  unescape (concat parts ++ rest)
  = option_map (app (flat_map tokens_of s)) (unescape rest).
Proof.
  induction 1 as [|c e s parts He _ IH]; simpl.
  - now destruct (unescape rest).
  - rewrite <- app_assoc, (unescape_encode_char _ _ _ He), IH.
    destruct (unescape rest); simpl; [|reflexivity].
    now rewrite app_assoc.
Qed.

Lemma assemble_flat s :
  Forall (fun c => scalar c = true) s ->
  assemble (flat_map tokens_of s) = Some s.
Proof.
  induction 1 as [|c s Hc _ IH]; simpl; [reflexivity|].
  now rewrite assemble_tokens_of, IH.
Qed.

(** Decoding undoes encoding. *)
Lemma decode_encode s e :
  encodeURIComponent s = Ok e -> decodeURIComponent e = Ok s.
Proof.
  unfold encodeURIComponent, decodeURIComponent.
  destruct (mapM encode_char s) as [parts|err] eqn:E; simpl; [|discriminate].
  intros [= <-]. apply mapM_Forall2 in E.
  rewrite <- (app_nil_r (concat parts)), (unescape_parts _ _ _ E). simpl.
  rewrite app_nil_r, assemble_flat; [reflexivity|].
  clear -E. induction E; constructor; eauto using encode_char_scalar.
Qed.

Lemma encode_char_plain c e : encode_char c = Ok e -> Forall plain e.
Proof.
  intros He. pose proof (encode_char_scalar c e He) as Hs. revert He.
  unfold encode_char. destruct (unreserved c) eqn:Eu.
  - intros [= <-]. constructor; [left; exact Eu|constructor].
  - destruct (utf8 c) as [octets|] eqn:E8; [|discriminate].
    intros [= <-]. pose proof (utf8_octets _ _ Hs E8) as Ho.
    clear -Ho. induction Ho as [|b octets Hb _ IH]; [constructor|].
    change (concat (map escape (b :: octets)))
      with (percent :: hex_digit (b / 16) :: hex_digit (b mod 16)
                    :: concat (map escape octets)).
    constructor; [now right|].
    constructor; [left; apply hex_digit_unreserved;
                  apply N.Div0.div_lt_upper_bound; lia|].
    constructor; [left; apply hex_digit_unreserved; apply N.mod_lt; lia|].
    exact IH.
Qed.

Lemma encode_plain s e : encodeURIComponent s = Ok e -> Forall plain e.
Proof.
  unfold encodeURIComponent.
  destruct (mapM encode_char s) as [parts|err] eqn:E; simpl; [|discriminate].
  intros [= <-]. apply mapM_Forall2 in E.
  induction E as [|c p s parts Hp _ IH]; simpl; [constructor|].
  apply Forall_app. split; [eapply encode_char_plain; eauto|exact IH].
Qed.

Lemma plain_facts c :
  plain c ->
  c <> Cookie.semicolon /\ c <> Cookie.equals /\ is_white_space c = false.
Proof.
  intros [H| ->]; [|repeat split; discriminate].
  unfold unreserved in H.
  destruct (N.ltb_spec c 128) as [Hlt|Hge].
  - repeat split; try (intros ->; discriminate H).
    unfold is_white_space.
    destruct (N.leb_spec c 13).
    + exfalso. revert H. settle. discriminate.
    + destruct (N.eqb_spec c 32) as [->|]; [discriminate H|].
      settle. reflexivity.
  - exfalso. revert H. settle. discriminate.
Qed.

Lemma encode_total s :
  Forall (fun c => scalar c = true) s -> exists e, encodeURIComponent s = Ok e.
Proof.
  intros H. unfold encodeURIComponent.
  assert (exists parts, mapM encode_char s = Ok parts) as [parts ->].
  { induction H as [|c s Hc _ [parts IH]]; simpl; [eauto|].
    destruct (scalar_encode_char c Hc) as [e ->]. rewrite IH. simpl. eauto. }
  simpl. eauto.
Qed.

(** Raw tokens come from the text. *)
Lemma unescape_raw_in : forall n s ts,
  length s <= n ->
  unescape s = Some ts ->
  forall c, In (Raw c) ts -> In c s.
Proof.
  induction n as [|n IH]; intros s ts Hn.
  - destruct s; [|simpl in Hn; lia]. intros [= <-] c [].
  - destruct s as [|c0 s]; [intros [= <-] c []|].
    simpl. destruct (N.eqb_spec c0 percent).
    + destruct s as [|h1 [|h2 s2]]; try discriminate.
      destruct (hex_val h1), (hex_val h2); try discriminate.
      destruct (unescape s2) as [ts2|] eqn:E2; [|discriminate].
      intros [= <-] c [Hc|Hc]; [discriminate|].
      right; right; right. eapply IH; eauto. simpl in Hn. lia.
    + destruct (unescape s) as [ts1|] eqn:E1; [|discriminate].
      simpl. intros [= <-] c [[= ->]|Hc]; [now left|].
      right. eapply IH; eauto. simpl in Hn. lia.
Qed.

Lemma assemble_scalar : forall n ts r,
  length ts <= n ->
  (forall c, In (Raw c) ts -> scalar c = true) ->
  assemble ts = Some r ->
  Forall (fun c => scalar c = true) r.
Proof.
  induction n as [|n IH]; intros ts r Hn Hraw.
  - destruct ts; [|simpl in Hn; lia]. intros [= <-]. constructor.
  - destruct ts as [|[c|b] ts1]; [intros [= <-]; constructor| |];
      cbv beta iota delta [assemble]; fold assemble.
    + destruct (assemble ts1) as [r1|] eqn:E1; [|discriminate].
      simpl. intros [= <-]. constructor; [apply Hraw; now left|].
      apply (IH ts1 r1);
        [simpl in Hn; lia | intros; apply Hraw; now right | exact E1].
    + assert (Hsub : forall m ts' r',
                 length ts' <= n ->
                 (forall c, In (Raw c) ts' -> In (Raw c) ts1) ->
                 scalar m = true ->
                 option_map (cons m) (assemble ts') = Some r' ->
                 Forall (fun c => scalar c = true) r').
      { intros m ts' r' Hl Hin Hm.
        destruct (assemble ts') as [r1|] eqn:E1; [|discriminate].
        simpl. intros [= <-]. constructor; [assumption|].
        apply (IH ts' r1); [exact Hl | | exact E1].
        intros; apply Hraw; right; auto. }
      simpl in Hn.
      destruct (b <? 128)%N eqn:T1.
      { apply Hsub; [lia|auto|]. unbool. apply scalar_intro; lia. }
      destruct ((192 <=? b) && (b <=? 223))%N eqn:T2.
      { destruct ts1 as [|[c1|b1] ts2]; try discriminate.
        unfold continuation.
        destruct ((128 <=? b1) && (b1 <=? 191)
                  && (128 <=? (b - 192) * 64 + (b1 - 128)))%N eqn:T;
          [|discriminate].
        apply Hsub; [simpl in Hn; lia|intros; right; assumption|].
        unbool. apply scalar_intro; lia. }
      destruct ((224 <=? b) && (b <=? 239))%N eqn:T3.
      { destruct ts1 as [|[c1|b1] [|[c2|b2] ts3]]; try discriminate.
        unfold continuation.
        match goal with
        | |- (if ?t then _ else _) = _ -> _ => destruct t eqn:T; [|discriminate]
        end.
        apply Hsub; [simpl in Hn; lia|intros; right; right; assumption|].
        apply andb_prop in T as [T Tsur].
        apply negb_true_iff in Tsur.
        unbool. apply scalar_intro; [lia|].
        intros [F1 F2]. apply N.leb_le in F1, F2. rewrite F1, F2 in Tsur.
        discriminate. }
      destruct ((240 <=? b) && (b <=? 247))%N eqn:T4; [|discriminate].
      destruct ts1 as [|[c1|b1] [|[c2|b2] [|[c3|b3] ts4]]]; try discriminate.
      unfold continuation.
      match goal with
      | |- (if ?t then _ else _) = _ -> _ => destruct t eqn:T; [|discriminate]
      end.
      apply Hsub; [simpl in Hn; lia|intros; right; right; right; assumption|].
      unbool. apply scalar_intro; lia.
Qed.

Lemma decode_scalar s r :
  Forall (fun c => scalar c = true) s ->
  decodeURIComponent s = Ok r ->
  Forall (fun c => scalar c = true) r.
Proof.
  intros Hs. unfold decodeURIComponent.
  destruct (unescape s) as [ts|] eqn:Eu; [|discriminate].
  destruct (assemble ts) as [r'|] eqn:Ea; [|discriminate].
  intros [= <-].
  eapply assemble_scalar; eauto.
  intros c Hc. rewrite Forall_forall in Hs. apply Hs.
  eapply unescape_raw_in; eauto.
Qed.

End URIFacts.

Module SplitFacts.
Import StringFacts.

Lemma split_not_nil sep s : split sep s <> [].
Proof.
  destruct s as [|c s]; simpl; [discriminate|].
  destruct (c =? sep)%N; [discriminate|].
  destruct (split sep s); discriminate.
Qed.

Lemma split_no_sep sep s : ~ In sep s -> split sep s = [s].
Proof.
  induction s as [|c s IH]; simpl; intros H; [reflexivity|].
  destruct (N.eqb_spec c sep) as [->|_]; [tauto|].
  rewrite IH by tauto. reflexivity.
Qed.

Lemma split_app sep a rest :
  ~ In sep a -> split sep (a ++ sep :: rest) = a :: split sep rest.
Proof.
  induction a as [|c a IH]; simpl; intros H.
  - now rewrite N.eqb_refl.
  - destruct (N.eqb_spec c sep) as [->|_]; [tauto|].
    rewrite IH by tauto. reflexivity.
Qed.

Lemma split_join sep pieces :
  pieces <> [] ->
  Forall (fun p => ~ In sep p) pieces ->
  split sep (join sep pieces) = pieces.
Proof.
  intros Hne H. induction H as [|p pieces Hp Hrest IH]; [congruence|].
  destruct pieces as [|q pieces].
  - simpl. now apply split_no_sep.
  - change (join sep (p :: q :: pieces))
      with (p ++ sep :: join sep (q :: pieces)).
    rewrite split_app by assumption. f_equal. apply IH. discriminate.
Qed.

Lemma Forall_split (P : N -> Prop) sep s :
  Forall P s -> Forall (Forall P) (split sep s).
Proof.
  induction 1 as [|c s Hc _ IH]; simpl.
  - repeat constructor.
  - destruct (c =? sep)%N; [constructor; [constructor|exact IH]|].
    destruct (split sep s) as [|seg segs]; [repeat constructor; assumption|].
    inversion_clear IH. constructor; [constructor|]; assumption.
Qed.

Lemma count_one_split sep s :
  count_occ N.eq_dec s sep = 1 ->
  exists a b, s = a ++ sep :: b /\ ~ In sep a /\ ~ In sep b.
Proof.
  induction s as [|c s IH]; simpl; [discriminate|].
  destruct (N.eq_dec c sep) as [->|Hc].
  - intros [= H]. exists [], s. repeat split; [tauto|].
    now apply (count_occ_not_In N.eq_dec).
  - intros H. destruct (IH H) as (a & b & -> & Ha & Hb).
    exists (c :: a), b. repeat split; [|assumption].
    simpl. intros [E|E]; [congruence|tauto].
Qed.

Lemma trimStart_Forall (P : N -> Prop) s : Forall P s -> Forall P (trimStart s).
Proof.
  induction 1 as [|c s Hc Hs IH]; simpl; [constructor|].
  destruct (is_white_space c); [exact IH|now constructor].
Qed.

Lemma trim_Forall (P : N -> Prop) s : Forall P s -> Forall P (trim s).
Proof.
  intros H. unfold trim, trimEnd.
  apply Forall_rev, trimStart_Forall, Forall_rev, trimStart_Forall, H.
Qed.

Lemma trimStart_count c s :
  is_white_space c = false ->
  count_occ N.eq_dec (trimStart s) c = count_occ N.eq_dec s c.
Proof.
  intros Hc. induction s as [|x s IH]; simpl; [reflexivity|].
  destruct (is_white_space x) eqn:Ex; [|reflexivity].
  rewrite IH. destruct (N.eq_dec x c); [congruence|reflexivity].
Qed.

Lemma trim_count c s :
  is_white_space c = false ->
  count_occ N.eq_dec (trim s) c = count_occ N.eq_dec s c.
Proof.
  intros Hc. unfold trim, trimEnd.
  now rewrite count_occ_rev, trimStart_count, count_occ_rev, trimStart_count.
Qed.

Lemma trimStart_id s :
  Forall (fun c => is_white_space c = false) s -> trimStart s = s.
Proof. destruct 1 as [|c s Hc _]; simpl; [reflexivity|now rewrite Hc]. Qed.

Lemma trim_id s : Forall (fun c => is_white_space c = false) s -> trim s = s.
Proof.
  intros H. unfold trim, trimEnd.
  rewrite (trimStart_id s H), (trimStart_id (rev s)) by now apply Forall_rev.
  apply rev_involutive.
Qed.

End SplitFacts.

Module CookieFacts.
Import StringFacts ObjectFacts SplitFacts URIFacts.

Lemma foldM_app {A B} (f : A -> B -> outcome A) l1 l2 a :
  foldM f (l1 ++ l2) a = do a' <- foldM f l1 a; foldM f l2 a'.
Proof.
  revert a. induction l1 as [|b l1 IH]; intros a; simpl; [reflexivity|].
  destruct (f a b); simpl; [apply IH|reflexivity].
Qed.

Lemma obj_get_app {V} (o1 o2 : obj V) k :
  obj_get (o1 ++ o2) k
  = match obj_get o1 k with Some v => Some v | None => obj_get o2 k end.
Proof.
  induction o1 as [|[k' v'] o1 IH]; simpl; [reflexivity|].
  now destruct (eqb k' k).
Qed.

(** The constructor reads every segment, then assigns the pairs in
    order. *)
Lemma new_as_assignments segs :
  forall acc entries,
    mapM parse_pair segs = Ok entries ->
    foldM reduce_step segs acc = Ok (fold_left assign entries acc).
Proof.
  induction segs as [|seg segs IH]; intros acc entries; simpl.
  - now intros [= <-].
  - unfold reduce_step at 1.
    destruct (parse_pair seg) as [[k v]|e]; simpl; [|discriminate].
    destruct (mapM parse_pair segs) as [es|e]; simpl; [|discriminate].
    intros [= <-]. simpl. now apply IH.
Qed.

Lemma get_assign jar kv k :
  get (assign jar kv) k
  = if eqb (fst kv) proto then get jar k
    else if eqb (fst kv) k then Some (snd kv) else get jar k.
Proof.
  unfold assign, set_property, get. fold proto.
  destruct (eqb (fst kv) proto); [reflexivity|].
  destruct (eqb (fst kv) k) eqn:E.
  - apply eqb_eq in E. subst k. apply obj_get_set_same.
  - apply eqb_neq in E. now apply obj_get_set_other.
Qed.

Lemma get_assignments entries :
  forall acc k,
    get (fold_left assign entries acc) k
    = if eqb k proto then get acc k
      else match last_entry entries k with
           | Some v => Some v
           | None => get acc k
           end.
Proof.
  unfold last_entry.
  induction entries as [|[k0 v0] entries IH]; intros acc k; simpl.
  - now destruct (eqb k proto).
  - rewrite IH, obj_get_app, get_assign. simpl.
    destruct (eqb k proto) eqn:Ep.
    + apply eqb_eq in Ep. subst k.
      destruct (eqb k0 proto); reflexivity.
    + destruct (obj_get (rev entries) k); [reflexivity|].
      destruct (eqb k0 k) eqn:E; [|now destruct (eqb k0 proto)].
      apply eqb_eq in E. subst k0. now rewrite Ep.
Qed.

Lemma parse_pair_two seg a b ka vb :
  trim seg = a ++ equals :: b ->
  ~ In equals a -> ~ In equals b ->
  URI.decodeURIComponent a = Ok ka ->
  URI.decodeURIComponent b = Ok vb ->
  parse_pair seg = Ok (ka, Some vb).
Proof.
  intros Ht Ha Hb Da Db. unfold parse_pair.
  rewrite Ht, split_app, split_no_sep by assumption.
  simpl. now rewrite Da, Db.
Qed.

Lemma parse_pair_three seg a b c ka vb ds :
  trim seg = a ++ equals :: b ++ equals :: c ->
  ~ In equals a -> ~ In equals b ->
  URI.decodeURIComponent a = Ok ka ->
  URI.decodeURIComponent b = Ok vb ->
  mapM URI.decodeURIComponent (split equals c) = Ok ds ->
  parse_pair seg = Ok (ka, Some vb).
Proof.
  intros Ht Ha Hb Da Db Dc. unfold parse_pair.
  rewrite Ht, !split_app by assumption.
  simpl. now rewrite Da, Db, Dc.
Qed.

(** X3.  The header is split on [;], each segment
    is trimmed and split on every [=], every field is URL-decoded, and
    the first two become key and value: in [a=b=c] the key is [a] and
    the value is [b], the text between the first and the second [=]
    (with a single [=], all that follows it).  Assignments run in
    order, so the last entry under a key wins; a key [__proto__] is not
    stored. *)
Theorem segment_fields_and_last_wins :
  (forall seg a b c ka vb ds,
      trim seg = a ++ equals :: b ++ equals :: c ->
      ~ In equals a -> ~ In equals b ->
      URI.decodeURIComponent a = Ok ka ->
      URI.decodeURIComponent b = Ok vb ->
      mapM URI.decodeURIComponent (split equals c) = Ok ds ->
      parse_pair seg = Ok (ka, Some vb))
  /\ (forall seg a b ka vb,
         trim seg = a ++ equals :: b ->
         ~ In equals a -> ~ In equals b ->
         URI.decodeURIComponent a = Ok ka ->
         URI.decodeURIComponent b = Ok vb ->
         parse_pair seg = Ok (ka, Some vb))
  /\ (forall cookie entries,
         mapM parse_pair (split semicolon cookie) = Ok entries ->
         exists jar,
           CookieJar_new cookie = Ok jar
           /\ forall k,
                get jar k
                = if eqb k (js "__proto__") then None
                  else last_entry entries k).
Proof.
  split; [exact parse_pair_three|]. split; [exact parse_pair_two|].
  intros cookie entries H. eexists. split.
  - unfold CookieJar_new. exact (new_as_assignments _ [] entries H).
  - intros k. rewrite get_assignments. fold proto.
    destruct (eqb k proto); [reflexivity|].
    destruct (last_entry entries k); reflexivity.
Qed.

Lemma segment_fields_and_last_wins_witness :
  parse_pair (js " a=b=c ") = Ok (js "a", Some (js "b"))
  /\ exists jar,
       CookieJar_new (js "k=1; k=2") = Ok jar
       /\ get jar (js "k") = Some (Some (js "2")).
Proof.
  destruct segment_fields_and_last_wins as (H3 & _ & Hlast).
  split.
  - apply (H3 (js " a=b=c ") (js "a") (js "b") (js "c") _ _ [js "c"]);
      try reflexivity; vm_compute; intuition discriminate.
  - destruct (Hlast (js "k=1; k=2")
                    [(js "k", Some (js "1")); (js "k", Some (js "2"))]
                    eq_refl) as (jar & Hjar & Hget).
    exists jar. split; [exact Hjar|]. apply (Hget (js "k")).
Defined.

(** C8 at the input where the code departs from it: for the segment
    [a=b=c] the parsed value is [b], not [b=c]. *)
Theorem value_stops_at_second_equals :
  exists jar,
    CookieJar_new (js "a=b=c") = Ok jar
    /\ get jar (js "a") = Some (Some (js "b"))
    /\ get jar (js "a") <> Some (Some (js "b=c")).
Proof.
  eexists. split; [reflexivity|]. split; [reflexivity|]. discriminate.
Qed.

(** C9.  Splitting the empty string on [;] gives one empty segment, and
    the jar built from the empty string holds exactly one entry: the
    empty key, with the value [undefined]. *)
Theorem empty_cookie_gives_one_empty_key :
  split semicolon (js "") = [js ""]
  /\ CookieJar_new (js "") = Ok [(js "", None)].
Proof. split; reflexivity. Qed.


(** *** The round trip *)

Lemma insert_index_In e x l : In e (insert_index x l) <-> e = x \/ In e l.
Proof.
  induction l as [|y l IH]; simpl; [intuition|].
  destruct (fst x <=? fst y)%N; simpl; [intuition|].
  rewrite IH. intuition.
Qed.

Lemma sort_index_In e l : In e (sort_index l) <-> In e l.
Proof.
  induction l as [|x l IH]; simpl; [tauto|].
  rewrite insert_index_In, IH. intuition.
Qed.

Lemma index_keys_In i k keys :
  In (i, k) (index_keys keys) <-> In k keys /\ array_index k = Some i.
Proof.
  unfold index_keys. rewrite in_flat_map. split.
  - intros (x & Hx & Hin). destruct (array_index x) eqn:E; [|contradiction].
    destruct Hin as [[= <- <-]|[]]. auto.
  - intros [Hk E]. exists k. split; [assumption|]. rewrite E. now left.
Qed.

Lemma own_keys_In jar k : In k (own_keys jar) <-> In k (map fst jar).
Proof.
  unfold own_keys. rewrite in_app_iff, in_map_iff, filter_In. split.
  - intros [([i k'] & Hk & Hin) | [H _]]; [|assumption].
    simpl in Hk. subst k'. apply sort_index_In, index_keys_In in Hin. tauto.
  - intros H. unfold is_index. destruct (array_index k) as [i|] eqn:E.
    + left. exists (i, k). split; [reflexivity|].
      apply sort_index_In, index_keys_In. auto.
    + right. split; [assumption|reflexivity].
Qed.

Lemma obj_set_Forall {V} (P : str * V -> Prop) o k v :
  Forall P o -> P (k, v) -> Forall P (obj_set o k v).
Proof.
  intros Ho Hkv. induction Ho as [|[k' v'] o Hx Ho' IH]; simpl.
  - repeat constructor. assumption.
  - destruct (eqb k' k) eqn:E.
    + apply eqb_eq in E. subst k'. now constructor.
    + now constructor.
Qed.

Lemma foldM_invariant {A B} (f : A -> B -> outcome A)
      (P : A -> Prop) (Q : B -> Prop) :
  (forall a b a', P a -> Q b -> f a b = Ok a' -> P a') ->
  forall l a r, P a -> Forall Q l -> foldM f l a = Ok r -> P r.
Proof.
  intros Hstep l. induction l as [|b l IH]; intros a r Ha Hl; simpl.
  - now intros [= <-].
  - inversion_clear Hl as [|? ? Hb Hl'].
    destruct (f a b) as [a'|e] eqn:E; simpl; [|discriminate].
    apply IH; eauto.
Qed.

Lemma parse_pair_good seg k v :
  Forall (fun c => scalar c = true) seg ->
  count_occ N.eq_dec seg equals = 1 ->
  parse_pair seg = Ok (k, v) ->
  Forall (fun c => scalar c = true) k
  /\ exists v', v = Some v' /\ Forall (fun c => scalar c = true) v'.
Proof.
  intros Hs Hc.
  rewrite <- (trim_count equals seg eq_refl) in Hc.
  destruct (count_one_split _ _ Hc) as (a & b & Ht & Ha & Hb).
  apply (trim_Forall _ seg) in Hs. rewrite Ht in Hs.
  apply Forall_app in Hs as [Hsa Hsb]. inversion_clear Hsb as [|? ? _ Hsb'].
  unfold parse_pair. rewrite Ht, split_app, split_no_sep by assumption.
  simpl.
  destruct (URI.decodeURIComponent a) as [ka|e] eqn:Da; simpl; [|discriminate].
  destruct (URI.decodeURIComponent b) as [vb|e] eqn:Db; simpl; [|discriminate].
  intros [= <- <-]. split; [exact (decode_scalar a _ Hsa Da)|].
  exists vb. split; [reflexivity|exact (decode_scalar b _ Hsb' Db)].
Qed.

Lemma well_formed_segments cookie :
  well_formed_cookie cookie = true ->
  Forall (fun seg => Forall (fun c => scalar c = true) seg
                     /\ count_occ N.eq_dec seg equals = 1)
         (split semicolon cookie).
Proof.
  unfold well_formed_cookie. intros H.
  apply andb_prop in H as [Hs Hc].
  rewrite forallb_forall in Hs, Hc.
  assert (Hs' : Forall (fun c => scalar c = true) cookie)
    by (apply Forall_forall; exact Hs).
  pose proof (Forall_split _ semicolon cookie Hs') as Hsplit.
  rewrite Forall_forall in Hsplit |- *.
  intros seg Hseg. split; [now apply Hsplit|].
  apply Nat.eqb_eq. now apply Hc.
Qed.

Lemma new_good cookie jar :
  well_formed_cookie cookie = true ->
  CookieJar_new cookie = Ok jar ->
  Forall good_entry jar.
Proof.
  intros Hwf. unfold CookieJar_new.
  apply (foldM_invariant reduce_step (Forall good_entry)
           (fun seg => Forall (fun c => scalar c = true) seg
                       /\ count_occ N.eq_dec seg equals = 1));
    [|constructor|now apply well_formed_segments].
  intros res seg res' Hres [Hs Hc]. unfold reduce_step.
  destruct (parse_pair seg) as [[k v]|e] eqn:E; simpl; [|discriminate].
  intros [= <-].
  destruct (parse_pair_good _ _ _ Hs Hc E) as (Hk & v' & -> & Hv).
  unfold set_property. fold proto.
  destruct (eqb k proto) eqn:Ep; [assumption|].
  apply obj_set_Forall; [assumption|].
  apply eqb_neq in Ep. repeat split; simpl; eauto.
Qed.

Lemma good_get jar k :
  Forall good_entry jar ->
  In k (map fst jar) ->
  k <> proto
  /\ Forall (fun c => scalar c = true) k
  /\ exists v, get jar k = Some (Some v)
               /\ Forall (fun c => scalar c = true) v.
Proof.
  intros Hg Hin.
  destruct (get jar k) as [x|] eqn:E.
  - unfold get in E. apply obj_get_In in E.
    rewrite Forall_forall in Hg. destruct (Hg _ E) as (H1 & H2 & v & H3 & H4).
    simpl in *. subst x. eauto 6.
  - unfold get in E. apply obj_get_None in E. contradiction.
Qed.

Lemma good_no_proto jar : Forall good_entry jar -> get jar proto = None.
Proof.
  intros Hg. unfold get. apply obj_get_None. intros Hin.
  apply (good_get _ _ Hg) in Hin. tauto.
Qed.

(** The loop of [toString] over keys the jar owns *)
Lemma toString_loop jar :
  get jar (js "hasOwnProperty") = None ->
  Forall good_entry jar ->
  forall ks acc,
    (forall k, In k ks -> In k (map fst jar)) ->
    exists pairs,
      foldM (toString_step jar) ks acc = Ok (acc ++ pairs)
      /\ Forall2 (pair_of jar) ks pairs.
Proof.
  intros Hh Hg ks. induction ks as [|k ks IH]; intros acc Hks.
  - exists []. simpl. rewrite app_nil_r. split; [reflexivity|constructor].
  - destruct (good_get jar k Hg (Hks k (or_introl eq_refl)))
      as (_ & Hk & v & Hv & Hsv).
    destruct (encode_total _ Hk) as [ek Ek].
    destruct (encode_total _ Hsv) as [ev Ev].
    destruct (IH (acc ++ [ek ++ equals :: ev])
                 (fun x Hx => Hks x (or_intror Hx))) as (pairs & Hf & Hp).
    exists ((ek ++ equals :: ev) :: pairs). split.
    + simpl. unfold toString_step at 1, hasOwnProperty, has, property_string.
      rewrite Hh, Hv. simpl. rewrite Ek, Ev. simpl.
      rewrite Hf, <- app_assoc. reflexivity.
    + constructor; [|assumption]. exists v, ek, ev. auto.
Qed.

Lemma parse_pair_encoded k v ek ev :
  URI.encodeURIComponent k = Ok ek ->
  URI.encodeURIComponent v = Ok ev ->
  parse_pair (ek ++ equals :: ev) = Ok (k, Some v).
Proof.
  intros Ek Ev.
  pose proof (encode_plain _ _ Ek) as Pk.
  pose proof (encode_plain _ _ Ev) as Pv.
  assert (Hno : forall e, Forall plain e -> ~ In equals e).
  { intros e He Hin. rewrite Forall_forall in He.
    apply He, plain_facts in Hin. tauto. }
  assert (Hws : forall e, Forall plain e ->
                          Forall (fun c => is_white_space c = false) e).
  { intros e He. eapply Forall_impl; [|exact He].
    intros c Hc. now apply plain_facts in Hc. }
  apply parse_pair_two with (a := ek) (b := ev); auto using decode_encode.
  apply trim_id, Forall_app. split; [auto|]. constructor; [reflexivity|auto].
Qed.

Lemma pair_no_semicolon jar k p : pair_of jar k p -> ~ In semicolon p.
Proof.
  intros (v & ek & ev & _ & Ek & Ev & ->) Hin.
  apply in_app_iff in Hin as [Hin|[Hin|Hin]]; [|discriminate|].
  - pose proof (encode_plain _ _ Ek) as P. rewrite Forall_forall in P.
    apply P, plain_facts in Hin. tauto.
  - pose proof (encode_plain _ _ Ev) as P. rewrite Forall_forall in P.
    apply P, plain_facts in Hin. tauto.
Qed.

Lemma reparse jar ks pairs :
  Forall2 (pair_of jar) ks pairs ->
  forall acc,
    foldM reduce_step pairs acc
    = Ok (fold_left (fun j k => set_property j k (value_in jar k)) ks acc).
Proof.
  induction 1 as [|k p ks pairs (v & ek & ev & Hv & Ek & Ev & ->) _ IH];
    intros acc; simpl; [reflexivity|].
  unfold reduce_step at 1. rewrite (parse_pair_encoded _ _ _ _ Ek Ev). simpl.
  rewrite IH. unfold value_in. now rewrite Hv.
Qed.

Lemma get_fold_keys (val : str -> option str) ks :
  (forall x, In x ks -> x <> proto) ->
  forall acc k,
    (In k ks ->
     get (fold_left (fun j x => set_property j x (val x)) ks acc) k
     = Some (val k))
    /\ (~ In k ks ->
        get (fold_left (fun j x => set_property j x (val x)) ks acc) k
        = get acc k).
Proof.
  induction ks as [|x ks IH]; intros Hp acc k; simpl.
  - tauto.
  - assert (Hx : x <> proto) by (apply Hp; now left).
    assert (Hp' : forall y, In y ks -> y <> proto)
      by (intros; apply Hp; now right).
    destruct (IH Hp' (set_property acc x (val x)) k) as [IH1 IH2].
    assert (Hset : forall y, get (set_property acc x (val x)) y
                             = if eqb x y then Some (val x) else get acc y).
    { intros y. change (set_property acc x (val x))
        with (assign acc (x, val x)).
      rewrite get_assign. simpl. apply eqb_neq in Hx. now rewrite Hx. }
    destruct (in_dec str_eq_dec k ks) as [Hin|Hnin].
    + split; [intros _; now apply IH1|]. tauto.
    + split.
      * intros [->|Hk]; [|contradiction].
        rewrite (IH2 Hnin), Hset, eqb_refl. reflexivity.
      * intros Hn. rewrite (IH2 Hnin), Hset.
        destruct (eqb x k) eqn:E; [|reflexivity].
        apply eqb_eq in E. tauto.
Qed.

(** X2.  Take a jar built from a well-formed cookie string; let it hold
    at least one entry and none named [toString] or [hasOwnProperty].
    Then [toString] returns, its result parses, and the jar parsed from
    it holds the same value under every key. *)
Theorem cookie_round_trip :
  forall (cookie : str) (jar : CookieJar),
    well_formed_cookie cookie = true ->
    CookieJar_new cookie = Ok jar ->
    jar <> [] ->
    get jar (js "toString") = None ->
    get jar (js "hasOwnProperty") = None ->
    exists (s : str) (jar' : CookieJar),
      Cookie.toString jar = Ok s
      /\ CookieJar_new s = Ok jar'
      /\ forall k, get jar' k = get jar k.
Proof.
  intros cookie jar Hwf Hnew Hne Hts Hhop.
  pose proof (new_good _ _ Hwf Hnew) as Hg.
  destruct (toString_loop jar Hhop Hg (own_keys jar) []
              (fun k H => proj1 (own_keys_In jar k) H))
    as (pairs & Hloop & Hpairs).
  simpl in Hloop.
  assert (Hstr : Cookie.toString jar = Ok (join semicolon pairs)).
  { unfold Cookie.toString. rewrite Hts.
    unfold toString_body, for_in_keys, has. rewrite Hts.
    rewrite foldM_app, Hloop. simpl.
    unfold toString_step, hasOwnProperty, has. rewrite Hhop, Hts.
    reflexivity. }
  assert (Hpne : pairs <> []).
  { intros ->. inversion Hpairs as [Hk|]. destruct jar as [|[k v] jar];
      [congruence|].
    assert (Hin : In k (own_keys ((k, v) :: jar)))
      by (apply own_keys_In; now left).
    rewrite <- Hk in Hin. contradiction. }
  assert (Hsplit : split semicolon (join semicolon pairs) = pairs).
  { apply split_join; [assumption|].
    clear -Hpairs. induction Hpairs; constructor;
      eauto using pair_no_semicolon. }
  exists (join semicolon pairs).
  exists (fold_left (fun j k => set_property j k (value_in jar k))
                    (own_keys jar) []).
  split; [exact Hstr|]. split.
  - unfold CookieJar_new. rewrite Hsplit. now apply reparse.
  - intros k.
    assert (Hp : forall x, In x (own_keys jar) -> x <> proto).
    { intros x Hx. apply own_keys_In in Hx.
      now apply (good_get _ _ Hg) in Hx. }
    destruct (get_fold_keys (value_in jar) (own_keys jar) Hp [] k)
      as [Hin Hout].
    destruct (in_dec str_eq_dec k (own_keys jar)) as [Hk|Hk].
    + rewrite (Hin Hk). apply own_keys_In in Hk.
      destruct (good_get _ _ Hg Hk) as (_ & _ & v & Hv & _).
      unfold value_in. now rewrite Hv.
    + rewrite (Hout Hk). rewrite own_keys_In in Hk.
      unfold get in *. apply obj_get_None in Hk. now rewrite Hk.
Qed.

Lemma cookie_round_trip_witness :
  exists (s : str) (jar' : CookieJar),
    Cookie.toString [(js "b", Some (js "x y")); (js "2", Some (js "="))]
    = Ok s
    /\ CookieJar_new s = Ok jar'
    /\ forall k,
         get jar' k
         = get [(js "b", Some (js "x y")); (js "2", Some (js "="))] k.
Proof.
  apply (cookie_round_trip (js " b=x%20y; 2=%3D")); try reflexivity.
  discriminate.
Defined.

(** C7 at the inputs where the code departs from it, three well-formed
    cookie strings: a cookie named [toString] or [hasOwnProperty] makes
    [toString] throw, and a cookie named [__proto__] alone leaves an
    empty jar, which comes back from its serialization with the
    spurious empty key. *)
Theorem round_trip_fails_on_prototype_names :
  well_formed_cookie (js "toString=x") = true
  /\ well_formed_cookie (js "hasOwnProperty=x") = true
  /\ well_formed_cookie (js "__proto__=x") = true
  /\ (exists jar, CookieJar_new (js "toString=x") = Ok jar
                  /\ Cookie.toString jar = Throw TypeError)
  /\ (exists jar, CookieJar_new (js "hasOwnProperty=x") = Ok jar
                  /\ Cookie.toString jar = Throw TypeError)
  /\ (exists jar s jar',
         CookieJar_new (js "__proto__=x") = Ok jar
         /\ Cookie.toString jar = Ok s
         /\ CookieJar_new s = Ok jar'
         /\ get jar (js "") = None
         /\ get jar' (js "") = Some None).
Proof.
  repeat split; try reflexivity.
  - eexists. split; reflexivity.
  - eexists. split; reflexivity.
  - do 3 eexists. repeat split; reflexivity.
Qed.

End CookieFacts.

Module RegExpFacts.

Section Matching.
Variable input : str.

Lemma consume_cont test : calls_continuation (consume input test).
Proof.
  intros x k z. unfold consume.
  destruct (nth_error input (pos x)); [|discriminate].
  destruct (test n); [eauto|discriminate].
Qed.

Lemma repeat_star_cont m gs greedy :
  calls_continuation m ->
  forall n max, calls_continuation (repeat_star n m gs max greedy).
Proof.
  intros Hm n. induction n as [|n IH]; intros max x k z; simpl.
  - destruct (exhausted max); eauto.
  - destruct (exhausted max); [eauto|].
    assert (Hd : forall w,
               (if pos w =? pos x then None
                else repeat_star n m gs (pred_max max) greedy w k) = Some z ->
               exists y, k y = Some z).
    { intros w. destruct (pos w =? pos x); [discriminate|]. apply IH. }
    destruct greedy.
    + destruct (m (clear gs x) _) as [z'|] eqn:E.
      * intros [= ->]. apply Hm in E as [w Hw]. eauto.
      * eauto.
    + destruct (k x) as [z'|] eqn:E.
      * intros [= ->]. eauto.
      * intros H. apply Hm in H as [w Hw]. eauto.
Qed.

Lemma repeat_min_cont m gs greedy :
  calls_continuation m ->
  forall min max, calls_continuation (repeat_min input min m gs max greedy).
Proof.
  intros Hm min. induction min as [|min IH]; intros max x k z; simpl.
  - apply repeat_star_cont, Hm.
  - destruct (exhausted max); [eauto|].
    intros H. apply Hm in H as [w Hw]. eapply IH; eauto.
Qed.

(** A match is always delivered by the continuation. *)
Lemma matcher_cont r : calls_continuation (matcher input r).
Proof.
  induction r as [| c | | neg rs | | | r1 IH1 r2 IH2 | r1 IH1 r2 IH2
                  | i r IH | min max greedy r IH];
    intros x k z; simpl.
  - eauto.
  - apply consume_cont.
  - apply consume_cont.
  - apply consume_cont.
  - destruct (pos x =? 0); [eauto|discriminate].
  - destruct (pos x =? length input); [eauto|discriminate].
  - intros H. apply IH1 in H as [y Hy]. eapply IH2; eauto.
  - destruct (matcher input r1 x k) as [z'|] eqn:E.
    + intros [= ->]. eapply IH1; eauto.
    + apply IH2.
  - intros H. apply IH in H as [y Hy]. eauto.
  - apply repeat_min_cont, IH.
Qed.

Lemma consume_local test : local_matcher input (consume input test).
Proof.
  intros x k1 k2 Hx Hk. unfold consume.
  destruct (nth_error input (pos x)) as [a|] eqn:E; [|reflexivity].
  destruct (test a); [|reflexivity].
  apply Hk. simpl.
  assert (pos x < length input) by (apply nth_error_Some; congruence).
  lia.
Qed.

(** The count [n] of [repeat_star] is a bound, not a budget: any count
    that covers the characters left gives the same result. *)
Lemma repeat_star_enough m gs greedy :
  calls_continuation m ->
  local_matcher input m ->
  forall n n' max x k1 k2,
    pos x <= length input ->
    length input - pos x <= n ->
    length input - pos x <= n' ->
    (forall y, pos x <= pos y <= length input -> k1 y = k2 y) ->
    repeat_star n m gs max greedy x k1 = repeat_star n' m gs max greedy x k2.
Proof.
  intros Hc Hl.
  assert (Hstop : forall x k (d : cont),
             pos x = length input ->
             (forall y, pos y = pos x -> d y = None) ->
             (if greedy
              then match m (clear gs x) d with
                   | Some z => Some z
                   | None => k x
                   end
              else match k x with
                   | Some z => Some z
                   | None => m (clear gs x) d
                   end) = k x).
  { intros x k d Hx Hd.
    assert (Hnone : m (clear gs x) d = None).
    { rewrite (Hl (clear gs x) d (fun _ => None)); simpl; [|lia|].
      - destruct (m (clear gs x) (fun _ => None)) as [z|] eqn:E;
          [|reflexivity].
        apply Hc in E as [y Hy]. discriminate.
      - intros y Hy. apply Hd. lia. }
    rewrite Hnone. destruct greedy; [reflexivity|]. now destruct (k x). }
  induction n as [|n IH]; intros n' max x k1 k2 Hx Hn Hn' Hk.
  - assert (Hend : pos x = length input) by lia.
    assert (Hkx : k1 x = k2 x) by (apply Hk; lia).
    destruct n' as [|n']; simpl; destruct (exhausted max); try exact Hkx.
    rewrite (Hstop x k2); [exact Hkx|exact Hend|].
    intros y Hy. apply Nat.eqb_eq in Hy. now rewrite Hy.
  - assert (Hkx : k1 x = k2 x) by (apply Hk; lia).
    destruct n' as [|n']; simpl; destruct (exhausted max); try exact Hkx.
    + assert (Hend : pos x = length input) by lia.
      rewrite (Hstop x k1); [exact Hkx|exact Hend|].
      intros y Hy. apply Nat.eqb_eq in Hy. now rewrite Hy.
    + assert (Hd : m (clear gs x)
                     (fun y => if pos y =? pos x then None
                               else repeat_star n m gs (pred_max max)
                                                greedy y k1)
                   = m (clear gs x)
                       (fun y => if pos y =? pos x then None
                                 else repeat_star n' m gs (pred_max max)
                                                  greedy y k2)).
      { apply Hl; [exact Hx|]. simpl. intros y Hy.
        destruct (Nat.eqb_spec (pos y) (pos x)); [reflexivity|].
        apply IH; try lia. intros w Hw. apply Hk. lia. }
      rewrite Hd, Hkx. reflexivity.
Qed.

Lemma repeat_star_local m gs greedy max :
  calls_continuation m ->
  local_matcher input m ->
  local_matcher input
    (fun x => repeat_star (length input - pos x) m gs max greedy x).
Proof.
  intros Hc Hl x k1 k2 Hx Hk.
  now apply repeat_star_enough.
Qed.

Lemma repeat_min_local m gs greedy :
  calls_continuation m ->
  local_matcher input m ->
  forall min max, local_matcher input (repeat_min input min m gs max greedy).
Proof.
  intros Hc Hl min. induction min as [|min IH]; intros max x k1 k2 Hx Hk;
    simpl.
  - now apply repeat_star_enough.
  - destruct (exhausted max); [apply Hk; lia|].
    apply Hl; [exact Hx|]. simpl. intros y Hy.
    apply IH; [lia|]. intros w Hw. apply Hk. lia.
Qed.

Lemma matcher_local r : local_matcher input (matcher input r).
Proof.
  induction r as [| c | | neg rs | | | r1 IH1 r2 IH2 | r1 IH1 r2 IH2
                  | i r IH | min max greedy r IH];
    intros x k1 k2 Hx Hk; simpl.
  - apply Hk. lia.
  - now apply consume_local.
  - now apply consume_local.
  - now apply consume_local.
  - destruct (pos x =? 0); [apply Hk; lia|reflexivity].
  - destruct (pos x =? length input); [apply Hk; lia|reflexivity].
  - apply IH1; [exact Hx|]. intros y Hy.
    apply IH2; [lia|]. intros w Hw. apply Hk. lia.
  - rewrite (IH1 x k1 k2 Hx Hk), (IH2 x k1 k2 Hx Hk). reflexivity.
  - apply IH; [exact Hx|]. intros y Hy. apply Hk. simpl. lia.
  - apply repeat_min_local; auto using matcher_cont.
Qed.

(** The loop of a quantifier does not depend on the bound it is run
    with, once the bound covers the rest of the subject. *)
Lemma quantifier_bound_is_enough r gs greedy n n' max x k :
  pos x <= length input ->
  length input - pos x <= n ->
  length input - pos x <= n' ->
  repeat_star n (matcher input r) gs max greedy x k
  = repeat_star n' (matcher input r) gs max greedy x k.
Proof.
  intros Hx Hn Hn'.
  apply repeat_star_enough; auto using matcher_cont, matcher_local.
Qed.

Lemma sequence_reaches_end ts :
  forall x z,
    matcher input (seq_of (ts ++ [Eol])) x Some = Some z ->
    pos z = length input.
Proof.
  induction ts as [|t ts IH]; intros x z; simpl.
  - destruct (pos x =? length input) eqn:E; [|discriminate].
    intros [= <-]. now apply Nat.eqb_eq.
  - intros H. apply matcher_cont in H as [y Hy]. eapply IH; eauto.
Qed.

Lemma search_found r n :
  forall i j y,
    search input r n i = Some (j, y) ->
    matcher input r (MState j []) Some = Some y.
Proof.
  induction n as [|n IH]; intros i j y; simpl.
  - destruct (matcher input r (MState i []) Some) eqn:E; [|discriminate].
    now intros [= <- <-].
  - destruct (matcher input r (MState i []) Some) eqn:E.
    + now intros [= <- <-].
    + apply IH.
Qed.

End Matching.

(** A pattern that is one sequence from [^] to [$] matches whole
    subjects only: the match starts at index 0 and its text is the
    subject. *)
Lemma anchored_sequence_matches_whole re ts s m :
  program re = seq_of (Bol :: ts ++ [Eol]) ->
  exec re s = Some m ->
  index m = 0 /\ hd_error (elements m) = Some (Some s).
Proof.
  intros Hp. unfold exec. rewrite Hp.
  destruct (search s _ (length s) 0) as [[i y]|] eqn:E; [|discriminate].
  intros [= <-]. simpl.
  apply search_found in E. simpl in E.
  destruct (Nat.eqb_spec i 0) as [->|_]; [|discriminate].
  apply sequence_reaches_end in E. rewrite E.
  unfold substring. rewrite Nat.sub_0_r. simpl. now rewrite firstn_all.
Qed.


Lemma registration_route name p target prop registry :
  Application_method name p target prop = Some registry ->
  exists re,
    RegExp_new (js "^" ++ p ++ js "$") = Some re
    /\ registry
       = match target with Some own => own | None => [] end
         ++ [Route_new name re prop].
Proof.
  unfold Application_method.
  destruct (RegExp_new (js "^" ++ p ++ js "$")) as [re|]; [|discriminate].
  intros [= <-]. eauto.
Qed.


(** The pattern [/items/([0-9]+)] matches the path [/items/12],
    capturing [12], and does not match [/items/12/extra]. *)
Lemma item_route_example :
  exists (R : Route) (req req' : HTTPRequest),
    item_route = Some [R]
    /\ HTTPRequest_new (get_request (js "/items/12") []) = Ok req
    /\ HTTPRequest_new (get_request (js "/items/12/extra") []) = Ok req'
    /\ Route_match R req
       = Some {| index := 0;
                 elements := [Some (js "/items/12"); Some (js "12")] |}
    /\ Route_match R req' = None.
Proof. do 3 eexists. evaluate. Qed.

(** C4 at the input where the code departs from it: the route
    registered with the pattern [/a|/b] matches the request
    [GET /a/extra], and what it matches is the prefix [/a], a partial
    path.  In [^/a|/b$] each anchor binds to one alternative only. *)
Theorem alternation_escapes_the_anchors :
  exists (R : Route) (req : HTTPRequest),
    either_route = Some [R]
    /\ source (pattern R) = js "^/a|/b$"
    /\ HTTPRequest_new (get_request (js "/a/extra") []) = Ok req
    /\ Route_match R req
       = Some {| index := 0; elements := [Some (js "/a")] |}.
Proof. do 2 eexists. evaluate. Qed.

End RegExpFacts.

(** ** The code on the spec's sample inputs *)

Module Samples.

Example split_empty : split 59 (js "") = [js ""].
Proof. reflexivity. Qed.

Example split_three : split 61 (js "a=b=c") = [js "a"; js "b"; js "c"].
Proof. reflexivity. Qed.

Example trim_both_ends : trim (js "  a b ") = js "a b".
Proof. reflexivity. Qed.

Example encode_space_and_equals :
  URI.encodeURIComponent (js "x y=") = Ok (js "x%20y%3D").
Proof. reflexivity. Qed.

Example encode_euro_sign :
  URI.encodeURIComponent [8364%N] = Ok (js "%E2%82%AC").
Proof. reflexivity. Qed.

Example encode_lone_surrogate :
  URI.encodeURIComponent [55357%N] = Throw URIError.
Proof. reflexivity. Qed.

Example decode_lower_case_escapes :
  URI.decodeURIComponent (js "%e2%82%ac%20") = Ok [8364%N; 32%N].
Proof. reflexivity. Qed.

Example decode_dangling_percent :
  URI.decodeURIComponent (js "100%") = Throw URIError.
Proof. reflexivity. Qed.

Example decode_overlong_sequence :
  URI.decodeURIComponent (js "%C0%80") = Throw URIError.
Proof. reflexivity. Qed.

Example jar_of_header :
  CookieJar_new (js "a=1; b=x%20y; a=2")
  = Ok [(js "a", Some (js "2")); (js "b", Some (js "x y"))].
Proof. vm_compute. reflexivity. Qed.

Example jar_serialized_indices_first :
  Cookie.toString [(js "b", Some (js "x y")); (js "10", Some (js "t"));
                   (js "2", Some (js "u"))]
  = Ok (js "2=u;10=t;b=x%20y").
Proof. vm_compute. reflexivity. Qed.

Example infer_json : inferContentType (js "a.json") = application_json.
Proof. reflexivity. Qed.

Example infer_tar_gz :
  inferContentType (js "a.tar.gz") = application_octet_stream.
Proof. reflexivity. Qed.

Example infer_no_extension :
  inferContentType (js "noext") = application_octet_stream.
Proof. reflexivity. Qed.

Example encode_text_response :
  encodeResponse no_stringify (text_response (js "hi") None)
  = Ok {| response_body := BodyString (js "hi");
          response_status := 200;
          response_headers := [(js "content-type", js "text/plain")] |}.
Proof. reflexivity. Qed.

Example unregistered_path :
  handleRequest no_stringify failing_app (get_request (js "/nowhere") [])
  = ([], Ok {| response_body := BodyString (js "404 not found");
               response_status := 404;
               response_headers := [(js "content-type", js "text/plain")] |}).
Proof. vm_compute. reflexivity. Qed.

Example malformed_cookie_header :
  handleRequest no_stringify failing_app
    {| request_method := js "GET";
       request_url := {| pathname := js "/boom"; searchParams := [] |};
       request_headers := [(js "cookie", js "a=%")];
       request_body := [] |}
  = ([], Throw URIError).
Proof. vm_compute. reflexivity. Qed.

Example lazy_and_optional_groups :
  option_map (fun re => exec re (js "/u/ab123/"))
             (RegExp_new (js "^/u/(\w+?)(\d{2,3})?/$"))
  = Some (Some {| index := 0;
                  elements := [Some (js "/u/ab123/"); Some (js "ab");
                               Some (js "123")] |}).
Proof. vm_compute. reflexivity. Qed.

Example captures_reset_in_a_loop :
  option_map (fun re => exec re (js "ab"))
             (RegExp_new (js "^(?:(a)|b)+$"))
  = Some (Some {| index := 0; elements := [Some (js "ab"); None] |}).
Proof. vm_compute. reflexivity. Qed.

Example unbalanced_group : RegExp_new (js "^(a$") = None.
Proof. reflexivity. Qed.

End Samples.

Module CompileFacts.

Lemma run_app s1 s2 st :
  run (s1 ++ s2) st
  = match run s1 st with Some st' => run s2 st' | None => None end.
Proof.
  revert st. induction s1 as [|c s1 IH]; intros st; simpl; [reflexivity|].
  destruct (step st c); [apply IH|reflexivity].
Qed.

Lemma map_last_cons {A} (g : A -> A) a l :
  l <> [] -> map_last g (a :: l) = a :: map_last g l.
Proof. destruct l; [congruence|reflexivity]. Qed.

Lemma anchor_push f t :
  anchor_frame (Frame (capture f) (alts f) (t :: terms f))
  = Frame (capture (anchor_frame f)) (alts (anchor_frame f))
          (t :: terms (anchor_frame f)).
Proof. unfold anchor_frame. simpl. now destruct (alts f). Qed.

Lemma anchor_capture f : capture (anchor_frame f) = capture f.
Proof. unfold anchor_frame. now destruct (alts f). Qed.

Lemma anchor_close_alt f :
  close_alt (anchor_frame f) = map_last (Seq Bol) (close_alt f).
Proof.
  unfold anchor_frame, close_alt. destruct (alts f) as [|a l]; simpl.
  - now rewrite map_app, rev_app_distr.
  - reflexivity.
Qed.

Lemma anchor_mode st : md (anchor_state st) = md st.
Proof. unfold anchor_state. now destruct (outer st). Qed.

Lemma anchor_groups st : ngroups (anchor_state st) = ngroups st.
Proof. unfold anchor_state. now destruct (outer st). Qed.

Lemma anchor_with_mode st m :
  with_mode (anchor_state st) m = anchor_state (with_mode st m).
Proof. unfold anchor_state, with_mode. simpl. now destruct (outer st). Qed.

Lemma anchor_push_term st r q :
  push_term (anchor_state st) r q = anchor_state (push_term st r q).
Proof.
  unfold anchor_state, push_term. simpl.
  destruct (outer st); simpl; [|reflexivity].
  now rewrite anchor_push.
Qed.

Lemma anchor_next_alternative st :
  next_alternative (anchor_state st) = anchor_state (next_alternative st).
Proof.
  unfold anchor_state, next_alternative. simpl.
  destruct (outer st); simpl; [|reflexivity].
  rewrite anchor_close_alt, anchor_capture. reflexivity.
Qed.

Lemma anchor_open_group st b :
  open_group (anchor_state st) b = anchor_state (open_group st b).
Proof.
  unfold anchor_state, open_group.
  destruct b, (outer st) as [|f fs]; simpl; reflexivity.
Qed.

Ltac by_frame_cases st :=
  destruct st as [m [cap al tms] out ng];
  unfold question, quantify, anchor_state, anchor_frame; simpl;
  destruct out as [|f fs]; destruct al as [|a al];
  destruct tms as [|[r q] ts]; simpl; try reflexivity;
  destruct q; simpl; try reflexivity;
  destruct r; reflexivity.

Lemma anchor_quantify st min max :
  quantify (anchor_state st) min max
  = option_map anchor_state (quantify st min max).
Proof. by_frame_cases st. Qed.

Lemma anchor_question st :
  question (anchor_state st) = option_map anchor_state (question st).
Proof. by_frame_cases st. Qed.

Lemma anchor_close_group st :
  close_group (anchor_state st) = option_map anchor_state (close_group st).
Proof.
  unfold anchor_state, close_group.
  destruct (outer st) as [|f fs]; simpl; [reflexivity|].
  destruct fs as [|f' fs]; simpl.
  - now rewrite anchor_push, anchor_capture.
  - reflexivity.
Qed.

Lemma anchor_step_normal st c :
  step_normal (anchor_state st) c
  = option_map anchor_state (step_normal st c).
Proof.
  unfold step_normal.
  repeat match goal with
         | |- context [(c =? ?k)%N] => destruct (c =? k)%N
         end;
    rewrite ?anchor_with_mode, ?anchor_push_term, ?anchor_next_alternative,
      ?anchor_quantify, ?anchor_question, ?anchor_close_group;
    reflexivity.
Qed.

Lemma anchor_step_class st neg atoms c :
  step_class (anchor_state st) neg atoms c
  = option_map anchor_state (step_class st neg atoms c).
Proof.
  unfold step_class.
  repeat match goal with
         | |- context [(c =? ?k)%N] => destruct (c =? k)%N
         | |- context [class_ranges ?a] => destruct (class_ranges a)
         end;
    rewrite ?anchor_with_mode, ?anchor_push_term; reflexivity.
Qed.

(** A step commutes with the leading assertion. *)
Lemma anchor_step st c :
  step (anchor_state st) c = option_map anchor_state (step st c).
Proof.
  unfold step. rewrite anchor_mode.
  destruct (md st) as [| | | | | neg atoms | neg atoms | d | n d].
  - apply anchor_step_normal.
  - destruct (escape_ranges false c); [|reflexivity].
    now rewrite anchor_push_term.
  - destruct (c =? 63)%N; [now rewrite anchor_with_mode|].
    rewrite anchor_open_group. apply anchor_step_normal.
  - destruct (c =? 58)%N; [|reflexivity]. now rewrite anchor_open_group.
  - destruct (c =? 94)%N; [now rewrite anchor_with_mode|].
    apply anchor_step_class.
  - apply anchor_step_class.
  - destruct (escape_ranges true c); [|reflexivity].
    now rewrite anchor_with_mode.
  - destruct (digit_of c); [now rewrite anchor_with_mode|].
    destruct d; [|reflexivity].
    destruct (c =? 44)%N; [now rewrite anchor_with_mode|].
    destruct (c =? 125)%N; [apply anchor_quantify|reflexivity].
  - destruct (digit_of c); [now rewrite anchor_with_mode|].
    destruct (c =? 125)%N; [|reflexivity].
    destruct d as [m|]; [|apply anchor_quantify].
    destruct (n <=? m); [apply anchor_quantify|reflexivity].
Qed.

Lemma anchor_run s :
  forall st, run s (anchor_state st) = option_map anchor_state (run s st).
Proof.
  induction s as [|c s IH]; intros st; simpl; [reflexivity|].
  rewrite anchor_step. destruct (step st c); simpl; [apply IH|reflexivity].
Qed.

Lemma alt_of_two a b l : alt_of (a :: b :: l) = Alt a (alt_of (b :: l)).
Proof. reflexivity. Qed.

Lemma single_alternative f :
  (forall a b, frame_regex f <> Alt a b) -> alts f = [].
Proof.
  intros H. destruct (alts f) as [|a l] eqn:E; [reflexivity|].
  exfalso. unfold frame_regex, close_alt in H. rewrite E in H.
  simpl in H. destruct (rev l) as [|x l'] eqn:El; simpl in H.
  - eapply H. reflexivity.
  - rewrite <- app_assoc in H. simpl in H.
    destruct l' as [|y l']; simpl in H; eapply H; reflexivity.
Qed.

(** Compiling [^p$] when [p] alone compiles to something that is not an
    alternation: the sequence of [p] between the two assertions. *)
Lemma anchored_compile p re0 :
  RegExp_new p = Some re0 ->
  (forall a b, program re0 <> Alt a b) ->
  exists re ts,
    RegExp_new (js "^" ++ p ++ js "$") = Some re
    /\ program re0 = seq_of ts
    /\ program re = seq_of (Bol :: ts ++ [Eol])
    /\ group_count re = group_count re0.
Proof.
  intros Hnew Hnalt. unfold RegExp_new in Hnew.
  destruct (run p initial) as [st|] eqn:Er; [|discriminate].
  destruct (finish st) as [[r n]|] eqn:Ef; [|discriminate].
  injection Hnew as <-. simpl in Hnalt.
  unfold finish in Ef.
  destruct (md st) eqn:Em; try discriminate.
  destruct (outer st) as [|f fs] eqn:Eo; [|discriminate].
  injection Ef as <- <-.
  pose proof (single_alternative _ Hnalt) as Halts.
  assert (Hrun : run (js "^" ++ p ++ js "$") initial
                 = Some (push_term (anchor_state st) Eol Fixed)).
  { change (run (js "^" ++ p ++ js "$") initial)
      with (run (p ++ [36%N]) (anchor_state initial)).
    rewrite run_app, anchor_run, Er. simpl.
    unfold step. now rewrite anchor_mode, Em. }
  unfold RegExp_new. rewrite Hrun.
  unfold finish, push_term, anchor_state. rewrite Eo. simpl.
  unfold anchor_frame. rewrite Halts. simpl.
  eexists _, (rev (map fst (terms (inner st)))).
  split; [reflexivity|]. simpl.
  unfold frame_regex, close_alt. rewrite Halts. simpl.
  split; [reflexivity|]. split; [|reflexivity].
  rewrite map_app, rev_app_distr. reflexivity.
Qed.

End CompileFacts.

Module AnchorFacts.
Import RegExpFacts CompileFacts.

Section Anchored.
Variable input : str.

Lemma matcher_seq_app ts us :
  forall x k,
    pos x <= length input ->
    matcher input (seq_of (ts ++ us)) x k
    = matcher input (seq_of ts) x (fun y => matcher input (seq_of us) y k).
Proof.
  induction ts as [|t ts IH]; intros x k Hx; simpl; [reflexivity|].
  apply matcher_local; [exact Hx|].
  intros y Hy. apply IH. lia.
Qed.

Lemma search_after_start r n :
  forall i, 0 < i -> search input (Seq Bol r) n i = None.
Proof.
  induction n as [|n IH]; intros i Hi; simpl;
    destruct (Nat.eqb_spec i 0); try lia; [reflexivity|].
  apply IH. lia.
Qed.

Lemma search_anchored ts n :
  search input (seq_of (Bol :: ts ++ [Eol])) n 0
  = option_map (pair 0)
               (matcher input (seq_of ts) (MState 0 []) (at_end input)).
Proof.
  assert (H : matcher input (seq_of (Bol :: ts ++ [Eol])) (MState 0 []) Some
              = matcher input (seq_of ts) (MState 0 []) (at_end input)).
  { simpl. rewrite matcher_seq_app by (simpl; lia).
    apply matcher_local; [simpl; lia|].
    intros y _. simpl. unfold at_end. now destruct (pos y =? length input). }
  destruct n as [|n]; cbn [search]; rewrite H;
    destruct (matcher input (seq_of ts) (MState 0 []) (at_end input));
    try reflexivity.
  apply (search_after_start (seq_of (ts ++ [Eol]))). lia.
Qed.

End Anchored.

Lemma exec_anchored re ts s :
  program re = seq_of (Bol :: ts ++ [Eol]) ->
  exec re s <> None <-> full_match (seq_of ts) s.
Proof.
  intros Hp. unfold exec, full_match. rewrite Hp, search_anchored.
  destruct (matcher s (seq_of ts) (MState 0 []) (at_end s)); simpl;
    split; congruence.
Qed.

(** X1.  Let [p] compile on its own to a pattern that is not an
    alternation.  The route a registration
    function builds from [p] matches a request exactly when the methods
    agree up to case and the whole path matches [p]; and a match starts
    at index 0 and covers the path. *)
Theorem route_matches_iff_whole_path_matches :
  forall (name p prop : str) (target : option (list Route))
         (registry : list Route) (re0 : RegExp),
    RegExp_new p = Some re0 ->
    (forall a b, program re0 <> Alt a b) ->
    Application_method name p target prop = Some registry ->
    exists R,
      registry = match target with Some own => own | None => [] end ++ [R]
      /\ forall req : HTTPRequest,
           (Route_match R req <> None
            <-> toLowerCase (method req) = toLowerCase name
                /\ full_match (program re0) (pathname (url req)))
           /\ forall m,
                Route_match R req = Some m ->
                index m = 0
                /\ hd_error (elements m) = Some (Some (pathname (url req))).
Proof.
  intros name p prop target registry re0 Hre0 Hnalt Hreg.
  destruct (anchored_compile p re0 Hre0 Hnalt) as (re & ts & Hre & H0 & Hp & _).
  apply registration_route in Hreg as (re' & Hre' & ->).
  assert (re' = re) as -> by congruence.
  exists (Route_new name re prop). split; [reflexivity|].
  intros req. rewrite RouteFacts.Route_match_method, H0. split.
  - destruct (eqb (toLowerCase (method req)) (toLowerCase name)) eqn:E.
    + apply StringFacts.eqb_eq in E.
      rewrite (exec_anchored re ts _ Hp). tauto.
    + apply StringFacts.eqb_neq in E. split; [congruence|tauto].
  - intros m.
    destruct (eqb (toLowerCase (method req)) (toLowerCase name));
      [|discriminate].
    now apply anchored_sequence_matches_whole with (ts := ts).
Qed.

Lemma route_matches_iff_whole_path_matches_witness :
  exists R,
    item_route = Some [R]
    /\ forall (req : HTTPRequest) (m : MatchArray),
         Route_match R req = Some m ->
         index m = 0
         /\ hd_error (elements m) = Some (Some (pathname (url req))).
Proof.
  eassert (E0 : RegExp_new (js "/items/([0-9]+)") = Some _)
    by (vm_compute; reflexivity).
  eassert (Er : Application_method (js "get") (js "/items/([0-9]+)") None
                                   (js "item") = Some _)
    by (vm_compute; reflexivity).
  destruct (route_matches_iff_whole_path_matches _ _ _ _ _ _ E0
              ltac:(intros a b; vm_compute; discriminate) Er)
    as (R & HRreg & HR).
  exists R. split.
  - unfold item_route, Application_get. rewrite Er, HRreg. reflexivity.
  - intros req m Hm. now apply (HR req).
Defined.

End AnchorFacts.

(** ** Further properties of the router *)

Module RouterFacts.
Import StringFacts ObjectFacts.

Section Loop.
Variable JSON_stringify : value -> outcome (option str).

Lemma dispatch_first_match app req registry :
  dispatch JSON_stringify app req registry
  = match first_match req registry with
    | None => ([], Ok (plain_text 404 (js "404 not found")))
    | Some (R, m) =>
        match methods app (handler R) with
        | None => ([], Throw TypeError)
        | Some h =>
            match (do response <- h req (slice1 m);
                   encodeResponse JSON_stringify response) with
            | Ok r => ([Invoked (handler R) (slice1 m)], Ok r)
            | Throw e =>
                ([Invoked (handler R) (slice1 m); Logged e],
                 Ok (plain_text 500 (js "500 internal error")))
            end
        end
    end.
Proof.
  induction registry as [|R rest IH]; simpl; [reflexivity|].
  destruct (Route_match R req) as [m|]; [|exact IH].
  destruct (methods app (handler R)) as [h|]; [|reflexivity].
  destruct (do response <- h req (slice1 m);
            encodeResponse JSON_stringify response); reflexivity.
Qed.

Lemma first_match_In req registry R m :
  first_match req registry = Some (R, m) ->
  In R registry /\ Route_match R req = Some m.
Proof.
  induction registry as [|R0 rest IH]; simpl; [discriminate|].
  destruct (Route_match R0 req) as [m0|] eqn:E.
  - intros [= <- <-]. auto.
  - intros H. destruct (IH H). auto.
Qed.

End Loop.

Lemma exec_elements re s m :
  exec re s = Some m -> length (elements m) = S (group_count re).
Proof.
  unfold exec.
  destruct (search s (program re) (length s) 0) as [[i y]|]; [|discriminate].
  intros [= <-]. simpl. now rewrite length_map, length_seq.
Qed.

Lemma Route_match_captures R req m :
  Route_match R req = Some m ->
  length (slice1 m) = group_count (pattern R).
Proof.
  unfold Route_match.
  destruct (negb _); [discriminate|].
  intros H. apply exec_elements in H. unfold slice1.
  destruct (elements m); simpl in *; [discriminate|lia].
Qed.


(** X12.  One request leads to at most one handler call; and an error is
    logged only right after that call, in which case the response is the
    500 one. *)
Theorem at_most_one_handler_call :
  forall (JSON_stringify : value -> outcome (option str))
         (app : Application) (raw : Request),
    length (invocations (fst (handleRequest JSON_stringify app raw))) <= 1
    /\ forall e,
         In (Logged e) (fst (handleRequest JSON_stringify app raw)) ->
         exists h args,
           handleRequest JSON_stringify app raw
           = ([Invoked h args; Logged e],
              Ok (plain_text 500 (js "500 internal error"))).
Proof.
  intros S app raw. unfold handleRequest.
  destruct (HTTPRequest_new raw) as [req|e0]; simpl; [|split; [lia|tauto]].
  destruct (routes app) as [registry|]; simpl; [|split; [lia|tauto]].
  rewrite dispatch_first_match.
  destruct (first_match req registry) as [[R m]|]; simpl;
    [|split; [lia|tauto]].
  destruct (methods app (handler R)) as [h|]; simpl; [|split; [lia|tauto]].
  destruct (do response <- h req (slice1 m); encodeResponse S response);
    simpl; (split; [lia|]); intros e1 H.
  - destruct H as [H|[]]. discriminate H.
  - destruct H as [H|[H|[]]]; [discriminate H|].
    injection H as ->. eauto.
Qed.

(** X13.  A descriptor the handler returns but [encodeResponse] cannot
    encode (JSON.stringify throws, a cookie jar among the headers cannot
    be written) is treated like a failing handler: the error is logged
    and the response is the 500 one. *)
Theorem encoding_error_gives_500 :
  forall (JSON_stringify : value -> outcome (option str))
         (app : Application) (raw : Request) (req : HTTPRequest)
         (registry : list Route) (R : Route) (m : MatchArray)
         (h : RequestHandler) (descriptor : HTTPResponse) (e : exn),
    HTTPRequest_new raw = Ok req ->
    routes app = Some registry ->
    first_match req registry = Some (R, m) ->
    methods app (handler R) = Some h ->
    h req (slice1 m) = Ok descriptor ->
    encodeResponse JSON_stringify descriptor = Throw e ->
    handleRequest JSON_stringify app raw
    = ([Invoked (handler R) (slice1 m); Logged e],
       Ok (plain_text 500 (js "500 internal error"))).
Proof.
  intros S app raw req registry R m h d e Hreq Hroutes Hf Hh Hd He.
  unfold handleRequest. rewrite Hreq, Hroutes, dispatch_first_match, Hf, Hh, Hd.
  simpl bind. now rewrite He.
Qed.

Lemma encoding_error_gives_500_witness :
  handleRequest no_stringify echo_cookie_app
                (cookie_request (js "/echo") (js "toString=1"))
  = ([Invoked (js "echo") []; Logged TypeError],
     Ok (plain_text 500 (js "500 internal error"))).
Proof.
  eassert (H : _).
  { eapply (encoding_error_gives_500 no_stringify echo_cookie_app
              (cookie_request (js "/echo") (js "toString=1")));
      [vm_compute; reflexivity | vm_compute; reflexivity
      | vm_compute; reflexivity | reflexivity | reflexivity
      | vm_compute; reflexivity]. }
  exact H.
Defined.

(** X14.  A handler is called with one argument after the request for
    each capturing group of its route's pattern. *)
Theorem handler_gets_one_argument_per_group :
  forall (JSON_stringify : value -> outcome (option str))
         (app : Application) (raw : Request) (registry : list Route)
         (h : str) (args : list (option str)),
    routes app = Some registry ->
    In (Invoked h args) (fst (handleRequest JSON_stringify app raw)) ->
    exists R,
      In R registry /\ handler R = h
      /\ length args = group_count (pattern R).
Proof.
  intros S app raw registry h args Hroutes. unfold handleRequest.
  destruct (HTTPRequest_new raw) as [req|e0]; simpl; [|tauto].
  rewrite Hroutes, dispatch_first_match.
  destruct (first_match req registry) as [[R m]|] eqn:Ef; simpl; [|tauto].
  destruct (first_match_In _ _ _ _ Ef) as [Hin Hm].
  apply Route_match_captures in Hm.
  destruct (methods app (handler R)) as [hf|]; simpl; [|tauto].
  destruct (do response <- hf req (slice1 m); encodeResponse S response);
    simpl; intros [H|H]; try (destruct H as [H|[]]); try discriminate H;
    try contradiction;
    injection H as <- <-; eauto.
Qed.

Lemma handler_gets_one_argument_per_group_witness :
  exists R,
    routes item_app = Some [R]
    /\ length [Some (js "12")] = group_count (pattern R).
Proof.
  eassert (Hr : routes item_app = Some [_]) by (vm_compute; reflexivity).
  destruct (handler_gets_one_argument_per_group no_stringify item_app
              (get_request (js "/items/12") []) _
              (js "item") [Some (js "12")] Hr)
    as (R & [<-|[]] & _ & Hlen).
  - vm_compute. now left.
  - eexists. split; [exact Hr|exact Hlen].
Defined.

End RouterFacts.

Module ResponseFacts.
Import StringFacts ObjectFacts EncodeFacts.






Section Encoding.
Variable JSON_stringify : value -> outcome (option str).




End Encoding.





End ResponseFacts.

Module AdapterFacts.
Import StringFacts GraphQLFacts.

(** X17.  What a GraphQL request is answered with on the wire: status
    400, body [400 bad request], content type [text/plain] when the
    request resolves to no query; otherwise status 200, content type
    [application/json] and as body whatever [JSON.stringify] makes of
    the executor's result. *)
Theorem graphql_response_on_the_wire :
  forall (JSON_stringify : value -> outcome (option str))
         (JSON_parse : str -> outcome value) (GraphQLSchema : Type)
         (graphql : GraphQLSchema -> value -> value -> value -> value ->
                    value -> outcome value)
         (schema : GraphQLSchema) (req : HTTPRequest) (resp : HTTPResponse),
    handleGraphQLRequest JSON_parse graphql schema req = Ok resp ->
    (getGraphQLQuery JSON_parse req = Ok VNull
     /\ encodeResponse JSON_stringify resp
        = Ok (plain_text 400 (js "400 bad request")))
    \/ exists g result,
         getGraphQLQuery JSON_parse req = Ok g
         /\ g <> VNull
         /\ graphql schema (field g (js "query")) VUndefined VUndefined
                    (field g (js "variables")) (field g (js "operationName"))
            = Ok result
         /\ encodeResponse JSON_stringify resp
            = do s <- JSON_stringify result; Ok (json_text s).
Proof.
  intros S P G graphql schema req resp H.
  destruct (getGraphQLQuery P req) as [g|e] eqn:Eg.
  2:{ unfold handleGraphQLRequest in H. rewrite Eg in H. discriminate H. }
  assert (Hdec : g = VNull \/ g <> VNull)
    by (destruct g; (now left) || (right; discriminate)).
  destruct Hdec as [->|Hn].
  - left. split; [reflexivity|].
    rewrite (handle_null P G graphql schema req Eg) in H.
    injection H as <-. reflexivity.
  - right.
    assert (Hu : g <> VUndefined).
    { intros ->. unfold handleGraphQLRequest in H. rewrite Eg in H.
      discriminate H. }
    rewrite (handle_query P G graphql schema req g Eg Hn Hu) in H.
    destruct (graphql schema _ _ _ _ _) as [result|e] eqn:Er; [|discriminate].
    injection H as <-. exists g, result. repeat split; try assumption.
    unfold encodeResponse, encode_body, json_response. simpl.
    destruct (S result) as [[s|]|e]; reflexivity.
Qed.

Lemma graphql_response_on_the_wire_witness :
  exists req resp,
    HTTPRequest_new (body_request (js "text/plain") (js "{ hello }")) = Ok req
    /\ handleGraphQLRequest no_parse null_executor tt req = Ok resp
    /\ encodeResponse no_stringify resp
       = Ok (plain_text 400 (js "400 bad request")).
Proof.
  eexists. eexists. split; [vm_compute; reflexivity|].
  match goal with
  | |- handleGraphQLRequest _ _ _ ?r = _ /\ _ =>
      eassert (H : handleGraphQLRequest no_parse null_executor tt r = Ok _)
        by (vm_compute; reflexivity)
  end.
  split; [exact H|].
  destruct (graphql_response_on_the_wire no_stringify _ _ _ _ _ _ H)
    as [[_ Hw]|(g & result & Hg & Hn & _)].
  - exact Hw.
  - exfalso. apply Hn. vm_compute in Hg. now injection Hg as <-.
Defined.

(** X18.  Errors of the body and of the executor are not answered with
    400: for a POST request with content type [application/json],
    [handleGraphQLRequest] throws what [JSON.parse] throws on the body
    (a body that parses to [null] does give the 400 response); and
    whenever a query was resolved it throws what the executor throws. *)
Theorem graphql_errors_propagate :
  forall (JSON_parse : str -> outcome value) (GraphQLSchema : Type)
         (graphql : GraphQLSchema -> value -> value -> value -> value ->
                    value -> outcome value)
         (schema : GraphQLSchema) (req : HTTPRequest),
    (toLowerCase (method req) = js "post" ->
     lookup (request_headers_of req) (js "content-type")
     = Some (js "application/json") ->
     (forall e,
         JSON_parse (request_body (request req)) = Throw e ->
         handleGraphQLRequest JSON_parse graphql schema req = Throw e)
     /\ (JSON_parse (request_body (request req)) = Ok VNull ->
         handleGraphQLRequest JSON_parse graphql schema req
         = Ok bad_request))
    /\ (forall g e,
           getGraphQLQuery JSON_parse req = Ok g ->
           g <> VNull -> g <> VUndefined ->
           graphql schema (field g (js "query")) VUndefined VUndefined
                   (field g (js "variables")) (field g (js "operationName"))
           = Throw e ->
           handleGraphQLRequest JSON_parse graphql schema req = Throw e).
Proof.
  intros P G graphql schema req. split.
  - intros Hm Hct.
    assert (Hq : getGraphQLQuery P req = P (request_body (request req))).
    { unfold getGraphQLQuery. rewrite Hm, Hct. reflexivity. }
    split.
    + intros e He. unfold handleGraphQLRequest. now rewrite Hq, He.
    + intros Hnull. apply handle_null. now rewrite Hq.
  - intros g e Hg Hn Hu He.
    rewrite (handle_query P G graphql schema req g Hg Hn Hu), He.
    reflexivity.
Qed.

Lemma graphql_errors_propagate_witness :
  exists req,
    HTTPRequest_new (body_request (js "application/json") (js "{oops")) = Ok req
    /\ handleGraphQLRequest no_parse null_executor tt req = Throw SyntaxError.
Proof.
  eexists. split; [vm_compute; reflexivity|].
  match goal with
  | |- handleGraphQLRequest _ _ _ ?r = _ =>
      apply (proj1 (proj1 (graphql_errors_propagate no_parse unit
                             null_executor tt r) eq_refl eq_refl));
        reflexivity
  end.
Defined.

(** X19.  A GET request with a [query] parameter, and a [variables]
    parameter that is absent, empty or accepted by [JSON.parse], runs
    the executor on the query text, the parsed variables ([undefined]
    when absent or empty) and the operation name ([undefined] when
    absent or empty), and wraps its result as the [json] body. *)
Theorem graphql_get_resolution :
  forall (JSON_parse : str -> outcome value) (GraphQLSchema : Type)
         (graphql : GraphQLSchema -> value -> value -> value -> value ->
                    value -> outcome value)
         (schema : GraphQLSchema) (req : HTTPRequest) (q : str)
         (vars : value),
    toLowerCase (method req) = js "get" ->
    lookup (query req) (js "query") = Some q ->
    match or_undefined (lookup (query req) (js "variables")) with
    | Some v => JSON_parse v = Ok vars
    | None => vars = VUndefined
    end ->
    handleGraphQLRequest JSON_parse graphql schema req
    = do result <- graphql schema (VString q) VUndefined VUndefined vars
                           (value_of_string
                              (or_undefined
                                 (lookup (query req) (js "operationName"))));
      Ok (json_response result).
Proof.
  intros P G graphql schema req q vars Hm Hq Hv.
  unfold handleGraphQLRequest, getGraphQLQuery. rewrite Hm, Hq. simpl eqb.
  cbv iota zeta.
  destruct (or_undefined (lookup (query req) (js "variables"))) as [v|].
  - rewrite Hv. reflexivity.
  - subst vars. reflexivity.
Qed.

Lemma graphql_get_resolution_witness :
  exists req,
    HTTPRequest_new
      (get_request (js "/graphql")
                   [(js "query", js "{ hello }"); (js "variables", []);
                    (js "operationName", js "Q")]) = Ok req
    /\ handleGraphQLRequest no_parse failing_executor tt req
       = Throw (Thrown 3).
Proof.
  eexists. split; [vm_compute; reflexivity|].
  match goal with
  | |- handleGraphQLRequest _ _ _ ?r = _ =>
      rewrite (graphql_get_resolution no_parse unit failing_executor tt r
                 (js "{ hello }") VUndefined eq_refl eq_refl eq_refl)
  end.
  reflexivity.
Defined.

End AdapterFacts.

Module JarFacts.
Import StringFacts ObjectFacts SplitFacts URIFacts CookieFacts.

(** *** When the constructor throws *)

Lemma decode_throws s e : URI.decodeURIComponent s = Throw e -> e = URIError.
Proof.
  unfold URI.decodeURIComponent.
  destruct (URI.unescape s) as [ts|]; [|congruence].
  destruct (URI.assemble ts); congruence.
Qed.

Lemma mapM_throw_inv {A B} (f : A -> outcome B) l e :
  mapM f l = Throw e -> exists a, In a l /\ f a = Throw e.
Proof.
  induction l as [|a l IH]; simpl; [discriminate|].
  destruct (f a) as [b|e0] eqn:E; simpl.
  - destruct (mapM f l) as [bs|e1]; simpl; [discriminate|].
    intros [= <-]. destruct (IH eq_refl) as (a' & Hin & Ha'). eauto.
  - intros [= <-]. eauto.
Qed.

Lemma mapM_throw_intro {A B} (f : A -> outcome B) l a e :
  In a l -> f a = Throw e -> exists e', mapM f l = Throw e'.
Proof.
  induction l as [|a0 l IH]; simpl; [tauto|].
  intros [->|Hin] Ha.
  - rewrite Ha. simpl. eauto.
  - destruct (f a0); simpl; [|eauto].
    destruct (IH Hin Ha) as [e' ->]. simpl. eauto.
Qed.

Lemma parse_pair_throws seg e :
  parse_pair seg = Throw e
  <-> mapM URI.decodeURIComponent (split equals (trim seg)) = Throw e.
Proof.
  unfold parse_pair.
  destruct (mapM URI.decodeURIComponent (split equals (trim seg)))
    as [[|k [|v parts]]|e0]; simpl; split; congruence.
Qed.

Lemma reduce_throw_inv segs :
  forall acc e,
    foldM reduce_step segs acc = Throw e ->
    exists seg, In seg segs /\ parse_pair seg = Throw e.
Proof.
  induction segs as [|seg segs IH]; intros acc e; simpl; [discriminate|].
  unfold reduce_step at 1.
  destruct (parse_pair seg) as [[k v]|e0] eqn:E; simpl.
  - intros H. destruct (IH _ _ H) as (seg' & Hin & Hp). eauto.
  - intros [= <-]. eauto.
Qed.

Lemma reduce_throw_intro segs :
  forall acc seg e,
    In seg segs -> parse_pair seg = Throw e ->
    exists e', foldM reduce_step segs acc = Throw e'.
Proof.
  induction segs as [|seg0 segs IH]; intros acc seg e; simpl; [tauto|].
  intros [->|Hin] Hp; unfold reduce_step at 1.
  - rewrite Hp. simpl. eauto.
  - destruct (parse_pair seg0) as [[k v]|e0]; simpl; eauto.
Qed.

(** X20.  The constructor throws exactly when some field of some
    segment, the fields after the second included although they are
    dropped, is not a well-formed percent-encoding; what it throws is
    always a URIError. *)
Theorem constructor_throws_iff_a_field_is_malformed :
  forall cookie : str,
    ((exists e, CookieJar_new cookie = Throw e)
     <-> exists seg part,
           In seg (split semicolon cookie)
           /\ In part (split equals (trim seg))
           /\ URI.decodeURIComponent part = Throw URIError)
    /\ forall e, CookieJar_new cookie = Throw e -> e = URIError.
Proof.
  intros cookie. unfold CookieJar_new.
  assert (Hinv : forall e,
             foldM reduce_step (split semicolon cookie) [] = Throw e ->
             exists seg part,
               In seg (split semicolon cookie)
               /\ In part (split equals (trim seg))
               /\ URI.decodeURIComponent part = Throw e /\ e = URIError).
  { intros e H. apply reduce_throw_inv in H as (seg & Hseg & Hp).
    apply parse_pair_throws, mapM_throw_inv in Hp as (part & Hpart & Hd).
    exists seg, part. repeat split; try assumption. exact (decode_throws _ _ Hd). }
  split; [split|].
  - intros [e H]. destruct (Hinv e H) as (seg & part & H1 & H2 & H3 & ->).
    eauto.
  - intros (seg & part & Hseg & Hpart & Hd).
    destruct (mapM_throw_intro _ _ _ _ Hpart Hd) as [e He].
    apply parse_pair_throws in He.
    exact (reduce_throw_intro _ [] _ _ Hseg He).
  - intros e H. destruct (Hinv e H) as (_ & _ & _ & _ & _ & ->). reflexivity.
Qed.

(** *** What [toString] writes *)

Lemma join_Forall (P : N -> Prop) sep pieces :
  P sep -> Forall (Forall P) pieces -> Forall P (join sep pieces).
Proof.
  intros Hsep H. induction H as [|p pieces Hp _ IH]; [constructor|].
  destruct pieces as [|q pieces]; [exact Hp|].
  change (join sep (p :: q :: pieces)) with (p ++ sep :: join sep (q :: pieces)).
  apply Forall_app. split; [exact Hp|]. now constructor.
Qed.

Lemma plain_cookie_char e : Forall plain e -> Forall cookie_char e.
Proof. apply Forall_impl. intros c Hc. now left. Qed.

Lemma toString_step_safe jar pairs key pairs' :
  Forall (Forall cookie_char) pairs ->
  toString_step jar pairs key = Ok pairs' ->
  Forall (Forall cookie_char) pairs'.
Proof.
  intros Hp. unfold toString_step.
  destruct (hasOwnProperty jar key) as [[|]|e]; simpl;
    [|now intros [= <-]|discriminate].
  destruct (URI.encodeURIComponent key) as [ek|e] eqn:Ek; simpl;
    [|discriminate].
  destruct (URI.encodeURIComponent (property_string jar key)) as [ev|e] eqn:Ev;
    simpl; [|discriminate].
  intros [= <-]. apply Forall_app. split; [exact Hp|].
  constructor; [|constructor].
  apply Forall_app. split; [exact (plain_cookie_char _ (encode_plain _ _ Ek))|].
  constructor; [right; now left|].
  exact (plain_cookie_char _ (encode_plain _ _ Ev)).
Qed.

Lemma cookie_char_printable c : cookie_char c -> (32 < c < 127)%N.
Proof.
  intros [[H| ->]|[->| ->]];
    try (unfold URI.percent, equals, semicolon; lia).
  unfold URI.unreserved in H.
  destruct (N.le_gt_cases c 32);
    [exfalso; revert H; settle; discriminate|].
  destruct (N.lt_ge_cases c 127); [lia|].
  exfalso; revert H; settle; discriminate.
Qed.

(** X21.  Whatever the jar holds, the text [toString] returns is made of
    unreserved characters, percent signs, [=] and [;] only, all of them
    printable ASCII: no white space, no control character, nothing
    outside ASCII. *)
Theorem serialization_is_header_safe :
  forall (jar : CookieJar) (s : str),
    Cookie.toString jar = Ok s ->
    Forall (fun c => cookie_char c /\ (32 < c < 127)%N) s.
Proof.
  intros jar s H.
  assert (Hs : Forall cookie_char s);
    [|eapply Forall_impl; [|exact Hs]; intros c Hc; split;
      [exact Hc|exact (cookie_char_printable c Hc)]].
  revert H. unfold Cookie.toString.
  destruct (get jar (js "toString")); [discriminate|].
  unfold toString_body.
  destruct (foldM (toString_step jar) (for_in_keys jar) []) as [pairs|e] eqn:E;
    simpl; [|discriminate].
  intros [= <-]. apply join_Forall; [right; now right|].
  apply (foldM_invariant (toString_step jar) (Forall (Forall cookie_char))
           (fun _ => True)) with (l := for_in_keys jar) (a := []);
    [|constructor| |exact E].
  - intros a b a' Ha _. now apply toString_step_safe.
  - apply Forall_forall. trivial.
Qed.

Lemma serialization_is_header_safe_witness :
  Forall (fun c => cookie_char c /\ (32 < c < 127)%N)
         (js "a%20b=%3B%3D;c=undefined").
Proof.
  apply (serialization_is_header_safe
           [(js "a b", Some (js ";=")); (js "c", None)]).
  vm_compute. reflexivity.
Defined.

(** *** The round trip of a jar with value-less entries *)

Lemma fair_get jar k :
  Forall fair_entry jar ->
  In k (map fst jar) ->
  k <> proto
  /\ Forall (fun c => scalar c = true) k
  /\ Forall (fun c => scalar c = true) (property_string jar k)
  /\ exists v, get jar k = Some v /\ property_string jar k = shown v.
Proof.
  intros Hg Hin. unfold property_string.
  destruct (get jar k) as [x|] eqn:E.
  - unfold get in E. apply obj_get_In in E.
    rewrite Forall_forall in Hg. destruct (Hg _ E) as (H1 & H2 & H3).
    simpl in *. split; [exact H1|]. split; [exact H2|].
    split; [destruct x; exact H3|].
    exists x. split; [reflexivity|]. now destruct x.
  - unfold get in E. apply obj_get_None in E. contradiction.
Qed.

Lemma written_loop jar :
  get jar (js "hasOwnProperty") = None ->
  Forall fair_entry jar ->
  forall ks acc,
    (forall k, In k ks -> In k (map fst jar)) ->
    exists pairs,
      foldM (toString_step jar) ks acc = Ok (acc ++ pairs)
      /\ Forall2 (written jar) ks pairs.
Proof.
  intros Hh Hg ks. induction ks as [|k ks IH]; intros acc Hks.
  - exists []. simpl. rewrite app_nil_r. split; [reflexivity|constructor].
  - destruct (fair_get jar k Hg (Hks k (or_introl eq_refl)))
      as (_ & Hk & Hsv & v & Hv & _).
    destruct (encode_total _ Hk) as [ek Ek].
    destruct (encode_total _ Hsv) as [ev Ev].
    destruct (IH (acc ++ [ek ++ equals :: ev])
                 (fun x Hx => Hks x (or_intror Hx))) as (pairs & Hf & Hp).
    exists ((ek ++ equals :: ev) :: pairs). split.
    + simpl. unfold toString_step at 1, hasOwnProperty, has.
      rewrite Hh, Hv. simpl. rewrite Ek, Ev. simpl.
      rewrite Hf, <- app_assoc. reflexivity.
    + constructor; [|assumption]. exists ek, ev. auto.
Qed.

Lemma written_no_semicolon jar k p : written jar k p -> ~ In semicolon p.
Proof.
  intros (ek & ev & Ek & Ev & ->) Hin.
  apply in_app_iff in Hin as [Hin|[Hin|Hin]]; [|discriminate|].
  - pose proof (encode_plain _ _ Ek) as P. rewrite Forall_forall in P.
    apply P, plain_facts in Hin. tauto.
  - pose proof (encode_plain _ _ Ev) as P. rewrite Forall_forall in P.
    apply P, plain_facts in Hin. tauto.
Qed.

Lemma reparse_written jar ks pairs :
  Forall2 (written jar) ks pairs ->
  forall acc,
    foldM reduce_step pairs acc
    = Ok (fold_left
            (fun j k => set_property j k (Some (property_string jar k)))
            ks acc).
Proof.
  induction 1 as [|k p ks pairs (ek & ev & Ek & Ev & ->) _ IH];
    intros acc; simpl; [reflexivity|].
  unfold reduce_step at 1. rewrite (parse_pair_encoded _ _ _ _ Ek Ev). simpl.
  apply IH.
Qed.

(** X22.  A value-less entry does not survive the round trip as such.
    Take any jar of Unicode scalar values with at least one entry and
    none named [__proto__], [toString] or [hasOwnProperty].  Then
    [toString] returns, its result parses, and the jar parsed from it
    holds the same keys, with every string value unchanged and every
    [undefined] value replaced by the nine letters [undefined]. *)
Theorem undefined_value_comes_back_as_text :
  forall jar : CookieJar,
    jar <> [] ->
    Forall fair_entry jar ->
    get jar (js "toString") = None ->
    get jar (js "hasOwnProperty") = None ->
    exists (s : str) (jar' : CookieJar),
      Cookie.toString jar = Ok s
      /\ CookieJar_new s = Ok jar'
      /\ forall k,
           get jar' k = option_map (fun v => Some (shown v)) (get jar k).
Proof.
  intros jar Hne Hg Hts Hhop.
  destruct (written_loop jar Hhop Hg (own_keys jar) []
              (fun k H => proj1 (own_keys_In jar k) H))
    as (pairs & Hloop & Hpairs).
  simpl in Hloop.
  assert (Hstr : Cookie.toString jar = Ok (join semicolon pairs)).
  { unfold Cookie.toString. rewrite Hts.
    unfold toString_body, for_in_keys, has. rewrite Hts.
    rewrite foldM_app, Hloop. simpl.
    unfold toString_step, hasOwnProperty, has. rewrite Hhop, Hts.
    reflexivity. }
  assert (Hpne : pairs <> []).
  { intros ->. inversion Hpairs as [Hk|]. destruct jar as [|[k v] jar];
      [congruence|].
    assert (Hin : In k (own_keys ((k, v) :: jar)))
      by (apply own_keys_In; now left).
    rewrite <- Hk in Hin. contradiction. }
  assert (Hsplit : split semicolon (join semicolon pairs) = pairs).
  { apply split_join; [assumption|].
    clear -Hpairs. induction Hpairs; constructor;
      eauto using written_no_semicolon. }
  exists (join semicolon pairs).
  exists (fold_left
            (fun j k => set_property j k (Some (property_string jar k)))
            (own_keys jar) []).
  split; [exact Hstr|]. split.
  - unfold CookieJar_new. rewrite Hsplit. now apply reparse_written.
  - intros k.
    assert (Hp : forall x, In x (own_keys jar) -> x <> proto).
    { intros x Hx. apply own_keys_In in Hx.
      now apply (fair_get _ _ Hg) in Hx. }
    destruct (get_fold_keys (fun x => Some (property_string jar x))
                            (own_keys jar) Hp [] k)
      as [Hin Hout].
    destruct (in_dec str_eq_dec k (own_keys jar)) as [Hk|Hk].
    + rewrite (Hin Hk). apply own_keys_In in Hk.
      destruct (fair_get _ _ Hg Hk) as (_ & _ & _ & v & Hv & Hs).
      rewrite Hv, Hs. reflexivity.
    + rewrite (Hout Hk). rewrite own_keys_In in Hk.
      unfold get in *. apply obj_get_None in Hk. now rewrite Hk.
Qed.

Lemma undefined_value_comes_back_as_text_witness :
  exists (s : str) (jar' : CookieJar),
    Cookie.toString [(js "a", None); (js "b", Some (js "1"))] = Ok s
    /\ CookieJar_new s = Ok jar'
    /\ forall k,
         get jar' k
         = option_map (fun v => Some (shown v))
                      (get [(js "a", None); (js "b", Some (js "1"))] k).
Proof.
  apply (undefined_value_comes_back_as_text
           [(js "a", None); (js "b", Some (js "1"))]);
    try reflexivity; [discriminate|].
  repeat constructor; vm_compute; try discriminate; reflexivity.
Defined.

(** X23.  A request without a cookie header, or with an empty one, is
    wrapped with the jar of the empty string: one entry, the empty key
    with the value [undefined]; written back, that jar reads
    [=undefined]. *)
Theorem request_without_cookies_gets_the_empty_key :
  forall raw : Request,
    lookup (request_headers raw) (js "cookie") = None
    \/ lookup (request_headers raw) (js "cookie") = Some [] ->
    HTTPRequest_new raw
    = Ok {| method := request_method raw;
            url := request_url raw;
            query := searchParams (request_url raw);
            request_headers_of := request_headers raw;
            cookie := [(js "", None)];
            request := raw |}
    /\ Cookie.toString [(js "", None)] = Ok (js "=undefined").
Proof.
  intros raw H. split; [|reflexivity].
  unfold HTTPRequest_new. destruct H as [-> | ->]; reflexivity.
Qed.

Lemma request_without_cookies_gets_the_empty_key_witness :
  exists req,
    HTTPRequest_new (get_request (js "/") []) = Ok req
    /\ cookie req = [(js "", None)].
Proof.
  eexists. split.
  - apply (request_without_cookies_gets_the_empty_key
             (get_request (js "/") [])).
    left. reflexivity.
  - reflexivity.
Defined.

End JarFacts.

Module PrototypeFacts.
Import StringFacts RouterFacts.

(** X24.  A class that declares no route answers with the routes of the
    nearest class above it that declares some; its first own route
    gives it a registry of its own that holds this route only, and from
    then on its instances no longer reach the routes declared above: a
    request that only those match is answered with 404.  The registries
    above are left as they were. *)
Theorem own_registry_shadows_inherited_routes :
  forall (name p prop : str) (parents : list (option (list Route)))
         (target' : Prototype),
    decorate name p prop
             {| own_registry := None; parent_registries := parents |}
    = Some target' ->
    registry_of {| own_registry := None; parent_registries := parents |}
    = inherited parents
    /\ parent_registries target' = parents
    /\ exists R,
         registry_of target' = Some [R]
         /\ route_method R = toLowerCase name
         /\ handler R = prop
         /\ forall (JSON_stringify : value -> outcome (option str))
                   (methods : str -> option RequestHandler)
                   (raw : Request) (req : HTTPRequest),
              HTTPRequest_new raw = Ok req ->
              Route_match R req = None ->
              handleRequest JSON_stringify (instance target' methods) raw
              = ([], Ok (plain_text 404 (js "404 not found"))).
Proof.
  intros name p prop parents target'. unfold decorate, Application_method.
  simpl own_registry. simpl parent_registries.
  destruct (RegExp_new (js "^" ++ p ++ js "$")) as [re|]; [|discriminate].
  intros [= <-]. split; [reflexivity|]. split; [reflexivity|].
  exists (Route_new name re prop).
  split; [reflexivity|]. split; [reflexivity|]. split; [reflexivity|].
  intros S methods raw req Hreq Hm.
  unfold handleRequest, instance. rewrite Hreq.
  cbn [routes registry_of own_registry parent_registries inherited].
  rewrite dispatch_first_match. cbn [first_match app]. now rewrite Hm.
Qed.

Lemma own_registry_shadows_inherited_routes_witness :
  exists target',
    decorate (js "get") (js "/b") (js "b") sub_prototype = Some target'
    /\ fst (handleRequest no_stringify (instance sub_prototype name_handlers)
                          (get_request (js "/items/12") []))
       = [Invoked (js "item") [Some (js "12")]]
    /\ handleRequest no_stringify (instance target' name_handlers)
                     (get_request (js "/items/12") [])
       = ([], Ok (plain_text 404 (js "404 not found"))).
Proof.
  eassert (Hd : decorate (js "get") (js "/b") (js "b") sub_prototype = Some _)
    by (vm_compute; reflexivity).
  eexists. split; [exact Hd|]. split; [vm_compute; reflexivity|].
  destruct (own_registry_shadows_inherited_routes _ _ _ _ _ Hd)
    as (_ & _ & R & HR & _ & _ & H404).
  injection HR as <-.
  eapply (H404 no_stringify name_handlers (get_request (js "/items/12") []));
    vm_compute; reflexivity.
Defined.

End PrototypeFacts.

Module ExtensionFacts.
Import StringFacts ObjectFacts ContentTypeFacts.

Lemma last_dot (c : N) s :
  In c s -> exists prefix ext, s = prefix ++ c :: ext /\ ~ In c ext.
Proof.
  induction s as [|x s IH]; simpl; [tauto|].
  intros H. destruct (in_dec N.eq_dec c s) as [Hin|Hout].
  - destruct (IH Hin) as (prefix & ext & -> & Hext).
    exists (x :: prefix), ext. auto.
  - destruct H as [->|H]; [|contradiction].
    exists [], s. auto.
Qed.

(** X25.  Every answer of [inferContentType] other than
    [application/octet-stream] comes from the table, looked up under
    what follows the last dot of the name; so the answer is never
    [text/plain], for no file name. *)
Theorem inferContentType_answers_from_the_table :
  forall fileName : str,
    inferContentType fileName <> text_plain
    /\ (inferContentType fileName = application_octet_stream
        \/ exists prefix ext,
             fileName = prefix ++ dot :: ext
             /\ ~ In dot ext
             /\ In (ext, inferContentType fileName) contentTypeMap).
Proof.
  intros fileName.
  destruct (in_dec N.eq_dec dot fileName) as [Hin|Hout].
  - destruct (last_dot dot fileName Hin) as (prefix & ext & -> & Hext).
    rewrite (inferContentType_suffix prefix ext Hext).
    destruct (obj_get contentTypeMap ext) as [t|] eqn:E.
    + apply obj_get_In in E. split.
      * intros ->. simpl in E.
        repeat (destruct E as [E|E]; [discriminate E|]). exact E.
      * right. exists prefix, ext. auto.
    + split; [discriminate|now left].
  - assert (H : inferContentType fileName = application_octet_stream).
    { unfold inferContentType, lastIndexOf.
      now rewrite (lastIndexOf_none dot fileName Hout). }
    rewrite H. split; [discriminate|now left].
Qed.

End ExtensionFacts.

Module EndpointFacts.
Import StringFacts RouterFacts GraphQLFacts.

(** X26.  A route whose handler is [handleGraphQLRequest]: a request
    that resolves to no query is answered with status 400 and nothing
    is logged, but a POST request of content type [application/json]
    whose body [JSON.parse] rejects is answered with status 500, the
    parse error being logged. *)
Theorem graphql_route_answers_400_or_500 :
  forall (JSON_stringify : value -> outcome (option str))
         (JSON_parse : str -> outcome value) (GraphQLSchema : Type)
         (graphql : GraphQLSchema -> value -> value -> value -> value ->
                    value -> outcome value)
         (schema : GraphQLSchema)
         (app : Application) (raw : Request) (req : HTTPRequest)
         (registry : list Route) (R : Route) (m : MatchArray),
    HTTPRequest_new raw = Ok req ->
    routes app = Some registry ->
    first_match req registry = Some (R, m) ->
    methods app (handler R)
    = Some (fun r _ => handleGraphQLRequest JSON_parse graphql schema r) ->
    (getGraphQLQuery JSON_parse req = Ok VNull ->
     handleRequest JSON_stringify app raw
     = ([Invoked (handler R) (slice1 m)],
        Ok (plain_text 400 (js "400 bad request"))))
    /\ (forall e,
           toLowerCase (method req) = js "post" ->
           lookup (request_headers_of req) (js "content-type")
           = Some (js "application/json") ->
           JSON_parse (request_body (request req)) = Throw e ->
           handleRequest JSON_stringify app raw
           = ([Invoked (handler R) (slice1 m); Logged e],
              Ok (plain_text 500 (js "500 internal error")))).
Proof.
  intros S P G graphql schema app raw req registry R m Hreq Hroutes Hf Hh.
  unfold handleRequest. rewrite Hreq, Hroutes, dispatch_first_match, Hf, Hh.
  split.
  - intros Hnull. rewrite (handle_null P G graphql schema req Hnull).
    reflexivity.
  - intros e Hm Hct He.
    assert (Hq : handleGraphQLRequest P graphql schema req = Throw e).
    { unfold handleGraphQLRequest, getGraphQLQuery.
      rewrite Hm, Hct. simpl. unfold HTTPRequest_json. now rewrite He. }
    rewrite Hq. reflexivity.
Qed.

Lemma graphql_route_answers_400_or_500_witness :
  handleRequest no_stringify graphql_app
                (body_request (js "application/json") (js "{oops"))
  = ([Invoked (js "api") []; Logged SyntaxError],
     Ok (plain_text 500 (js "500 internal error"))).
Proof.
  eassert (Hreq : HTTPRequest_new
                    (body_request (js "application/json") (js "{oops"))
                  = Ok _) by (vm_compute; reflexivity).
  eassert (Hroutes : routes graphql_app = Some _) by (vm_compute; reflexivity).
  match type of Hreq with
  | _ = Ok ?req =>
      match type of Hroutes with
      | _ = Some ?registry =>
          eassert (Hf : first_match req registry = Some (_, _))
            by (vm_compute; reflexivity)
      end
  end.
  apply (proj2 (graphql_route_answers_400_or_500 no_stringify no_parse
                  unit null_executor tt graphql_app _ _ _ _ _
                  Hreq Hroutes Hf eq_refl) SyntaxError);
    reflexivity.
Defined.

End EndpointFacts.

Module AlternationFacts.
Import RegExpFacts CompileFacts AnchorFacts.

Lemma map_last_snoc {A} (g : A -> A) l a :
  map_last g (l ++ [a]) = l ++ [g a].
Proof.
  induction l as [|x l IH]; [reflexivity|].
  change ((x :: l) ++ [a]) with (x :: (l ++ [a])).
  rewrite map_last_cons by (destruct l; discriminate).
  now rewrite IH.
Qed.

Lemma rev_map_last {A} (g : A -> A) l first rest :
  rev l = first :: rest -> rev (map_last g l) = g first :: rest.
Proof.
  intros H. rewrite <- (rev_involutive l), H. simpl.
  now rewrite map_last_snoc, rev_app_distr, rev_involutive.
Qed.

Lemma seq_of_not_alt ts a b : seq_of ts <> Alt a b.
Proof. destruct ts; discriminate. Qed.

Lemma rev_cons_app {A} (a : A) l : rev (a :: l) = rev l ++ [a].
Proof. reflexivity. Qed.

Lemma frame_regex_alternatives f :
  frame_regex f = alt_of (rev (alts f) ++ [seq_of (rev (map fst (terms f)))]).
Proof. unfold frame_regex, close_alt. now rewrite rev_cons_app. Qed.

Lemma frame_regex_anchored f first rest :
  rev (alts f) = first :: rest ->
  frame_regex (Frame (capture (anchor_frame f)) (alts (anchor_frame f))
                     ((Eol, Fixed) :: terms (anchor_frame f)))
  = alt_of (Seq Bol first
              :: rest ++ [seq_of (rev (map fst (terms f)) ++ [Eol])]).
Proof.
  intros Ea. rewrite frame_regex_alternatives. unfold anchor_frame.
  destruct (alts f) as [|x al] eqn:El; [discriminate|].
  cbn [alts terms capture].
  rewrite (rev_map_last (Seq Bol) (x :: al) first rest Ea).
  change (map fst ((Eol, Fixed) :: terms f)) with (Eol :: map fst (terms f)).
  rewrite rev_cons_app. reflexivity.
Qed.

(** Compiling [^p$] when [p] alone compiles to an alternation: the
    first alternative gets the leading assertion, the last one the
    trailing assertion, and the ones between get none. *)
Lemma compile_alternation p re0 a b :
  RegExp_new p = Some re0 ->
  program re0 = Alt a b ->
  exists re first rest ts,
    RegExp_new (js "^" ++ p ++ js "$") = Some re
    /\ program re0 = alt_of (first :: rest ++ [seq_of ts])
    /\ program re = alt_of (Seq Bol first :: rest ++ [seq_of (ts ++ [Eol])]).
Proof.
  intros Hnew Halt. unfold RegExp_new in Hnew.
  destruct (run p initial) as [st|] eqn:Er; [|discriminate].
  destruct (finish st) as [[r n]|] eqn:Ef; [|discriminate].
  injection Hnew as <-. cbn [program] in Halt.
  unfold finish in Ef.
  destruct (md st) eqn:Em; try discriminate.
  destruct (outer st) as [|f fs] eqn:Eo; [|discriminate].
  injection Ef as <- <-.
  rewrite frame_regex_alternatives in Halt.
  destruct (rev (alts (inner st))) as [|first rest] eqn:Ea.
  { exfalso. exact (seq_of_not_alt _ _ _ Halt). }
  assert (Hrun : run (js "^" ++ p ++ js "$") initial
                 = Some (push_term (anchor_state st) Eol Fixed)).
  { change (run (js "^" ++ p ++ js "$") initial)
      with (run (p ++ [36%N]) (anchor_state initial)).
    rewrite run_app, anchor_run, Er. simpl.
    unfold step. now rewrite anchor_mode, Em. }
  assert (Hfin : finish (push_term (anchor_state st) Eol Fixed)
                 = Some (alt_of (Seq Bol first
                                   :: rest
                                      ++ [seq_of (rev (map fst
                                                         (terms (inner st)))
                                                  ++ [Eol])]),
                         ngroups st)).
  { unfold finish, push_term, anchor_state. rewrite Eo.
    cbn [md outer inner ngroups].
    now rewrite (frame_regex_anchored (inner st) first rest Ea). }
  unfold RegExp_new. rewrite Hrun, Hfin.
  eexists _, first, rest, (rev (map fst (terms (inner st)))).
  split; [reflexivity|]. cbn [program].
  split; [|reflexivity].
  rewrite frame_regex_alternatives, Ea. reflexivity.
Qed.

Section Search.
Variable input : str.

Lemma matcher_alt_of l :
  l <> [] ->
  forall x k,
    matcher input (alt_of l) x k <> None
    <-> exists r, In r l /\ matcher input r x k <> None.
Proof.
  induction l as [|r l IH]; [congruence|]. intros _ x k.
  destruct l as [|r' l].
  - simpl. split; [eauto|]. intros (r0 & [<-|[]] & H). exact H.
  - change (alt_of (r :: r' :: l)) with (Alt r (alt_of (r' :: l))).
    cbn [matcher].
    destruct (matcher input r x k) eqn:E.
    + split; [|discriminate]. intros _. exists r. split; [now left|].
      rewrite E. discriminate.
    + rewrite (IH ltac:(discriminate) x k). split.
      * intros (r0 & Hin & H). exists r0. split; [now right|exact H].
      * intros (r0 & [<-|Hin] & H); [congruence|eauto].
Qed.

Lemma search_some r n :
  forall i,
    search input r n i <> None
    <-> exists j, i <= j <= i + n
                  /\ matcher input r (MState j []) Some <> None.
Proof.
  induction n as [|n IH]; intros i; cbn [search].
  - destruct (matcher input r (MState i []) Some) eqn:E.
    + split; [|discriminate]. intros _. exists i. split; [lia|].
      rewrite E. discriminate.
    + split; [congruence|]. intros (j & Hj & H).
      assert (j = i) as -> by lia. congruence.
  - destruct (matcher input r (MState i []) Some) eqn:E.
    + split; [|discriminate]. intros _. exists i. split; [lia|].
      rewrite E. discriminate.
    + rewrite IH. split.
      * intros (j & Hj & H). exists j. split; [lia|exact H].
      * intros (j & Hj & H).
        destruct (Nat.eq_dec j i) as [->|Hne]; [congruence|].
        exists j. split; [lia|exact H].
Qed.

Lemma matcher_to_the_end ts j :
  j <= length input ->
  matcher input (seq_of (ts ++ [Eol])) (MState j []) Some
  = matcher input (seq_of ts) (MState j []) (at_end input).
Proof.
  intros Hj. rewrite matcher_seq_app by exact Hj.
  apply matcher_local; [exact Hj|].
  intros y _. simpl. unfold at_end. now destruct (pos y =? length input).
Qed.

End Search.

Lemma exec_some re s :
  exec re s <> None <-> search s (program re) (length s) 0 <> None.
Proof.
  unfold exec.
  destruct (search s (program re) (length s) 0) as [[i y]|];
    split; congruence.
Qed.

(** X27.  Let [p] compile on its own to an alternation, its alternatives
    being [first], those of [rest] and the sequence [last].  In the
    pattern [^p$] of the route registered from [p], the leading
    assertion binds to [first] and the trailing one to [last] only: the
    route matches a request exactly when the methods agree up to case
    and [first] matches a prefix of the path, or an alternative of
    [rest] matches anywhere in it, or [last] matches a suffix of it. *)
Theorem alternation_is_anchored_at_its_ends_only :
  forall (name p prop : str) (target : option (list Route))
         (registry : list Route) (re0 : RegExp) (a b : regex),
    RegExp_new p = Some re0 ->
    program re0 = Alt a b ->
    Application_method name p target prop = Some registry ->
    exists R first rest last,
      registry = match target with Some own => own | None => [] end ++ [R]
      /\ program re0 = alt_of (first :: rest ++ [seq_of last])
      /\ forall req : HTTPRequest,
           Route_match R req <> None
           <-> toLowerCase (method req) = toLowerCase name
               /\ (starts_with first (pathname (url req))
                   \/ (exists r, In r rest /\ occurs r (pathname (url req)))
                   \/ ends_with (seq_of last) (pathname (url req))).
Proof.
  intros name p prop target registry re0 a b Hre0 Halt Hreg.
  destruct (compile_alternation p re0 a b Hre0 Halt)
    as (re & first & rest & ts & Hre & H0 & Hp).
  apply registration_route in Hreg as (re' & Hre' & ->).
  assert (re' = re) as -> by congruence.
  exists (Route_new name re prop), first, rest, ts.
  split; [reflexivity|]. split; [exact H0|].
  intros req. rewrite RouteFacts.Route_match_method.
  set (s := pathname (url req)).
  assert (Hexec :
            exec re s <> None
            <-> starts_with first s
                \/ (exists r, In r rest /\ occurs r s)
                \/ ends_with (seq_of ts) s).
  { rewrite exec_some, search_some, Hp. split.
    - intros (j & Hj & H).
      apply matcher_alt_of in H as (r & Hin & Hr); [|discriminate].
      destruct Hin as [<-|Hin].
      + left. simpl in Hr. unfold starts_with.
        destruct (Nat.eqb_spec j 0) as [->|_]; [exact Hr|congruence].
      + apply in_app_iff in Hin as [Hin|[<-|[]]].
        * right. left. exists r. split; [exact Hin|].
          exists j. split; [lia|exact Hr].
        * right. right. exists j. split; [lia|].
          rewrite matcher_to_the_end in Hr by lia. exact Hr.
    - intros [H|[(r & Hin & j & Hj & H)|(j & Hj & H)]].
      + exists 0. split; [lia|].
        apply matcher_alt_of; [discriminate|].
        exists (Seq Bol first). split; [now left|exact H].
      + exists j. split; [lia|].
        apply matcher_alt_of; [discriminate|].
        exists r. split; [right; apply in_app_iff; now left|exact H].
      + exists j. split; [lia|].
        apply matcher_alt_of; [discriminate|].
        exists (seq_of (ts ++ [Eol])).
        split; [right; apply in_app_iff; right; now left|].
        rewrite matcher_to_the_end by lia. exact H. }
  destruct (eqb (toLowerCase (method req)) (toLowerCase name)) eqn:E.
  - apply StringFacts.eqb_eq in E. rewrite Hexec. tauto.
  - apply StringFacts.eqb_neq in E. split; [congruence|tauto].
Qed.

Lemma alternation_is_anchored_at_its_ends_only_witness :
  exists R first rest last,
    either_route = Some ([] ++ [R])
    /\ Alt (seq_of [Char 47; Char 97]) (seq_of [Char 47; Char 98])
       = alt_of (first :: rest ++ [seq_of last])
    /\ forall req : HTTPRequest,
         Route_match R req <> None
         <-> toLowerCase (method req) = toLowerCase (js "get")
             /\ (starts_with first (pathname (url req))
                 \/ (exists r, In r rest /\ occurs r (pathname (url req)))
                 \/ ends_with (seq_of last) (pathname (url req))).
Proof.
  eassert (E0 : RegExp_new (js "/a|/b") = Some _)
    by (vm_compute; reflexivity).
  eassert (Er : Application_method (js "get") (js "/a|/b") None
                                   (js "either") = Some _)
    by (vm_compute; reflexivity).
  destruct (alternation_is_anchored_at_its_ends_only _ _ _ _ _ _ _ _ E0
              eq_refl Er)
    as (R & first & rest & last & HR & H0 & Hm).
  exists R, first, rest, last.
  split; [|split; [exact H0|exact Hm]].
  unfold either_route, Application_get. rewrite Er, HR. reflexivity.
Defined.

End AlternationFacts.
